(** * eduvocs: the configuration and the search store built on it

    A shallow embedding of [src/lib/config.js] and of the Svelte store
    module that imports it and drives the vocabulary search page: the
    state object [db], the derived pagination window, the query engine
    ([search], [fillResults]), the result projector ([sort],
    [paginatedResults]), the facet selection ([handleFilterSelect],
    [resetFilters]), the persisted selection ([toggleSelected],
    [resetSelected]), the filter catalogue ([createFilterOptions]) and
    the start of the page ([createIndex]).

    JavaScript data is modelled as the code has it.  Numbers are
    integers ([Z]).  A document record is a [gmap] from property names
    to values.  The store value is one object: a [gmap] from property
    names to what the properties hold, so that [db[dbKey]] reads, and
    [{ ...db, [dbKey]: v }] overwrites, whatever property the key names.
    Objects whose property order matters are association lists in the
    order the properties were created.  Exceptions are an explicit
    [Throw] completion, and the two globals the module mutates (the
    store value and [localStorage]) are threaded through a small
    state-and-exception monad.  What the module takes from outside (the
    ids the index finds, string collation, number printing) is a
    parameter.

    The model follows every operation on the values the module puts
    under the properties it reads, and where the operation throws on
    what [toggleSelected] and [resetSelected] can put in their place.
    Where the code would go on with a value of another kind by a
    conversion of the language (an array used as a number, a property
    read off a string, a record turned into JSON text), the model stops:
    the operation has no result ([None]). *)

From Stdlib Require Import ZArith NArith String Ascii List Lia.
From stdpp Require Import base option list gmap strings pretty sorting.

#[local] Set Warnings "-register-all".
Local Open Scope string_scope.
Local Open Scope Z_scope.

(** ** JavaScript values held by documents *)

(** Property values of an indexed document.  Numbers are the integral
    ones; a missing property reads as [JUndefined]. *)
Inductive JSVal : Type :=
  | JUndefined
  | JNull
  | JBool (b : bool)
  | JNum (n : Z)
  | JStr (s : string)
  | JArr (vs : list JSVal).

(** A document record: property name to value. *)
Abbreviation Doc := (gmap string JSVal).

(** [a[key]] *)
Definition prop (a : Doc) (key : string) : JSVal :=
  default JUndefined (a !! key).

(** [v == null]: true for [null] and [undefined] only. *)
Definition is_nullish (v : JSVal) : bool :=
  match v with
  | JUndefined | JNull => true
  | _ => false
  end.

(** Equality of values is decidable. *)
Fixpoint JSVal_eq_dec (a b : JSVal) : {a = b} + {a ≠ b}.
Proof.
  decide equality.
  - apply bool_dec.
  - apply Z.eq_dec.
  - apply string_dec.
  - apply (List.list_eq_dec JSVal_eq_dec).
Defined.

#[global] Instance JSVal_eq : EqDecision JSVal := JSVal_eq_dec.

(** ** Completions *)

Inductive Error : Type := TypeError.

Inductive Completion (A : Type) : Type :=
  | Normal (a : A)
  | Throw (e : Error).
Arguments Normal {A} a.
Arguments Throw {A} e.

Definition cbind {A B} (c : Completion A) (k : A → Completion B) : Completion B :=
  match c with
  | Normal a => k a
  | Throw e => Throw e
  end.

(** [Array.prototype.filter] with a callback that may throw: the first
    exception aborts the whole call. *)
Fixpoint filter_c {A} (p : A → Completion bool) (l : list A) : Completion (list A) :=
  match l with
  | [] => Normal []
  | x :: l' =>
      cbind (p x) (fun keep =>
      cbind (filter_c p l') (fun rest =>
      Normal (if keep then x :: rest else rest)))
  end.

(** ** Array helpers *)

(** [Array.prototype.slice(start, end)] on integer arguments. *)
Definition slice {A} (l : list A) (start end_ : Z) : list A :=
  let len := Z.of_nat (length l) in
  let k := if start <? 0 then Z.max (len + start) 0 else Z.min start len in
  let final := if end_ <? 0 then Z.max (len + end_) 0 else Z.min end_ len in
  take (Z.to_nat (final - k)) (drop (Z.to_nat k) l).

(** [Array.prototype.indexOf] on strings: position of the first strictly
    equal element, or [-1]. *)
Fixpoint indexOf (val : string) (l : list string) : Z :=
  match l with
  | [] => -1
  | x :: l' =>
      if decide (x = val) then 0
      else let i := indexOf val l' in if i <? 0 then -1 else i + 1
  end.

(** [Array.prototype.includes] on strings. *)
Definition includes (val : string) (l : list string) : bool :=
  bool_decide (val ∈ l).

(** [l.filter((e) => e !== val)] *)
Definition without (val : string) (l : list string) : list string :=
  filter (λ e, e ≠ val) l.

(** [String.prototype.includes]: [s] occurs in [t] as a substring. *)
Fixpoint str_includes (s t : string) : bool :=
  String.prefix s t ||
  match t with
  | EmptyString => false
  | String _ t' => str_includes s t'
  end.

(** [[...s]] for a string: its characters, each a string of its own. *)
Fixpoint chars (s : string) : list string :=
  match s with
  | EmptyString => []
  | String c s' => String c EmptyString :: chars s'
  end.

(** ** Plain objects *)

(** A plain object: its properties in the order they were created. *)
Abbreviation Obj V := (list (string * V)).

(** [o[key]] *)
Fixpoint obj_get {V} (o : Obj V) (key : string) : option V :=
  match o with
  | [] => None
  | (k, v) :: o' => if decide (k = key) then Some v else obj_get o' key
  end.

(** [{ ...o, [key]: v }]: an existing property keeps its place, a new one
    goes last. *)
Fixpoint obj_set {V} (o : Obj V) (key : string) (v : V) : Obj V :=
  match o with
  | [] => [(key, v)]
  | (k, w) :: o' =>
      if decide (k = key) then (k, v) :: o' else (k, w) :: obj_set o' key v
  end.

(** [Object.fromEntries(entries)] *)
Definition fromEntries {V} (entries : list (string * V)) : Obj V :=
  fold_left (fun o e => obj_set o e.1 e.2) entries [].

(** The digit a character stands for. *)
Definition digit (c : ascii) : option N :=
  let n := nat_of_ascii c in
  if ((48 <=? n) && (n <=? 57))%nat then Some (N.of_nat (n - 48)) else None.

(** The number a string of digits stands for, after [acc]. *)
Fixpoint digits (acc : N) (s : string) : option N :=
  match s with
  | EmptyString => Some acc
  | String c s' =>
      match digit c with
      | Some d => digits (10 * acc + d)%N s'
      | None => None
      end
  end.

(** A property key is an array index when it is the decimal form,
    without a leading zero, of an integer below [2^32 - 1]. *)
Definition array_index (key : string) : option N :=
  match key with
  | EmptyString => None
  | String c rest =>
      if bool_decide (c = "0"%char) && negb (bool_decide (rest = EmptyString)) then None
      else
        match digits 0 key with
        | Some n => if (n <? 4294967295)%N then Some n else None
        | None => None
        end
  end.

(** The place of a property with index [n] among those already in
    ascending order of their indices. *)
Fixpoint insert_indexed {V} (n : N) (v : V) (l : list (N * V)) : list (N * V) :=
  match l with
  | [] => [(n, v)]
  | (m, u) :: l' =>
      if (n <? m)%N then (n, v) :: l else (m, u) :: insert_indexed n v l'
  end.

(** The properties whose keys are array indices, in ascending order of
    the index. *)
Definition indexed_props {V} (o : Obj V) : list (N * V) :=
  foldr (fun e acc => insert_indexed e.1 e.2 acc) []
        (omap (fun kv => match array_index kv.1 with
                         | Some n => Some (n, kv.2)
                         | None => None
                         end) o).

(** The properties whose keys are no array indices, in the order they
    were created. *)
Definition named_props {V} (o : Obj V) : Obj V :=
  List.filter (fun kv => match array_index kv.1 with
                         | Some _ => false
                         | None => true
                         end) o.

(** [Object.values(o)]: the language enumerates the properties whose
    keys are array indices first, in ascending order of the index, and
    then the others in the order they were created. *)
Definition values {V} (o : Obj V) : list V :=
  (map snd (indexed_props o) ++ map snd (named_props o))%list.

(** [arrays.flat()] for an array of arrays. *)
Definition flat {A} (ls : list (list A)) : list A := concat ls.

(** ** config.js *)

Module config.
Definition gitRepo : string := "https://github.com/dini-ag-kim/eduvocs".
Definition filterKeys : list string := ["about"; "educationalLevel"; "P126"].
Definition sortKeys : list string :=
  ["name"; "issued"; "maintainedBy"; "about"; "educationalLevel"].
End config.

(** ** The FlexSearch document index, as the store module uses it *)

Module Item.
(** One enriched hit: the document id and the stored record. *)
Record t : Type := { id : string; doc : Doc }.
End Item.

Module Group.
(** Hits of one searched field. *)
Record t : Type := { field : string; result : list Item.t }.
End Group.

(** The options object passed to [index.search]. *)
Record SearchOptions : Type :=
  { opt_index : list string; opt_enrich : bool; opt_tag : list string }.

Module Document.
(** [added] lists the records put into the index's store with their
    ids, in the order they were put.  [hits] is the library's lookup:
    the ids it finds for a term and options, field by field. *)
Record t : Type :=
  { added : list (string * Doc);
    hits : string → SearchOptions → list (string * list string) }.

(** [index.store]: the object the records were put into.  A record put
    under an id already there replaces the older one where it stands. *)
Definition store (index : t) : Obj Doc := fromEntries (added index).

(** One hit as [enrich] returns it: [{ id, doc: store[id] }]. *)
Definition enrich (index : t) (id : string) : option Item.t :=
  match obj_get (store index) id with
  | Some doc => Some {| Item.id := id; Item.doc := doc |}
  | None => None
  end.

(** [index.search(term, options)] with [enrich: true]: the hits of
    every field, each resolved against the store.  Without [enrich] the
    library returns bare ids, and a hit without a record in the store
    would carry [undefined]: neither is modelled. *)
Definition search (index : t) (term : string) (options : SearchOptions)
    : option (list Group.t) :=
  if opt_enrich options then
    mapM (fun g : string * list string =>
            match mapM (enrich index) g.2 with
            | Some result => Some {| Group.field := g.1; Group.result := result |}
            | None => None
            end)
         (hits index term options)
  else None.
End Document.

(** ** [createFilterOptions] *)

(** [vs.flat()] on an array of values: an element that is an array gives
    its elements, one level deep. *)
Definition flat_values (vs : list JSVal) : list JSVal :=
  flat (map (fun v => match v with JArr us => us | _ => [v] end) vs).

(** [e !== undefined] *)
Definition defined (e : JSVal) : bool :=
  match e with
  | JUndefined => false
  | _ => true
  end.

(** The comparison a [Set] makes: primitives by value; an array is an
    object and equals no value met before, as long as no array object of
    the store occurs twice. *)
Definition same_value (a b : JSVal) : bool :=
  match a, b with
  | JArr _, _ | _, JArr _ => false
  | _, _ => bool_decide (a = b)
  end.

Module JsSet.
(** [s.add(v)] on the values in insertion order. *)
Definition add (v : JSVal) (s : list JSVal) : list JSVal :=
  if existsb (same_value v) s then s else (s ++ [v])%list.

(** [new Set(values)] *)
Definition of_values (vs : list JSVal) : list JSVal :=
  fold_left (fun s v => add v s) vs [].
End JsSet.

(** The values one facet key takes over the stored records. *)
Definition facet_values (index : Document.t) (k : string) : list JSVal :=
  List.filter defined
    (flat_values (map (fun e => prop e k) (values (Document.store index)))).

(** [createFilterOptions()], as the promise resolves, over the index of
    the module. *)
Definition createFilterOptions (index : Document.t) : Obj (list JSVal) :=
  fold_left
    (fun filters k => obj_set filters k (JsSet.of_values (facet_values index k)))
    config.filterKeys [].

(** ** The store value *)

Record SortState : Type := { sort_key : string; sort_order : string }.

(** An element of an array the store holds: a document record or a
    string. *)
Inductive Elem : Type :=
  | EDoc (d : Doc)
  | EStr (s : string).

(** What a property of the store value holds: a number, a string, a
    boolean, an array, or one of the objects of the module, which are the
    sort state [{ key, order }], the filter catalogue (facet key to
    [Set]), the selection map (facet key to array of strings) and the
    index, which is [None] while it is still the empty placeholder
    object. *)
Inductive Value : Type :=
  | VNum (n : Z)
  | VStr (s : string)
  | VBool (b : bool)
  | VArr (l : list Elem)
  | VSort (st : SortState)
  | VFilters (filters : Obj (list JSVal))
  | VSelected (selectedFilters : Obj (list string))
  | VIndex (index : option Document.t).

(** The strings of an array that holds nothing else. *)
Definition strings_of (l : list Elem) : option (list string) :=
  mapM (fun e => match e with EStr s => Some s | EDoc _ => None end) l.

(** The records of an array that holds nothing else. *)
Definition docs_of (l : list Elem) : option (list Doc) :=
  mapM (fun e => match e with EDoc d => Some d | EStr _ => None end) l.

Module Db.
(** The object held by the writable store [db]: property name to what
    the property holds.  A name without a property reads as
    [undefined]. *)
Abbreviation t := (gmap string Value).

(** [{ ...d, activePage: p }] and its siblings. *)
Definition with_activePage (p : Z) (d : t) : t := <["activePage" := VNum p]> d.

Definition with_query (q : string) (d : t) : t := <["query" := VStr q]> d.

Definition with_results (rs : list Doc) (d : t) : t :=
  <["results" := VArr (EDoc <$> rs)]> d.

Definition with_sort (st : SortState) (d : t) : t := <["sort" := VSort st]> d.

Definition with_selectedFilters (sel : Obj (list string)) (d : t) : t :=
  <["selectedFilters" := VSelected sel]> d.

Definition with_filters (filters : Obj (list JSVal)) (d : t) : t :=
  <["filters" := VFilters filters]> d.

Definition with_index (index : Document.t) (d : t) : t :=
  <["index" := VIndex (Some index)]> d.
End Db.

(** [Object.fromEntries(config.filterKeys.map((e) => [e, []]))] *)
Definition initFilters : Obj (list string) :=
  fromEntries (map (fun e => (e, [])) config.filterKeys).

(** The initial store value. *)
Definition db : Db.t :=
  list_to_map
    [ ("resultsPerPage", VNum 10);
      ("activePage", VNum 1);
      ("query", VStr "");
      ("results", VArr []);
      ("filters", VFilters []);
      ("index", VIndex None);
      ("sort", VSort {| sort_key := ""; sort_order := "asc" |});
      ("initizialized", VBool false);
      ("filterKeys", VArr (EStr <$> config.filterKeys));
      ("selectedFilters", VSelected initFilters);
      ("selectedVocabs", VArr []) ].

(** The derived store [paginatedResults].  The window is modelled where
    the page and the page size are numbers and the results an array. *)
Definition paginatedResults (d : Db.t) : option (list Elem) :=
  match d !! "activePage", d !! "resultsPerPage", d !! "results" with
  | Some (VNum activePage), Some (VNum resultsPerPage), Some (VArr results) =>
      let startIndex := activePage * resultsPerPage in
      let endIndex := startIndex + resultsPerPage in
      Some (slice results startIndex endIndex)
  | _, _, _ => None
  end.

(** ** The module's globals and its monad *)

Record Env : Type :=
  { db_value : Db.t;
    localStorage : gmap string string }.

(** An operation on the globals: a completion and the globals it
    leaves, or no result where the model stops. *)
Definition M (A : Type) : Type := Env → option (Completion A * Env).

Definition ret {A} (a : A) : M A := fun w => Some (Normal a, w).

Definition throw {A} (e : Error) : M A := fun w => Some (Throw e, w).

(** The code goes on by a conversion that is not modelled. *)
Definition beyond {A} : M A := fun _ => None.

Definition bind {A B} (k : A → M B) (m : M A) : M B :=
  fun w =>
    match m w with
    | Some (Normal a, w') => k a w'
    | Some (Throw e, w') => Some (Throw e, w')
    | None => None
    end.

#[global] Instance M_ret : MRet M := @ret.
#[global] Instance M_bind : MBind M := @bind.

(** [get(db)] *)
Definition get_db : M Db.t := fun w => Some (Normal (db_value w), w).

(** [db.update(f)]: the store takes the callback's result; when the
    callback throws the store keeps its value. *)
Definition db_update (f : Db.t → M Db.t) : M unit :=
  fun w =>
    match f (db_value w) w with
    | Some (Normal d, w') =>
        Some (Normal tt, {| db_value := d; localStorage := localStorage w' |})
    | Some (Throw e, w') => Some (Throw e, w')
    | None => None
    end.

(** [localStorage.setItem(k, v)] *)
Definition setItem (k v : string) : M unit :=
  fun w => Some (Normal tt, {| db_value := db_value w;
                               localStorage := <[k := v]> (localStorage w) |}).

(** [updatePagination(direction)]; a page that is no number would be
    joined with the direction as text. *)
Definition updatePagination (direction : Z) : M unit :=
  db_update (fun d =>
    match d !! "activePage" with
    | Some (VNum page) =>
        let activePage := page + direction in
        mret (Db.with_activePage activePage d)
    | _ => beyond
    end).

(** [updateResults(results)] *)
Definition updateResults (results : list Doc) : M unit :=
  db_update (fun d =>
    mret (Db.with_activePage 0 (Db.with_results results d))).

(** The marker of a vocabulary record. *)
Definition vocabulary : string := "http://www.wikidata.org/entity/Q1469824".

(** [e.type.includes(s)]: an array is searched for a strictly equal
    element, a string for a substring; reading [includes] off a missing
    or null [type] throws, and so does calling it on a number or a
    boolean, which have no such method. *)
Definition type_includes (e : Doc) (s : string) : Completion bool :=
  match prop e "type" with
  | JArr vs =>
      Normal (existsb (fun v => match v with
                                | JStr t => bool_decide (t = s)
                                | _ => false
                                end) vs)
  | JStr t => Normal (str_includes s t)
  | _ => Throw TypeError
  end.

(** Runs a pure computation that may throw. *)
Definition lift {A} (c : Completion A) : M A := fun w => Some (c, w).

(** [fillResults()].  The placeholder object has no [store], and an
    array put in its place has none either: [Object.values(undefined)]
    throws. *)
Definition fillResults : M unit :=
  d ← get_db;
  match d !! "index" with
  | Some (VIndex (Some index)) =>
      results ← lift (filter_c (fun e => type_includes e vocabulary)
                               (values (Document.store index)));
      updateResults results
  | Some (VIndex None) | Some (VArr _) => throw TypeError
  | _ => beyond
  end.

(** [resetFilters()] *)
Definition resetFilters : M unit :=
  db_update (fun d =>
    mret (Db.with_selectedFilters initFilters
           (Db.with_sort {| sort_key := ""; sort_order := "asc" |}
             (Db.with_query "" d))));;
  fillResults.

(** ** The built-in [Map] *)

Module JsMap.
(** Entries in insertion order.  [set] on a key already present
    replaces the value and leaves the entry where it is. *)
Fixpoint set {V} (k : string) (v : V) (m : list (string * V)) : list (string * V) :=
  match m with
  | [] => [(k, v)]
  | (k', v') :: m' =>
      if decide (k' = k) then (k', v) :: m' else (k', v') :: set k v m'
  end.

(** [new Map(entries)] *)
Definition of_entries {V} (entries : list (string * V)) : list (string * V) :=
  fold_left (fun m e => set e.1 e.2 m) entries [].

(** [Array.from(m.values())] *)
Definition values {V} (m : list (string * V)) : list V := map snd m.
End JsMap.

(** Every array is truthy, the empty one too. *)
Definition truthy {A} (l : list A) : bool := true.

(** The fields [search] asks the index to look in. *)
Definition searchFields : list string := ["id"; "title"; "about"; "P126"].

(** The merge of the grouped hits: flatten, then key a [Map] by id. *)
Definition resultSet (groupedResults : list Group.t) : list Item.t :=
  JsMap.values
    (JsMap.of_entries
       (map (fun item => (Item.id item, item)) (flat (map Group.result groupedResults)))).

(** [search(event)]; the event only has its default action cancelled.
    The term is read as a string and the selection as the selection
    map.  Calling [search] off the placeholder object, or off an array
    put in its place, throws. *)
Definition search : M unit :=
  d ← get_db;
  match d !! "query", d !! "selectedFilters" with
  | Some (VStr searchTerm), Some (VSelected selectedFilters) =>
      let tags := flat (values selectedFilters) in
      if bool_decide (searchTerm = "") && (Z.of_nat (length tags) =? 0) then
        fillResults
      else
        match d !! "index" with
        | Some (VIndex (Some index)) =>
            match Document.search index searchTerm
                    {| opt_index := searchFields; opt_enrich := true; opt_tag := tags |} with
            | Some groupedResults =>
                let results := map Item.doc (resultSet groupedResults) in
                if (Z.of_nat (length results) =? 0)
                   && truthy (flat (values selectedFilters))
                then updateResults []
                else updateResults results
            | None => beyond
            end
        | Some (VIndex None) | Some (VArr _) => throw TypeError
        | _ => beyond
        end
  | _, _ => beyond
  end.

(** [handleFilterSelect(key, val)]; on a key the selection map does not
    hold, reading [indexOf] throws. *)
Definition handleFilterSelect (key val : string) : M unit :=
  db_update (fun d =>
    match d !! "selectedFilters" with
    | Some (VSelected selected) =>
        match obj_get selected key with
        | None => throw TypeError
        | Some current =>
            let indexInSelectedFilters := indexOf val current in
            let selectedFilters :=
              if -1 <? indexInSelectedFilters then
                obj_set selected key (without val current)
              else
                obj_set selected key (current ++ [val])%list in
            mret (Db.with_selectedFilters selectedFilters d)
        end
    | _ => beyond
    end);;
  search.

(** [Array.prototype.join] with its default separator, on strings. *)
Fixpoint join (l : list string) : string :=
  match l with
  | [] => EmptyString
  | [x] => x
  | x :: l' => x +:+ "," +:+ join l'
  end.

(** ** [JSON.stringify] *)

Module JSON.
(** The values the store module serialises: strings, arrays, objects. *)
Inductive t : Type :=
  | Str (s : string)
  | Arr (l : list t)
  | Obj (o : list (string * t)).

Definition hex (n : nat) : ascii :=
  ascii_of_nat (if (n <? 10)%nat then 48 + n else 87 + n).

(** One code unit inside a quoted string: the quotation mark, the
    backslash and the control characters are escaped. *)
Definition escape (c : ascii) : string :=
  let n := nat_of_ascii c in
  let bs := "092"%char in
  if (n =? 34)%nat then String bs (String c EmptyString)
  else if (n =? 92)%nat then String bs (String bs EmptyString)
  else if (n =? 8)%nat then String bs "b"
  else if (n =? 12)%nat then String bs "f"
  else if (n =? 10)%nat then String bs "n"
  else if (n =? 13)%nat then String bs "r"
  else if (n =? 9)%nat then String bs "t"
  else if (n <? 32)%nat then
    String bs ("u00" +:+ String (hex (n / 16)) (String (hex (n mod 16)) EmptyString))
  else String c EmptyString.

Fixpoint escape_all (s : string) : string :=
  match s with
  | EmptyString => EmptyString
  | String c s' => escape c +:+ escape_all s'
  end.

Definition quote (s : string) : string :=
  String "034"%char (escape_all s +:+ String "034"%char EmptyString).

Fixpoint stringify (j : t) : string :=
  match j with
  | Str s => quote s
  | Arr l => "[" +:+ join (map stringify l) +:+ "]"
  | Obj o =>
      "{" +:+ join (map (fun kv => quote kv.1 +:+ ":" +:+ stringify kv.2) o) +:+ "}"
  end.

(** An array of strings as a JSON value. *)
Definition strings (l : list string) : t := Arr (map Str l).
End JSON.

(** ** The persisted selection *)

(** The storage key [`eduvocs:${dbKey}`]. *)
Definition storageKey (dbKey : string) : string := "eduvocs:" +:+ dbKey.

(** [JSON.stringify({ [dbKey]: ids })] *)
Definition stringify_updated (dbKey : string) (ids : list string) : string :=
  JSON.stringify (JSON.Obj [(dbKey, JSON.strings ids)]).

(** [toggleSelected(dbKey, val)].  [db[dbKey]] is whatever the store
    holds under the key.  An array of strings is searched and rebuilt.
    A string has [includes] too, as the substring test, but no
    [filter]; when [val] is no substring the string is spread into its
    characters.  Every other value, a missing one too, has no
    [includes]: the call throws before anything is written.  The text
    of an array that holds records is not modelled. *)
Definition toggleSelected (dbKey val : string) : M unit :=
  db_update (fun d =>
    match d !! dbKey with
    | Some (VArr l) =>
        match strings_of l with
        | Some current =>
            if includes val current then
              let updated := without val current in
              setItem (storageKey dbKey) (stringify_updated dbKey updated);;
              mret (<[dbKey := VArr (EStr <$> updated)]> d)
            else
              let updated := (current ++ [val])%list in
              setItem (storageKey dbKey) (stringify_updated dbKey updated);;
              mret (<[dbKey := VArr (EStr <$> updated)]> d)
        | None => beyond
        end
    | Some (VStr s) =>
        if str_includes val s then throw TypeError
        else
          let updated := (chars s ++ [val])%list in
          setItem (storageKey dbKey) (stringify_updated dbKey updated);;
          mret (<[dbKey := VArr (EStr <$> updated)]> d)
    | _ => throw TypeError
    end).

(** [resetSelected(dbKey)] *)
Definition resetSelected (dbKey : string) : M unit :=
  db_update (fun d =>
    let updated : list string := [] in
    setItem (storageKey dbKey) (stringify_updated dbKey updated);;
    mret (<[dbKey := VArr (EStr <$> updated)]> d)).

(** [createIndex()], from the point where the vocabulary file is loaded
    and every part of the exported index is imported: [index] is the
    module's index as the imports leave it.  The store gets a new
    property [initialized]; the property [initizialized] of the initial
    object is not written. *)
Definition createIndex (index : Document.t) : M unit :=
  let filters := createFilterOptions index in
  db_update (fun d => mret (Db.with_filters filters d));;
  db_update (fun d => mret (Db.with_index index d));;
  db_update (fun d => mret (<["initialized" := VBool true]> d));;
  fillResults.

(** ** [Array.prototype.sort] *)

Section array_sort.
Context {A : Type} (comparefn : A → A → Z).

(** The language standard fixes the result of [sort] only for a
    consistent comparator, where the sort is stable; otherwise the order
    is the engine's.  The model is the engine's algorithm as V8 runs it
    on an array of fewer than 64 elements: the run that starts the array
    is found (and reversed when it descends strictly), then every later
    element is put into the sorted front by binary insertion.  The
    comparator is called on the same pairs, in the same order.  The model
    takes this path at every length. *)

(** How far the run goes on after [prev]: the rest of the run and the
    elements left over. *)
Fixpoint run_rest (descending : bool) (prev : A) (l : list A) : list A * list A :=
  match l with
  | [] => ([], [])
  | cur :: l' =>
      let order := comparefn cur prev in
      if (if descending then 0 <=? order else order <? 0) then ([], l)
      else
        let '(run, others) := run_rest descending cur l' in
        (cur :: run, others)
  end.

Definition count_and_make_run (l : list A) : list A * list A :=
  match l with
  | x0 :: x1 :: rest =>
      let descending := comparefn x1 x0 <? 0 in
      let '(run, others) := run_rest descending x1 rest in
      let run := x0 :: x1 :: run in
      (if descending then reverse run else run, others)
  | _ => (l, [])
  end.

(** The binary search for the place of [pivot] among [a]; the window
    [left, right) at least halves at every turn, so [fuel] turns are
    enough when it starts at the window's width. *)
Fixpoint pivot_slot (pivot : A) (a : list A) (fuel left right : nat) : nat :=
  match fuel with
  | O => left
  | S fuel' =>
      if (left <? right)%nat then
        let mid := (left + (right - left) / 2)%nat in
        match a !! mid with
        | Some x =>
            if comparefn pivot x <? 0
            then pivot_slot pivot a fuel' left mid
            else pivot_slot pivot a fuel' (mid + 1)%nat right
        | None => left
        end
      else left
  end.

Definition binary_insert (a : list A) (pivot : A) : list A :=
  let left := pivot_slot pivot a (length a) 0 (length a) in
  (take left a ++ pivot :: drop left a)%list.

Definition array_sort (l : list A) : list A :=
  let '(run, others) := count_and_make_run l in
  fold_left binary_insert others run.
End array_sort.

(** ** What [sort] takes from the runtime's locale and number support *)

Class Runtime : Type :=
  { localeCompare : string → string → Z;
    numberToString : Z → string }.

(** [String.prototype.toLowerCase], on the ASCII letters. *)
Definition lower (c : ascii) : ascii :=
  let n := nat_of_ascii c in
  if ((65 <=? n) && (n <=? 90))%nat then ascii_of_nat (n + 32) else c.

Fixpoint toLowerCase (s : string) : string :=
  match s with
  | EmptyString => EmptyString
  | String c s' => String (lower c) (toLowerCase s')
  end.

Section sort.
Context `{Runtime}.

(** [String(v)]; an array joins its elements with commas, a null or
    undefined element giving the empty string. *)
Fixpoint ToString (v : JSVal) : string :=
  match v with
  | JUndefined => "undefined"
  | JNull => "null"
  | JBool true => "true"
  | JBool false => "false"
  | JNum n => numberToString n
  | JStr s => s
  | JArr vs =>
      join (map (fun e => if is_nullish e then EmptyString else ToString e) vs)
  end.

(** The comparator [sort] hands to the engine. *)
Definition compare (key order : string) (a b : Doc) : Z :=
  let valA := prop a key in
  let valB := prop b key in
  if is_nullish valA || is_nullish valB then 0
  else
    match valA, valB with
    | JNum x, JNum y => if bool_decide (order = "desc") then y - x else x - y
    | _, _ =>
        if bool_decide (order = "desc")
        then localeCompare (ToString valB) (ToString valA)
        else localeCompare (ToString valA) (ToString valB)
    end.


(** [sort(key, order = 'asc')]; the results are sorted as an array of
    records. *)
Definition sort (key : string) (order : option string) : M unit :=
  let order := toLowerCase (default "asc" order) in
  d ← get_db;
  match d !! "results" with
  | Some (VArr l) =>
      match docs_of l with
      | Some rs =>
          let results := array_sort (compare key order) rs in
          db_update (fun d =>
            mret (Db.with_sort {| sort_key := key; sort_order := order |} d));;
          updateResults results
      | None => beyond
      end
  | _ => beyond
  end.
End sort.

(** * Specification vocabulary and example data *)

(** ** What the operations compute *)

(** The globals an operation leaves, whatever its completion. *)
Definition after {A} (m : M A) (w : Env) : option Env := snd <$> m w.

(** The results an operation leaves, when they are an array of
    records. *)
Definition results_after {A} (m : M A) (w : Env) : option (list Doc) :=
  w' ← after m w;
  match db_value w' !! "results" with
  | Some (VArr l) => docs_of l
  | _ => None
  end.

(** The globals after [updateResults rs]. *)
Definition shown (rs : list Doc) (w : Env) : Env :=
  {| db_value := Db.with_activePage 0 (Db.with_results rs (db_value w));
     localStorage := localStorage w |}.

(** An operation that computes a result list and ends in
    [updateResults], or throws before it touches the store. *)
Definition finish (c : Completion (list Doc)) (w : Env) : Completion unit * Env :=
  match c with
  | Normal rs => (Normal tt, shown rs w)
  | Throw e => (Throw e, w)
  end.

(** The list [search] hands to the index as its tag constraint. *)
Definition tags (sel : Obj (list string)) : list string := flat (values sel).

(** The options [search] passes under the selection [sel]. *)
Definition options (sel : Obj (list string)) : SearchOptions :=
  {| opt_index := searchFields; opt_enrich := true; opt_tag := tags sel |}.

(** [search] takes the fast path. *)
Definition unfiltered (q : string) (sel : Obj (list string)) : Prop :=
  q = "" ∧ tags sel = [].

#[global] Instance unfiltered_dec (q : string) (sel : Obj (list string)) :
  Decision (unfiltered q sel).
Proof. unfold unfiltered. apply _. Defined.

(** The index a fetch reads off the store value: the one in place, or
    none when the property holds the placeholder or an array. *)
Definition index_read (v : option Value) : option (option Document.t) :=
  match v with
  | Some (VIndex index) => Some index
  | Some (VArr _) => Some None
  | _ => None
  end.

(** What [fillResults] computes from the index. *)
Definition fill_outcome (index : option Document.t) : Completion (list Doc) :=
  match index with
  | None => Throw TypeError
  | Some ix =>
      filter_c (fun e => type_includes e vocabulary) (values (Document.store ix))
  end.

(** What [search] computes from the term, the selection and the
    index. *)
Definition search_outcome (q : string) (sel : Obj (list string))
    (index : option Document.t) : option (Completion (list Doc)) :=
  if decide (unfiltered q sel) then Some (fill_outcome index)
  else
    match index with
    | None => Some (Throw TypeError)
    | Some ix =>
        groupedResults ← Document.search ix q (options sel);
        Some (Normal (map Item.doc (resultSet groupedResults)))
    end.

(** The globals with another selection map. *)
Definition reselect (sel : Obj (list string)) (w : Env) : Env :=
  {| db_value := Db.with_selectedFilters sel (db_value w);
     localStorage := localStorage w |}.

(** The globals after the first step of [resetFilters]. *)
Definition cleared (w : Env) : Env :=
  {| db_value :=
       Db.with_selectedFilters initFilters
         (Db.with_sort {| sort_key := ""; sort_order := "asc" |}
            (Db.with_query "" (db_value w)));
     localStorage := localStorage w |}.

(** What selecting [val] makes of the list [current]. *)
Definition toggled (val : string) (current : list string) : list string :=
  if decide (val ∈ current) then without val current else (current ++ [val])%list.

(** The globals after the array under [dbKey] became [updated]. *)
Definition persisted (dbKey : string) (updated : list string) (w : Env) : Env :=
  {| db_value := <[dbKey := VArr (EStr <$> updated)]> (db_value w);
     localStorage := <[storageKey dbKey := stringify_updated dbKey updated]> (localStorage w) |}.

(** The value has no [includes] to call: there is no such property, or
    it holds a number, a boolean or an object. *)
Definition no_includes (v : option Value) : Prop :=
  match v with
  | Some (VArr _) | Some (VStr _) => False
  | _ => True
  end.

(** The globals after the first three steps of [createIndex]. *)
Definition loaded (index : Document.t) (w : Env) : Env :=
  {| db_value :=
       <["initialized" := VBool true]>
         (Db.with_index index (Db.with_filters (createFilterOptions index) (db_value w)));
     localStorage := localStorage w |}.

(** The operations without arguments that end in [updateResults]. *)
Definition fetches : list (M unit) := [search; fillResults; resetFilters].

(** The [Map] that [search] builds from the flattened hits. *)
Definition merged (items : list Item.t) : list (string * Item.t) :=
  JsMap.of_entries (map (fun item => (Item.id item, item)) items).

(** ** The calls a page makes *)

(** The exported operations that write the store value, with their
    arguments; [createIndex] with the index its imports leave.
    [createFilterOptions], exported too, writes nothing. *)
Inductive Call : Type :=
  | CallUpdatePagination (direction : Z)
  | CallResetFilters
  | CallFillResults
  | CallSearch
  | CallSort (key : string) (order : option string)
  | CallHandleFilterSelect (key val : string)
  | CallUpdateResults (results : list Doc)
  | CallToggleSelected (dbKey val : string)
  | CallResetSelected (dbKey : string)
  | CallCreateIndex (index : Document.t).

Definition call `{Runtime} (c : Call) : M unit :=
  match c with
  | CallUpdatePagination direction => updatePagination direction
  | CallResetFilters => resetFilters
  | CallFillResults => fillResults
  | CallSearch => search
  | CallSort key order => sort key order
  | CallHandleFilterSelect key val => handleFilterSelect key val
  | CallUpdateResults results => updateResults results
  | CallToggleSelected dbKey val => toggleSelected dbKey val
  | CallResetSelected dbKey => resetSelected dbKey
  | CallCreateIndex index => createIndex index
  end.

(** The globals after a sequence of calls, each from its own event: an
    exception ends the call that threw and no other. *)
Fixpoint after_calls `{Runtime} (cs : list Call) (w : Env) : option Env :=
  match cs with
  | [] => Some w
  | c :: cs' => w' ← after (call c) w; after_calls cs' w'
  end.

(** The properties of the store value a call can write. *)
Definition writes (c : Call) : list string :=
  match c with
  | CallUpdatePagination _ => ["activePage"]
  | CallResetFilters => ["query"; "sort"; "selectedFilters"; "results"; "activePage"]
  | CallFillResults | CallSearch | CallUpdateResults _ => ["results"; "activePage"]
  | CallSort _ _ => ["sort"; "results"; "activePage"]
  | CallHandleFilterSelect _ _ => ["selectedFilters"; "results"; "activePage"]
  | CallToggleSelected dbKey _ | CallResetSelected dbKey => [dbKey]
  | CallCreateIndex _ => ["filters"; "index"; "initialized"; "results"; "activePage"]
  end.

(** The key a call of [toggleSelected] or [resetSelected] names. *)
Definition addresses (c : Call) : option string :=
  match c with
  | CallToggleSelected dbKey _ | CallResetSelected dbKey => Some dbKey
  | _ => None
  end.

(** Only [toggleSelected] and [resetSelected] write the property [k] in
    the call [c]. *)
Definition leaves_to_selection (k : string) (c : Call) : Prop :=
  k ∈ writes c → addresses c = Some k.

(** The storage entry of [k], when there is one, holds the text of the
    array of strings the store has under [k]. *)
Definition in_step_at (k : string) (w : Env) : Prop :=
  ∀ text,
    localStorage w !! storageKey k = Some text →
    ∃ ids, db_value w !! k = Some (VArr (EStr <$> ids)) ∧
           text = stringify_updated k ids.

(** The store has an array of strings without duplicates under [k]. *)
Definition dup_free_at (k : string) (w : Env) : Prop :=
  ∃ ids, db_value w !! k = Some (VArr (EStr <$> ids)) ∧ NoDup ids.

(** The index resolves every hit it finds against its store. *)
Definition resolves (index : option Document.t) : Prop :=
  ∀ ix, index = Some ix → ∀ q sel, is_Some (Document.search ix q (options sel)).

(** The properties the operations read. *)
Definition read_names : list string :=
  ["activePage"; "query"; "selectedFilters"; "results"; "index"].

(** The property [k] holds a value of the kind the module puts there:
    a number as the page, a string as the term, a selection map, an array
    of records as the results, an index that resolves its hits; under
    any other name, an array holds strings only. *)
Definition kind_ok (k : string) (v : Value) : Prop :=
  if decide (k = "activePage") then ∃ page, v = VNum page
  else if decide (k = "query") then ∃ q, v = VStr q
  else if decide (k = "selectedFilters") then ∃ sel, v = VSelected sel
  else if decide (k = "results") then ∃ rs, v = VArr (EDoc <$> rs)
  else if decide (k = "index") then ∃ index, v = VIndex index ∧ resolves index
  else ∀ l, v = VArr l → is_Some (strings_of l).

(** The store value has the properties the operations read, each of
    its kind. *)
Definition typed (d : Db.t) : Prop :=
  (∀ k, k ∈ read_names → is_Some (d !! k)) ∧ map_Forall kind_ok d.

(** The call keeps the kinds: [toggleSelected] and [resetSelected] are
    given none of the properties the operations read, and [createIndex]
    an index that resolves its hits. *)
Definition in_kind (c : Call) : Prop :=
  match c with
  | CallToggleSelected dbKey _ | CallResetSelected dbKey => dbKey ∉ read_names
  | CallCreateIndex index => resolves (Some index)
  | _ => True
  end.

(** The globals after the next-page step is taken [k] times. *)
Fixpoint after_steps (k : nat) (w : Env) : option Env :=
  match k with
  | O => Some w
  | S k' => w' ← after (updatePagination 1) w; after_steps k' w'
  end.

(** ** The words of the claims *)

(** The record's [type] is an array. *)
Definition has_type_set (e : Doc) : Prop :=
  ∃ vs, prop e "type" = JArr vs.

(** The record's [type] array holds the vocabulary marker. *)
Definition marked (e : Doc) : Prop :=
  match prop e "type" with
  | JArr vs => JStr vocabulary ∈ vs
  | _ => False
  end.

#[global] Instance marked_dec (e : Doc) : Decision (marked e).
Proof. unfold marked. destruct (prop e "type"); apply _. Defined.

(** Reading [includes] off the record's [type] throws: the property
    is missing or null, or a number or a boolean. *)
Definition type_unreadable (e : Doc) : Prop :=
  match prop e "type" with
  | JArr _ | JStr _ => False
  | _ => True
  end.

#[global] Instance type_unreadable_dec (e : Doc) : Decision (type_unreadable e).
Proof. unfold type_unreadable. destruct (prop e "type"); apply _. Defined.

(** [s] stands somewhere inside [t]. *)
Definition inside (s t : string) : Prop := ∃ pre post, t = pre +:+ s +:+ post.

#[global] Instance inside_dec (s t : string) : Decision (inside s t).
Proof.
  assert (∀ t, String.prefix s t = true ↔ ∃ post, t = s +:+ post) as Hprefix.
  { induction s as [|a s IH]; intros u.
    - split; [intros _; by exists u | by destruct u].
    - destruct u as [|b u]; cbn [String.prefix].
      + split; [discriminate | by intros [? ?]].
      + destruct (ascii_dec a b) as [->|Hne].
        * rewrite IH. split; intros [post Hpost]; exists post.
          -- by rewrite Hpost.
          -- by injection Hpost.
        * split; [discriminate|]. intros [post Hpost]. injection Hpost as ? ?. done. }
  assert (str_includes s t = true ↔ inside s t) as Hsplit.
  { unfold inside. induction t as [|b t IH]; cbn [str_includes].
    - rewrite orb_false_r, Hprefix. split.
      + intros [post ->]. by exists EmptyString, post.
      + intros ([|c pre] & post & Heq); [by exists post | discriminate Heq].
    - rewrite orb_true_iff, Hprefix, IH. split.
      + intros [[post ->]|(pre & post & ->)].
        * by exists EmptyString, post.
        * by exists (String b pre), post.
      + intros ([|c pre] & post & Heq).
        * left. by exists post.
        * right. injection Heq as _ ->. by exists pre, post. }
  destruct (str_includes s t) eqn:Hs.
  - left. by apply Hsplit.
  - right. intros Hin. apply Hsplit in Hin. congruence.
Defined.

(** The record passes the test of [fillResults]: its [type] array holds
    the marker, or its [type] string has the marker somewhere inside. *)
Definition kept (e : Doc) : Prop :=
  match prop e "type" with
  | JArr vs => JStr vocabulary ∈ vs
  | JStr t => inside vocabulary t
  | _ => False
  end.

#[global] Instance kept_dec (e : Doc) : Decision (kept e).
Proof. unfold kept. destruct (prop e "type"); apply _. Defined.

(** A page index is out of range when it is negative or starts at or
    after the end of the results. *)
Definition out_of_range (page size : Z) (results : list Elem) : Prop :=
  page < 0 ∨ Z.of_nat (length results) ≤ page * size.

(** The shape the selection map keeps: the configured keys, in their
    order, each with a list free of duplicates. *)
Definition filters_inv (sel : Obj (list string)) : Prop :=
  map fst sel = config.filterKeys ∧ Forall (λ kv, NoDup kv.2) sel.

(** Deduplication as the specification words it: of the hits with one
    id, the first met is kept, where it stands. *)
Fixpoint keep_first (l : list Item.t) : list Item.t :=
  match l with
  | [] => []
  | x :: l' => x :: filter (λ y, Item.id y ≠ Item.id x) (keep_first l')
  end.

(** [a] stands in [l] before [b]: the two, in this order, are a
    subsequence of [l]. *)
Definition before {A} (a b : A) (l : list A) : Prop := [a; b] `sublist_of` l.

(** The value [v] is what the property value [u] gives to the
    catalogue: [u] itself, or an element of [u] when [u] is an array. *)
Definition given_by (u v : JSVal) : Prop :=
  match u with
  | JArr us => v ∈ us
  | _ => v = u
  end.

Definition is_array (v : JSVal) : bool :=
  match v with
  | JArr _ => true
  | _ => false
  end.

(** ** Comparators *)

Section comparators.
Context {A : Type} (comparefn : A → A → Z).
Implicit Types (l : list A) (x y c : A).

(** The comparator is a consistent comparison function for the values
    in [S], as the language standard defines it. *)
Record consistent_on (S : A → Prop) : Prop :=
  { cons_refl : ∀ x, S x → comparefn x x = 0;
    cons_sym : ∀ x y, S x → S y → comparefn x y = 0 → comparefn y x = 0;
    cons_trans_eq : ∀ x y z, S x → S y → S z →
      comparefn x y = 0 → comparefn y z = 0 → comparefn x z = 0;
    cons_trans_lt : ∀ x y z, S x → S y → S z →
      comparefn x y < 0 → comparefn y z < 0 → comparefn x z < 0;
    cons_trans_gt : ∀ x y z, S x → S y → S z →
      0 < comparefn x y → 0 < comparefn y z → 0 < comparefn x z }.

(** Consistent on the elements of a list. *)
Definition consistent l : Prop := consistent_on (λ x, x ∈ l).

(** [x] does not come after [y]. *)
Definition ordered (x y : A) : Prop := comparefn x y ≤ 0.

(** [y] compares equal to [c]. *)
Definition equal_to (c y : A) : Prop := comparefn c y = 0.

#[global] Instance equal_to_dec c y : Decision (equal_to c y).
Proof. unfold equal_to. apply _. Defined.

(** Neighbours in the run: each element against the one before it. *)
Definition step (descending : bool) (prev cur : A) : Prop :=
  if descending then comparefn cur prev < 0 else 0 ≤ comparefn cur prev.

End comparators.

(** ** Example data *)

(** A runtime for the examples: strings compare by their code units and
    numbers print in decimal. *)
Definition example_runtime : Runtime :=
  {| localeCompare := fun s t =>
       match String.compare s t with Lt => -1 | Eq => 0 | Gt => 1 end;
     numberToString := pretty |}.

Definition env_of (d : Db.t) : Env := {| db_value := d; localStorage := ∅ |}.

(** The globals at start. *)
Definition start : Env := {| db_value := db; localStorage := ∅ |}.

(** Eleven records, numbered from 1. *)
Definition eleven : list Doc :=
  map (fun n => {[ "id" := JNum n ]}) [1; 2; 3; 4; 5; 6; 7; 8; 9; 10; 11].

(** The state after a result list of eleven records arrives and the
    previous-page step is taken twice. *)
Definition two_pages_back : Db.t :=
  Db.with_activePage (-2) (Db.with_results eleven db).

Definition bildung : Doc :=
  <["id" := JStr "1"]> (<["title" := JStr "Bildung"]>
    (<["type" := JArr [JStr vocabulary]]> ∅)).

Definition schule : Doc :=
  <["id" := JStr "2"]> (<["title" := JStr "Schule"]>
    (<["type" := JArr [JStr vocabulary]]> ∅)).

Definition person : Doc :=
  <["id" := JStr "3"]> (<["title" := JStr "Person"]>
    (<["type" := JArr [JStr "http://xmlns.com/foaf/0.1/Person"]]> ∅)).

(** A stand-in for the library's lookup: the term [bild] hits the first
    record in its title unless a tag is asked for. *)
Definition toy_hits (term : string) (o : SearchOptions) : list (string * list string) :=
  if bool_decide (term = "bild") && bool_decide (opt_tag o = []) then
    [ ("title", ["1"]) ]
  else [].

Definition toy_index : Document.t :=
  {| Document.added := [("1", bildung); ("2", schule); ("3", person)];
     Document.hits := toy_hits |}.

(** The store once the index is in place. *)
Definition indexed : Db.t := Db.with_index toy_index db.

(** The state [search] reads when a single tag is selected under
    [about] and the term is empty. *)
Definition about_x : Db.t :=
  Db.with_selectedFilters (obj_set initFilters "about" ["X"]) indexed.

(** The same two records, the second put into the store first. *)
Definition second_first : Document.t :=
  {| Document.added := [("2", schule); ("1", bildung)];
     Document.hits := toy_hits |}.

(** An index that finds the first record under two fields. *)
Definition twice_found : Document.t :=
  {| Document.added := [("1", bildung); ("2", schule)];
     Document.hits := fun _ _ => [ ("id", ["1"]); ("title", ["2"; "1"]) ] |}.

(** A record with a name and, when given, a year under [issued]. *)
Definition dated (name : string) (year : option Z) : Doc :=
  match year with
  | Some n => <["name" := JStr name]> (<["issued" := JNum n]> ∅)
  | None => <["name" := JStr name]> ∅
  end.

Definition name_of (e : Doc) : JSVal := prop e "name".

Definition names (l : list Doc) : list JSVal := name_of <$> l.

(** Six records; the fourth has no year. *)
Definition shelf : list Doc :=
  [ dated "a" (Some 2005); dated "b" (Some 2006); dated "c" (Some 2007);
    dated "d" None; dated "e" (Some 2003); dated "f" (Some 2002) ].

(** The same with a second record of 2003 at the end. *)
Definition shelf' : list Doc := (shelf ++ [dated "g" (Some 2003)])%list.

(** The results after [sort('issued')] on a result list. *)
Definition by_year (l : list Doc) : option (list Doc) :=
  results_after (@sort example_runtime "issued" None) (env_of (Db.with_results l db)).

(** Four records with years, two of them of 2003. *)
Definition years : list Doc :=
  [ dated "a" (Some 2005); dated "e" (Some 2003); dated "g" (Some 2003);
    dated "f" (Some 2002) ].

(** A record typed by one string, a longer URI that starts with the
    marker. *)
Definition lookalike : Doc :=
  <["id" := JStr "4"]> (<["type" := JStr (vocabulary +:+ "1")]> ∅).

(** The store with the index over four records, one typed by a
    string. *)
Definition with_lookalike : Db.t :=
  Db.with_index {| Document.added := [("1", bildung); ("4", lookalike); ("3", person)];
                   Document.hits := toy_hits |} db.

(** The store with an index that holds a record without [type]. *)
Definition with_untyped : Db.t :=
  Db.with_index {| Document.added := [("1", bildung); ("x", dated "x" None)];
                   Document.hits := toy_hits |} db.

(** Two records with subjects, one shared, and a level given as a plain
    string. *)
Definition physics : Doc :=
  <["id" := JStr "p"]> (<["about" := JArr [JStr "n0"; JStr "n7"]]>
    (<["educationalLevel" := JStr "level2"]> ∅)).

Definition chemistry : Doc :=
  <["id" := JStr "c"]> (<["about" := JArr [JStr "n7"; JStr "n8"]]> ∅).

Definition sciences : Document.t :=
  {| Document.added := [("p", physics); ("c", chemistry)];
     Document.hits := toy_hits |}.

(** A visit: load the index, select, page on, sort, toggle a
    vocabulary twice and another once, reset the filters. *)
Definition visit : list Call :=
  [ CallCreateIndex toy_index; CallHandleFilterSelect "about" "X"; CallUpdatePagination 1;
    CallSort "title" (Some "DESC"); CallToggleSelected "selectedVocabs" "42";
    CallToggleSelected "selectedVocabs" "7"; CallToggleSelected "selectedVocabs" "42";
    CallResetFilters ].

(** ** Telling texts apart *)

(** Two texts part ways at a character both have. *)
Fixpoint part_ways (u u' : string) : bool :=
  match u, u' with
  | String a v, String a' v' => negb (Ascii.eqb a a') || part_ways v v'
  | _, _ => false
  end.

(** Every character. *)
Definition all_ascii : list ascii := map ascii_of_nat (seq 0 256).

(** The quotation mark, and a text between two of them. *)
Definition quotation_mark : ascii := "034"%char.

Definition quoted (s : string) : string :=
  String quotation_mark (s +:+ String quotation_mark EmptyString).

(** * Properties *)

(** ** Running the operations *)

Lemma strings_of_fmap (ids : list string) : strings_of (EStr <$> ids) = Some ids.
Proof.
  unfold strings_of. induction ids as [|x ids IH]; [done|].
  cbn. by rewrite IH.
Qed.

Lemma docs_of_fmap (rs : list Doc) : docs_of (EDoc <$> rs) = Some rs.
Proof.
  unfold docs_of. induction rs as [|x rs IH]; [done|].
  cbn. by rewrite IH.
Qed.

Lemma EDoc_fmap_inj (a b : list Doc) : EDoc <$> a = EDoc <$> b → a = b.
Proof.
  revert b. induction a as [|x a IH]; intros [|y b]; try discriminate; [done|].
  cbn. intros [= -> Hab]. f_equal. by apply IH.
Qed.

Lemma EStr_fmap_inj (a b : list string) : EStr <$> a = EStr <$> b → a = b.
Proof.
  revert b. induction a as [|x a IH]; intros [|y b]; try discriminate; [done|].
  cbn. intros [= -> Hab]. f_equal. by apply IH.
Qed.

Lemma mapM_total {A B} (f : A → option B) (g : A → B) (l : list A) :
  (∀ x, x ∈ l → f x = Some (g x)) → mapM f l = Some (map g l).
Proof.
  induction l as [|x l IH]; intros Hf; [done|].
  cbn. rewrite Hf by (by left). cbn. rewrite IH; [done|].
  intros y Hy. apply Hf. by right.
Qed.

Lemma updateResults_run (rs : list Doc) (w : Env) :
  updateResults rs w = Some (Normal tt, shown rs w).
Proof. reflexivity. Qed.

Lemma shown_results (rs : list Doc) (w : Env) :
  db_value (shown rs w) !! "results" = Some (VArr (EDoc <$> rs)).
Proof. cbn. unfold Db.with_activePage, Db.with_results. by simplify_map_eq. Qed.

Lemma shown_page (rs : list Doc) (w : Env) :
  db_value (shown rs w) !! "activePage" = Some (VNum 0).
Proof. cbn. unfold Db.with_activePage, Db.with_results. by simplify_map_eq. Qed.

Lemma shown_other (rs : list Doc) (w : Env) (k : string) :
  k ≠ "results" → k ≠ "activePage" →
  db_value (shown rs w) !! k = db_value w !! k.
Proof.
  intros. cbn. unfold Db.with_activePage, Db.with_results. by simplify_map_eq.
Qed.

Lemma updatePagination_run (direction page : Z) (w : Env) :
  db_value w !! "activePage" = Some (VNum page) →
  updatePagination direction w =
  Some (Normal tt,
        {| db_value := Db.with_activePage (page + direction) (db_value w);
           localStorage := localStorage w |}).
Proof. intros Hpage. unfold updatePagination, db_update. by rewrite Hpage. Qed.

(** ** Pagination *)

Lemma slice_nonneg {A} (l : list A) (s e : Z) :
  0 ≤ s → 0 ≤ e →
  slice l s e = take (Z.to_nat e - Z.to_nat s) (drop (Z.to_nat s) l).
Proof.
  intros Hs He. unfold slice.
  destruct (Z.ltb_spec s 0) as [?|_]; [lia|].
  destruct (Z.ltb_spec e 0) as [?|_]; [lia|].
  destruct (Z.le_gt_cases (Z.of_nat (length l)) s) as [Hout|Hin].
  - rewrite !drop_ge by lia. by rewrite !take_nil.
  - rewrite (Z.min_l s) by lia.
    destruct (Z.le_gt_cases e (Z.of_nat (length l))) as [He'|He'].
    + rewrite (Z.min_l e) by lia. f_equal. lia.
    + rewrite (Z.min_r e) by lia.
      rewrite !take_ge; [done| |]; rewrite length_drop; lia.
Qed.

Lemma slice_out_of_range {A} (l : list A) (s e : Z) :
  Z.of_nat (length l) ≤ s → 0 ≤ e → slice l s e = [].
Proof.
  intros Hs He. rewrite slice_nonneg by lia.
  rewrite drop_ge by lia. apply take_nil.
Qed.

Lemma slice_length_le {A} (l : list A) (s n : Z) :
  0 ≤ n → (length (slice l s (s + n)) ≤ Z.to_nat n)%nat.
Proof.
  intros Hn. unfold slice. rewrite length_take, length_drop.
  destruct (Z.ltb_spec s 0), (Z.ltb_spec (s + n) 0); lia.
Qed.

Lemma paginatedResults_run (d : Db.t) (page size : Z) (results : list Elem) :
  d !! "activePage" = Some (VNum page) →
  d !! "resultsPerPage" = Some (VNum size) →
  d !! "results" = Some (VArr results) →
  paginatedResults d = Some (slice results (page * size) (page * size + size)).
Proof. intros Hpage Hsize Hres. unfold paginatedResults. by rewrite Hpage, Hsize, Hres. Qed.

(** C5, as stated, fails: the state is reached by two steps back from
    page 0; page index -2 is out of range, the page size is 10, and the
    window holds the first record. *)
Lemma paginatedResults_negative_page :
  (updateResults eleven;; updatePagination (-1);; updatePagination (-1)) start
    = Some (Normal tt, env_of two_pages_back) ∧
  two_pages_back !! "resultsPerPage" = Some (VNum 10) ∧
  two_pages_back !! "activePage" = Some (VNum (-2)) ∧
  two_pages_back !! "results" = Some (VArr (EDoc <$> eleven)) ∧
  out_of_range (-2) 10 (EDoc <$> eleven) ∧
  paginatedResults two_pages_back = Some [ EDoc {[ "id" := JNum 1 ]} ].
Proof.
  split; [vm_compute; reflexivity|].
  split; [reflexivity|]. split; [reflexivity|]. split; [reflexivity|]. split.
  - left. reflexivity.
  - reflexivity.
Qed.

(** C5 (amended): where the page and the page size are numbers, the
    window is defined for every integer page index and every
    non-negative page size and never holds more than a page; for a page
    index from 0 up it is the records from [page * size] on, a page
    long, and it is empty once [page * size] reaches the length of the
    results. *)
Theorem paginatedResults_window (d : Db.t) (page size : Z) (results : list Elem) :
  d !! "activePage" = Some (VNum page) →
  d !! "resultsPerPage" = Some (VNum size) →
  d !! "results" = Some (VArr results) →
  0 ≤ size →
  ∃ window,
    paginatedResults d = Some window ∧
    (length window ≤ Z.to_nat size)%nat ∧
    (0 ≤ page →
     window = take (Z.to_nat size) (drop (Z.to_nat (page * size)) results) ∧
     (Z.of_nat (length results) ≤ page * size → window = [])).
Proof.
  intros Hpage Hsize Hres Hnonneg.
  exists (slice results (page * size) (page * size + size)).
  split; [by apply paginatedResults_run|]. split.
  - by apply slice_length_le.
  - intros Hfrom0. split.
    + rewrite slice_nonneg by nia. f_equal. nia.
    + intros Hout. apply slice_out_of_range; nia.
Qed.

Lemma paginatedResults_window_witness :
  paginatedResults (Db.with_activePage 1 (Db.with_results eleven db)) =
    Some [ EDoc {[ "id" := JNum 11 ]} ] ∧
  paginatedResults (Db.with_activePage 2 (Db.with_results eleven db)) = Some [].
Proof.
  destruct (paginatedResults_window (Db.with_activePage 1 (Db.with_results eleven db))
              1 10 (EDoc <$> eleven) eq_refl eq_refl eq_refl)
    as (w1 & H1 & _ & Heq); [lia|].
  destruct (paginatedResults_window (Db.with_activePage 2 (Db.with_results eleven db))
              2 10 (EDoc <$> eleven) eq_refl eq_refl eq_refl)
    as (w2 & H2 & _ & Hempty); [lia|].
  split.
  - rewrite H1. destruct Heq as [-> _]; [lia|]. reflexivity.
  - rewrite H2. destruct Hempty as [_ Hnil]; [lia|].
    rewrite Hnil; [reflexivity|]. simpl. lia.
Defined.

(** ** Plain objects *)

Lemma obj_set_keys {V} (o : Obj V) (key : string) (v w : V) :
  obj_get o key = Some w → map fst (obj_set o key v) = map fst o.
Proof.
  induction o as [|[k u] o IH]; simpl; [done|].
  destruct (decide (k = key)); simpl; [done|].
  intros Hget. by rewrite IH.
Qed.

Lemma obj_get_set {V} (o : Obj V) (key : string) (v : V) :
  obj_get (obj_set o key v) key = Some v.
Proof.
  induction o as [|[k u] o IH]; simpl.
  - by destruct (decide (key = key)).
  - destruct (decide (k = key)) as [Heq|Hne]; simpl.
    + by rewrite decide_True.
    + by rewrite decide_False.
Qed.

Lemma obj_get_set_ne {V} (o : Obj V) (key key' : string) (v : V) :
  key' ≠ key → obj_get (obj_set o key v) key' = obj_get o key'.
Proof.
  intros Hne. induction o as [|[k u] o IH]; simpl.
  - by rewrite decide_False.
  - destruct (decide (k = key)) as [->|Hk]; simpl.
    + by rewrite !decide_False.
    + by rewrite IH.
Qed.

Lemma obj_get_elem {V} (o : Obj V) (key : string) (v : V) :
  obj_get o key = Some v → (key, v) ∈ o.
Proof.
  induction o as [|[k u] o IH]; simpl; [done|].
  destruct (decide (k = key)) as [->|Hk].
  - intros [= ->]. apply elem_of_cons. by left.
  - intros Hget. apply elem_of_cons. right. by apply IH.
Qed.

Lemma obj_set_Forall {V} (P : string * V → Prop) (o : Obj V) (key : string) (v : V) :
  Forall P o → P (key, v) → Forall P (obj_set o key v).
Proof.
  intros Ho Hv. induction Ho as [|[k u] o Hk Ho IH]; simpl.
  - by repeat constructor.
  - destruct (decide (k = key)) as [->|Hne]; constructor; auto.
Qed.

Lemma obj_get_None {V} (o : Obj V) (key : string) :
  obj_get o key = None ↔ key ∉ map fst o.
Proof.
  induction o as [|[k v] o IH]; simpl.
  - split; [intros _; apply not_elem_of_nil | done].
  - rewrite not_elem_of_cons. destruct (decide (k = key)) as [->|Hne].
    + split; [done | intros [? _]; done].
    + rewrite IH. split; [intros ?; split; [congruence | done] | tauto].
Qed.

Lemma obj_set_absent {V} (o : Obj V) (key : string) (v : V) :
  obj_get o key = None → obj_set o key v = (o ++ [(key, v)])%list.
Proof.
  induction o as [|[k u] o IH]; simpl; [done|].
  destruct (decide (k = key)); [done|]. intros Hget. by rewrite IH.
Qed.

Lemma obj_set_same {V} (o : Obj V) (key : string) (v : V) :
  obj_get o key = Some v → obj_set o key v = o.
Proof.
  induction o as [|[k u] o IH]; simpl; [done|].
  destruct (decide (k = key)) as [->|Hne].
  - by intros [= ->].
  - intros Hget. by rewrite IH.
Qed.

Lemma obj_get_unique {V} (o : Obj V) (key : string) (v : V) :
  NoDup (map fst o) → (key, v) ∈ o → obj_get o key = Some v.
Proof.
  induction o as [|[k u] o IH]; simpl.
  - intros _ Hin. by apply elem_of_nil in Hin.
  - rewrite NoDup_cons, elem_of_cons. intros [Hk Hnd] [Heq|Hin].
    + injection Heq as <- <-. by rewrite decide_True.
    + destruct (decide (k = key)) as [->|Hne]; [|by apply IH].
      destruct Hk. apply list_elem_of_In, in_map_iff.
      exists (key, v). split; [done|]. by apply list_elem_of_In.
Qed.

Lemma obj_set_twice {V} (o : Obj V) (key : string) (v v' : V) :
  obj_set (obj_set o key v) key v' = obj_set o key v'.
Proof.
  induction o as [|[k u] o IH]; simpl.
  - by rewrite decide_True.
  - destruct (decide (k = key)) as [->|Hne]; simpl.
    + by rewrite decide_True.
    + rewrite decide_False by done. by rewrite IH.
Qed.

Lemma fromEntries_fresh {V} (l acc : Obj V) :
  NoDup (map fst (acc ++ l)) →
  fold_left (fun o e => obj_set o e.1 e.2) l acc = (acc ++ l)%list.
Proof.
  revert acc. induction l as [|[k v] l IH]; intros acc Hnd; cbn [fold_left].
  - by rewrite app_nil_r.
  - rewrite obj_set_absent.
    + rewrite IH; [by rewrite <- app_assoc|]. by rewrite <- app_assoc.
    + apply obj_get_None. rewrite map_app, NoDup_app in Hnd.
      destruct Hnd as (_ & Hfresh & _). intros Hin. apply (Hfresh k Hin).
      cbn. by left.
Qed.

Lemma fromEntries_NoDup {V} (l : Obj V) :
  NoDup (map fst l) → fromEntries l = l.
Proof. intros Hnd. unfold fromEntries. by rewrite fromEntries_fresh. Qed.

Lemma insert_indexed_perm {V} (n : N) (v : V) (l : list (N * V)) :
  insert_indexed n v l ≡ₚ (n, v) :: l.
Proof.
  induction l as [|[m u] l IH]; cbn [insert_indexed]; [done|].
  destruct (n <? m)%N; [done|]. rewrite IH. apply Permutation_swap.
Qed.

Lemma insert_indexed_sorted {V} (n : N) (v : V) (l : list (N * V)) :
  StronglySorted (λ a b, (a.1 ≤ b.1)%N) l →
  StronglySorted (λ a b, (a.1 ≤ b.1)%N) (insert_indexed n v l).
Proof.
  induction 1 as [|[m u] l Hl IH Hm]; cbn [insert_indexed].
  - repeat constructor.
  - destruct (N.ltb_spec n m) as [Hlt|Hge].
    + constructor; [by constructor|]. constructor; [cbn; lia|].
      eapply Forall_impl; [exact Hm|]. cbn. intros [? ?]. cbn. lia.
    + constructor; [done|]. rewrite insert_indexed_perm.
      constructor; [cbn; lia | done].
Qed.

Lemma indexed_props_sorted {V} (o : Obj V) :
  StronglySorted (λ a b, (a.1 ≤ b.1)%N) (indexed_props o).
Proof.
  unfold indexed_props.
  induction (omap _ o) as [|[n v] l IH]; cbn [foldr]; [constructor|].
  by apply insert_indexed_sorted.
Qed.

Lemma values_perm {V} (o : Obj V) : values o ≡ₚ map snd o.
Proof.
  unfold values, indexed_props, named_props.
  transitivity (map snd (omap (fun kv : string * V =>
                                 match array_index kv.1 with
                                 | Some n => Some (n, kv.2)
                                 | None => None
                                 end) o)
                ++ map snd (List.filter (fun kv : string * V =>
                                           match array_index kv.1 with
                                           | Some _ => false
                                           | None => true
                                           end) o))%list.
  - apply Permutation_app_tail, Permutation_map.
    induction (omap _ o) as [|[n v] l IH]; cbn [foldr]; [done|].
    rewrite insert_indexed_perm. by constructor.
  - induction o as [|[k v] o IH]; [done|]. cbn.
    destruct (array_index k); cbn.
    + by constructor.
    + rewrite <- Permutation_middle. by constructor.
Qed.

Lemma values_named {V} (o : Obj V) :
  Forall (λ kv, array_index kv.1 = None) o → values o = map snd o.
Proof.
  intros Hnamed.
  assert (indexed_props o = [] ∧ named_props o = o) as [Hix Hnm].
  { unfold indexed_props, named_props.
    induction Hnamed as [|[k v] o Hk _ [IHix IHnm]]; [done|]. cbn in *.
    rewrite Hk. cbn. split; [|by f_equal].
    destruct (omap _ o) as [|p l]; [done|]. cbn in IHix.
    apply (f_equal length) in IHix.
    pose proof (Permutation_length
      (insert_indexed_perm p.1 p.2
         (foldr (fun e acc => insert_indexed e.1 e.2 acc) [] l))) as Hp.
    rewrite IHix in Hp. discriminate Hp. }
  unfold values. by rewrite Hix, Hnm.
Qed.

(** ** The query engine *)

Lemma existsb_is_str (s : string) (vs : list JSVal) :
  existsb (fun v => match v with
                    | JStr t => bool_decide (t = s)
                    | _ => false
                    end) vs = bool_decide (JStr s ∈ vs).
Proof.
  induction vs as [|v vs IH]; cbn [existsb].
  - symmetry. apply bool_decide_eq_false_2, not_elem_of_nil.
  - rewrite IH.
    destruct (decide (v = JStr s)) as [->|Hne].
    + rewrite (bool_decide_eq_true_2 (s = s)) by done.
      rewrite (bool_decide_eq_true_2 (JStr s ∈ JStr s :: vs)); [done|].
      apply elem_of_cons. by left.
    + transitivity (bool_decide (JStr s ∈ vs)).
      * destruct v as [| |b|n|t|us]; try reflexivity.
        rewrite (bool_decide_eq_false_2 (t = s)); [done|]. congruence.
      * apply bool_decide_ext. rewrite elem_of_cons.
        split; [by right | intros [?|?]; [congruence | done]].
Qed.

Lemma type_includes_set (e : Doc) :
  has_type_set e → type_includes e vocabulary = Normal (bool_decide (marked e)).
Proof.
  intros [vs Hvs]. unfold type_includes. rewrite Hvs, existsb_is_str.
  f_equal. apply bool_decide_ext. unfold marked. by rewrite Hvs.
Qed.

Lemma filter_c_marked (l : list Doc) :
  Forall has_type_set l →
  filter_c (fun e => type_includes e vocabulary) l = Normal (filter marked l).
Proof.
  induction 1 as [|e l He _ IH]; [reflexivity|].
  cbn [filter_c]. rewrite (type_includes_set e He), IH. cbn [cbind].
  rewrite filter_cons. destruct (decide (marked e)) as [Hm|Hm].
  - by rewrite (bool_decide_eq_true_2 _ Hm).
  - by rewrite (bool_decide_eq_false_2 _ Hm).
Qed.

Lemma filter_c_throws {A} (p : A → Completion bool) (l : list A) :
  filter_c p l = Throw TypeError ↔ Exists (λ x, p x = Throw TypeError) l.
Proof.
  induction l as [|x l IH]; cbn [filter_c].
  - split; [discriminate | by intros ?%Exists_nil].
  - rewrite Exists_cons. destruct (p x) as [keep|[]] eqn:Hx; cbn [cbind].
    + destruct (filter_c p l) as [rest|[]]; cbn [cbind].
      * split; [discriminate|]. intros [?|Hl]; [discriminate|].
        by apply IH in Hl.
      * split; [|done]. intros _. right. by apply IH.
    + split; [by left | done].
Qed.

Lemma type_includes_throws (e : Doc) (s : string) :
  type_includes e s = Throw TypeError ↔ type_unreadable e.
Proof.
  unfold type_includes, type_unreadable.
  destruct (prop e "type"); split; done.
Qed.

Lemma filter_c_normal {A} (p : A → Completion bool) (l : list A) (rs : list A) :
  filter_c p l = Normal rs →
  ∀ x, x ∈ rs ↔ x ∈ l ∧ p x = Normal true.
Proof.
  revert rs. induction l as [|y l IH]; intros rs; cbn [filter_c].
  - intros [= <-] x. split; [by intros ?%elem_of_nil | by intros [?%elem_of_nil _]].
  - destruct (p y) as [keep|] eqn:Hy; cbn [cbind]; [|discriminate].
    destruct (filter_c p l) as [rest|]; cbn [cbind]; [|discriminate].
    intros [= <-] x. specialize (IH rest eq_refl x).
    destruct keep; rewrite ?elem_of_cons, IH; split.
    + intros [->|[? ?]]; [split; [by left | done] | split; [by right | done]].
    + intros [[->|?] ?]; [by left | by right].
    + intros [? ?]; split; [by right | done].
    + intros [[->|?] Hx]; [congruence | done].
Qed.

Lemma prefix_split (s t : string) :
  String.prefix s t = true ↔ ∃ post, t = s +:+ post.
Proof.
  revert t. induction s as [|a s IH]; intros t.
  - split; [intros _; by exists t | by destruct t].
  - destruct t as [|b t]; cbn [String.prefix].
    + split; [discriminate | by intros [? ?]].
    + destruct (ascii_dec a b) as [->|Hne].
      * rewrite IH. split; intros [post Hpost]; exists post.
        -- by rewrite Hpost.
        -- by injection Hpost.
      * split; [discriminate|]. intros [post Hpost]. injection Hpost as ? ?. done.
Qed.

Lemma str_includes_split (s t : string) :
  str_includes s t = true ↔ ∃ pre post, t = pre +:+ s +:+ post.
Proof.
  induction t as [|b t IH]; cbn [str_includes].
  - rewrite orb_false_r, prefix_split. split.
    + intros [post ->]. by exists EmptyString, post.
    + intros ([|c pre] & post & Heq); [by exists post | discriminate Heq].
  - rewrite orb_true_iff, prefix_split, IH. split.
    + intros [[post ->]|(pre & post & ->)].
      * by exists EmptyString, post.
      * by exists (String b pre), post.
    + intros ([|c pre] & post & Heq).
      * left. by exists post.
      * right. injection Heq as _ ->. by exists pre, post.
Qed.

Lemma inside_includes (s t : string) : str_includes s t = true ↔ inside s t.
Proof. apply str_includes_split. Qed.

Lemma type_includes_kept (e : Doc) :
  type_includes e vocabulary = Normal true ↔ kept e.
Proof.
  unfold type_includes, kept. destruct (prop e "type") as [| |b|n|t|vs].
  1-4: split; [discriminate | done].
  - rewrite <- inside_includes. split; [by intros [= ->] | by intros ->].
  - rewrite existsb_is_str. split.
    + intros [= H]. by apply bool_decide_eq_true in H.
    + intros H. by rewrite (bool_decide_eq_true_2 _ H).
Qed.

Lemma type_includes_readable (e : Doc) :
  ¬ type_unreadable e → type_includes e vocabulary = Normal (bool_decide (kept e)).
Proof.
  intros Hread.
  destruct (type_includes e vocabulary) as [b|[]] eqn:Hb.
  - f_equal. destruct b.
    + symmetry. by apply bool_decide_eq_true_2, type_includes_kept.
    + symmetry. apply bool_decide_eq_false_2. intros Hk.
      apply type_includes_kept in Hk. congruence.
  - by apply type_includes_throws in Hb.
Qed.

Lemma filter_c_kept (l : list Doc) :
  Forall (λ e, ¬ type_unreadable e) l →
  filter_c (fun e => type_includes e vocabulary) l = Normal (filter kept l).
Proof.
  induction 1 as [|e l He _ IH]; [reflexivity|].
  cbn [filter_c]. rewrite (type_includes_readable e He), IH. cbn [cbind].
  rewrite filter_cons. destruct (decide (kept e)) as [Hm|Hm].
  - by rewrite (bool_decide_eq_true_2 _ Hm).
  - by rewrite (bool_decide_eq_false_2 _ Hm).
Qed.

Lemma kept_marked (e : Doc) : has_type_set e → (kept e ↔ marked e).
Proof. intros [vs Hvs]. unfold kept, marked. by rewrite Hvs. Qed.

Lemma filter_kept_marked (l : list Doc) :
  Forall has_type_set l → filter kept l = filter marked l.
Proof.
  induction 1 as [|e l He _ IH]; [done|].
  rewrite !filter_cons, IH.
  destruct (decide (kept e)) as [Hk|Hk], (decide (marked e)) as [Hm|Hm]; try done.
  - by apply kept_marked in Hk.
  - by apply kept_marked in Hm.
Qed.

Lemma fillResults_run (w : Env) :
  fillResults w =
  (λ index, finish (fill_outcome index) w) <$> index_read (db_value w !! "index").
Proof.
  unfold fillResults, fill_outcome, mbind, M_bind, bind, get_db, lift.
  destruct (db_value w !! "index") as [[n|s|b|l|st|fs|sl|[ix|]]|]; try reflexivity.
  cbn. by destruct (filter_c _ _).
Qed.

Lemma fillResults_spec (w : Env) (index : option Document.t) :
  db_value w !! "index" = Some (VIndex index) →
  fillResults w = Some (finish (fill_outcome index) w).
Proof. intros Hix. by rewrite fillResults_run, Hix. Qed.

Lemma fillResults_overwritten (w : Env) (l : list Elem) :
  db_value w !! "index" = Some (VArr l) →
  fillResults w = Some (Throw TypeError, w).
Proof. intros Hix. by rewrite fillResults_run, Hix. Qed.

Lemma search_fast (w : Env) (sel : Obj (list string)) :
  db_value w !! "query" = Some (VStr "") →
  db_value w !! "selectedFilters" = Some (VSelected sel) →
  tags sel = [] →
  search w = fillResults w.
Proof.
  intros Hq Hsel Htags. unfold search, mbind, M_bind, bind, get_db.
  rewrite Hq, Hsel. fold (tags sel). by rewrite Htags.
Qed.

Lemma search_run (w : Env) (q : string) (sel : Obj (list string)) :
  db_value w !! "query" = Some (VStr q) →
  db_value w !! "selectedFilters" = Some (VSelected sel) →
  search w =
  index ← index_read (db_value w !! "index");
  c ← search_outcome q sel index;
  Some (finish c w).
Proof.
  intros Hq Hsel. unfold search_outcome.
  destruct (decide (unfiltered q sel)) as [[-> Ht]|Hslow].
  - rewrite (search_fast w sel Hq Hsel Ht), fillResults_run.
    by destruct (index_read _).
  - unfold search, mbind, M_bind, bind, get_db. rewrite Hq, Hsel.
    fold (tags sel).
    destruct (bool_decide (q = "") && (Z.of_nat (length (tags sel)) =? 0)) eqn:Hfast.
    + exfalso. apply Hslow. apply andb_true_iff in Hfast as [Hq' Ht].
      apply bool_decide_eq_true in Hq'. apply Z.eqb_eq in Ht.
      split; [done|]. apply nil_length_inv. lia.
    + destruct (db_value w !! "index") as [[n|s|b|l|st|fs|sl|[ix|]]|]; try reflexivity.
      fold (options sel). cbn [index_read mbind option_bind].
      destruct (Document.search ix q (options sel)) as [groupedResults|]; [|reflexivity].
      cbn. by destruct (map Item.doc _) as [|r rs].
Qed.

Lemma search_spec (w : Env) (q : string) (sel : Obj (list string))
    (index : option Document.t) :
  db_value w !! "query" = Some (VStr q) →
  db_value w !! "selectedFilters" = Some (VSelected sel) →
  db_value w !! "index" = Some (VIndex index) →
  search w = (λ c, finish c w) <$> search_outcome q sel index.
Proof. intros Hq Hsel Hix. by rewrite (search_run w q sel Hq Hsel), Hix. Qed.

Lemma fill_outcome_readable (ix : Document.t) :
  Forall (λ e, ¬ type_unreadable e) (values (Document.store ix)) →
  fill_outcome (Some ix) = Normal (filter kept (values (Document.store ix))).
Proof. intros Hty. unfold fill_outcome. by apply filter_c_kept. Qed.

Lemma fill_outcome_unreadable (ix : Document.t) :
  (∃ e, e ∈ values (Document.store ix) ∧ type_unreadable e) ↔
  fill_outcome (Some ix) = Throw TypeError.
Proof.
  unfold fill_outcome. rewrite filter_c_throws, Exists_exists.
  split; intros (e & He & Hbad); exists e; (split; [done|]).
  - by apply (type_includes_throws e vocabulary).
  - by apply (type_includes_throws e vocabulary) in Hbad.
Qed.

Lemma has_type_set_readable (l : list Doc) :
  Forall has_type_set l → Forall (λ e, ¬ type_unreadable e) l.
Proof.
  intros Hl. eapply Forall_impl; [exact Hl|].
  intros e [vs Hvs]. unfold type_unreadable. rewrite Hvs. tauto.
Qed.

Lemma fill_outcome_indexed (ix : Document.t) :
  Forall has_type_set (values (Document.store ix)) →
  fill_outcome (Some ix) = Normal (filter marked (values (Document.store ix))).
Proof.
  intros Hty. rewrite fill_outcome_readable by by apply has_type_set_readable.
  by rewrite filter_kept_marked.
Qed.

Lemma toy_index_typed : Forall has_type_set (values (Document.store toy_index)).
Proof. repeat constructor; eexists; reflexivity. Qed.

(** C1, as stated, fails.  With the record of id 2 put into the store
    before the record of id 1, the unfiltered fetch stores the record of
    id 1 first: the ids are array indices, which the language
    enumerates in ascending order whatever the order of insertion.  And
    over a collection that holds a record without [type], the fetch
    stores nothing and throws. *)
Lemma search_unfiltered_not_in_insertion_order :
  map snd (Document.added second_first) = [schule; bildung] ∧
  search (env_of (Db.with_index second_first db)) =
    Some (Normal tt, shown [bildung; schule] (env_of (Db.with_index second_first db))) ∧
  results_after search (env_of (Db.with_index second_first db)) = Some [bildung; schule] ∧
  [bildung; schule] ≠ map snd (Document.added second_first) ∧
  search (env_of with_untyped) = Some (Throw TypeError, env_of with_untyped).
Proof.
  split; [reflexivity|]. split; [reflexivity|]. split; [reflexivity|].
  split; [|reflexivity].
  intros Heq. apply (f_equal (map (fun e : Doc => e !! "title"))) in Heq.
  vm_compute in Heq. discriminate.
Qed.

(** C1 (amended): with an empty term and nothing selected, [search] is
    [fillResults].  With the index in place, both throw when some stored
    record has no readable [type], and otherwise store exactly the
    records whose [type] holds the vocabulary marker (as an element of
    the array, or inside the string), and show page 0.  The records come
    in the order [Object.values] enumerates the store: every stored
    record once, those under ids that are array indices first, in
    ascending order of the index, then the others in the order they were
    put in; this is the order of insertion when no id is an array index
    and none is put twice. *)
Theorem search_unfiltered_is_fill (w : Env) (sel : Obj (list string)) :
  db_value w !! "query" = Some (VStr "") →
  db_value w !! "selectedFilters" = Some (VSelected sel) →
  flat (values sel) = [] →
  search w = fillResults w ∧
  ∀ ix, db_value w !! "index" = Some (VIndex (Some ix)) →
    ((∃ e, e ∈ values (Document.store ix) ∧ type_unreadable e) →
     search w = Some (Throw TypeError, w)) ∧
    (Forall (λ e, ¬ type_unreadable e) (values (Document.store ix)) →
     search w = Some (Normal tt, shown (filter kept (values (Document.store ix))) w)) ∧
    (∀ e vs, prop e "type" = JArr vs →
             (kept e ↔ JStr "http://www.wikidata.org/entity/Q1469824" ∈ vs)) ∧
    values (Document.store ix) =
      (map snd (indexed_props (Document.store ix))
       ++ map snd (named_props (Document.store ix)))%list ∧
    StronglySorted (λ a b, (a.1 ≤ b.1)%N) (indexed_props (Document.store ix)) ∧
    values (Document.store ix) ≡ₚ map snd (Document.store ix) ∧
    (NoDup (map fst (Document.added ix)) →
     Forall (λ kv, array_index kv.1 = None) (Document.added ix) →
     values (Document.store ix) = map snd (Document.added ix)).
Proof.
  intros Hq Hsel Ht.
  assert (search w = fillResults w) as Heq by by apply (search_fast w sel).
  split; [exact Heq|]. intros ix Hix.
  rewrite Heq, (fillResults_spec w (Some ix) Hix).
  split; [|split; [|split; [|split; [|split; [|split]]]]].
  - intros Hbad. apply fill_outcome_unreadable in Hbad. by rewrite Hbad.
  - intros Hty. by rewrite (fill_outcome_readable ix Hty).
  - intros e vs Hvs. unfold kept. by rewrite Hvs.
  - reflexivity.
  - apply indexed_props_sorted.
  - apply values_perm.
  - intros Hnd Hnamed. unfold Document.store.
    rewrite (fromEntries_NoDup _ Hnd). by apply values_named.
Qed.

Lemma search_unfiltered_is_fill_witness :
  search (env_of indexed) = fillResults (env_of indexed) ∧
  search (env_of indexed) = Some (Normal tt, shown [bildung; schule] (env_of indexed)).
Proof.
  destruct (search_unfiltered_is_fill (env_of indexed) initFilters) as [Heq Hres];
    [reflexivity | reflexivity | reflexivity |].
  split; [exact Heq|].
  destruct (Hres toy_index eq_refl) as (_ & Hdone & _).
  rewrite Hdone; [reflexivity|].
  apply has_type_set_readable, toy_index_typed.
Defined.

(** C3: when a facet value is selected and the merged, resolved result
    list is empty, [search] completes normally and stores the empty list
    (and page 0), whatever the document store holds. *)
Theorem search_no_match_is_empty (w : Env) (ix : Document.t) (q : string)
    (sel : Obj (list string)) (groupedResults : list Group.t) :
  db_value w !! "index" = Some (VIndex (Some ix)) →
  db_value w !! "query" = Some (VStr q) →
  db_value w !! "selectedFilters" = Some (VSelected sel) →
  tags sel ≠ [] →
  Document.search ix q (options sel) = Some groupedResults →
  map Item.doc (resultSet groupedResults) = [] →
  search w = Some (Normal tt, shown [] w) ∧
  db_value (shown [] w) !! "results" = Some (VArr []) ∧
  db_value (shown [] w) !! "activePage" = Some (VNum 0).
Proof.
  intros Hix Hq Hsel Htags Hfound Hnone.
  split; [|split; [apply (shown_results [] w) | apply shown_page]].
  rewrite (search_spec w q sel (Some ix) Hq Hsel Hix). unfold search_outcome.
  destruct (decide (unfiltered q sel)) as [[_ Ht]|_]; [done|].
  rewrite Hfound. cbn. by rewrite Hnone.
Qed.

Lemma search_no_match_is_empty_witness :
  search (env_of about_x) = Some (Normal tt, shown [] (env_of about_x)) ∧
  results_after fillResults (env_of about_x) = Some [bildung; schule].
Proof.
  split; [|reflexivity].
  apply (search_no_match_is_empty (env_of about_x) toy_index "" (obj_set initFilters "about" ["X"]) []);
    [reflexivity | reflexivity | reflexivity | discriminate | reflexivity | reflexivity].
Defined.

Lemma values_by_key (sel : Obj (list string)) :
  map fst sel = config.filterKeys →
  flat (values sel) =
  flat (map (fun k => default [] (obj_get sel k)) config.filterKeys).
Proof.
  destruct sel as [|[k1 v1] [|[k2 v2] [|[k3 v3] [|]]]]; try discriminate.
  intros [= -> -> ->]. reflexivity.
Qed.

Lemma reselect_shown (sel : Obj (list string)) (rs : list Doc) (w : Env) :
  reselect sel (shown rs w) = shown rs (reselect sel w).
Proof.
  unfold reselect, shown. cbn. f_equal.
  unfold Db.with_selectedFilters, Db.with_activePage, Db.with_results.
  rewrite (insert_insert_ne _ "selectedFilters" "activePage") by done.
  by rewrite (insert_insert_ne _ "selectedFilters" "results") by done.
Qed.

Lemma reselect_finish (sel : Obj (list string)) (c : Completion (list Doc)) (w : Env) :
  finish c (reselect sel w) = ((finish c w).1, reselect sel (finish c w).2).
Proof. destruct c; cbn; [by rewrite reselect_shown | done]. Qed.

Lemma search_outcome_tags (q : string) (sel sel' : Obj (list string))
    (index : option Document.t) :
  tags sel' = tags sel → search_outcome q sel' index = search_outcome q sel index.
Proof.
  intros Htags.
  assert (unfiltered q sel' ↔ unfiltered q sel) as Hfast.
  { unfold unfiltered. by rewrite Htags. }
  unfold search_outcome, options. rewrite Htags.
  destruct (decide (unfiltered q sel')), (decide (unfiltered q sel)); tauto || reflexivity.
Qed.

(** The same search under another selection map that gives the same
    tag list: the same completion, and the same globals but for the
    map. *)
Lemma search_reselect (w : Env) (q : string) (sel sel' : Obj (list string)) :
  db_value w !! "query" = Some (VStr q) →
  db_value w !! "selectedFilters" = Some (VSelected sel) →
  tags sel' = tags sel →
  search (reselect sel' w) = (λ r, (r.1, reselect sel' r.2)) <$> search w.
Proof.
  intros Hq Hsel Htags.
  assert (db_value (reselect sel' w) !! "query" = Some (VStr q)) as Hq'.
  { cbn. unfold Db.with_selectedFilters. by simplify_map_eq. }
  assert (db_value (reselect sel' w) !! "selectedFilters" = Some (VSelected sel')) as Hsel'.
  { cbn. unfold Db.with_selectedFilters. by simplify_map_eq. }
  assert (db_value (reselect sel' w) !! "index" = db_value w !! "index") as Hix'.
  { cbn. unfold Db.with_selectedFilters. by simplify_map_eq. }
  rewrite (search_run _ q sel' Hq' Hsel'), (search_run w q sel Hq Hsel), Hix'.
  destruct (index_read (db_value w !! "index")) as [index|]; [|done]. cbn.
  rewrite (search_outcome_tags q sel sel' index Htags).
  destruct (search_outcome q sel index) as [c|]; [|done]. cbn.
  by rewrite reselect_finish.
Qed.

(** C4: the index is queried with one tag list, the concatenation of the
    selected value lists in the order of the selection map's keys, which
    are the configured facet keys; a selection map with the same
    concatenation gives the same completion and the same results, so the
    key a value sits under does not reach the constraint. *)
Theorem search_tag_constraint (w : Env) (q : string) (sel : Obj (list string)) :
  db_value w !! "query" = Some (VStr q) →
  db_value w !! "selectedFilters" = Some (VSelected sel) →
  (∀ ix groupedResults,
     db_value w !! "index" = Some (VIndex (Some ix)) →
     ¬ unfiltered q sel →
     Document.search ix q
       {| opt_index := searchFields;
          opt_enrich := true;
          opt_tag := flat (values sel) |} = Some groupedResults →
     search w =
       Some (Normal tt, shown (map Item.doc (resultSet groupedResults)) w)) ∧
  (map fst sel = config.filterKeys →
   flat (values sel) =
   concat (map (fun k => default [] (obj_get sel k)) config.filterKeys)) ∧
  (∀ sel', flat (values sel') = flat (values sel) →
           search (reselect sel' w) = (λ r, (r.1, reselect sel' r.2)) <$> search w).
Proof.
  intros Hq Hsel. split; [|split].
  - intros ix groupedResults Hix Hslow Hfound.
    rewrite (search_spec w q sel (Some ix) Hq Hsel Hix). unfold search_outcome.
    destruct (decide (unfiltered q sel)); [done|].
    unfold options, tags. by rewrite Hfound.
  - apply values_by_key.
  - intros sel' Htags. by apply (search_reselect w q sel sel').
Qed.

Lemma search_tag_constraint_witness :
  search (reselect (obj_set initFilters "P126" ["X"]) (env_of about_x)) =
    Some (Normal tt, shown [] (reselect (obj_set initFilters "P126" ["X"]) (env_of about_x))) ∧
  search (env_of about_x) = Some (Normal tt, shown [] (env_of about_x)).
Proof.
  destruct (search_tag_constraint (env_of about_x) "" (obj_set initFilters "about" ["X"])
              eq_refl eq_refl) as (_ & _ & Hsame).
  rewrite (Hsame (obj_set initFilters "P126" ["X"]) eq_refl).
  split; reflexivity.
Defined.

(** ** The selected filters *)

Lemma indexOf_ge (val : string) (l : list string) : -1 ≤ indexOf val l.
Proof.
  induction l as [|x l IH]; cbn [indexOf]; [lia|].
  destruct (decide (x = val)); [lia|].
  destruct (Z.ltb_spec (indexOf val l) 0); lia.
Qed.

Lemma indexOf_found (val : string) (l : list string) :
  (-1 <? indexOf val l) = bool_decide (val ∈ l).
Proof.
  induction l as [|x l IH]; cbn [indexOf].
  - rewrite bool_decide_eq_false_2 by apply not_elem_of_nil. reflexivity.
  - destruct (decide (x = val)) as [->|Hne].
    + rewrite bool_decide_eq_true_2 by (apply elem_of_cons; by left).
      reflexivity.
    + pose proof (indexOf_ge val l) as Hge.
      destruct (Z.ltb_spec (indexOf val l) 0) as [Hneg|Hpos].
      * assert (indexOf val l = -1) as Hm by lia. rewrite Hm in IH.
        symmetry in IH. apply bool_decide_eq_false in IH.
        rewrite bool_decide_eq_false_2; [reflexivity|].
        rewrite elem_of_cons. intros [?|?]; [congruence | done].
      * assert ((-1 <? indexOf val l) = true) as Ht by (apply Z.ltb_lt; lia).
        rewrite Ht in IH. symmetry in IH. apply bool_decide_eq_true in IH.
        rewrite bool_decide_eq_true_2 by (apply elem_of_cons; by right).
        apply Z.ltb_lt. lia.
Qed.

Lemma without_not_elem (val : string) (l : list string) : val ∉ without val l.
Proof. unfold without. rewrite list_elem_of_filter. tauto. Qed.

Lemma without_NoDup (val : string) (l : list string) : NoDup l → NoDup (without val l).
Proof. apply NoDup_filter. Qed.

Lemma toggled_NoDup (val : string) (l : list string) : NoDup l → NoDup (toggled val l).
Proof.
  intros Hl. unfold toggled. destruct (decide (val ∈ l)) as [Hin|Hout].
  - by apply without_NoDup.
  - apply NoDup_app. split; [done|]. split; [|apply NoDup_singleton].
    intros x Hx ->%list_elem_of_singleton. done.
Qed.

Lemma filters_inv_set (sel : Obj (list string)) (key val : string) (current : list string) :
  filters_inv sel → obj_get sel key = Some current →
  filters_inv (obj_set sel key (toggled val current)).
Proof.
  intros [Hkeys Hnodup] Hget. split.
  - by rewrite (obj_set_keys _ _ _ _ Hget).
  - apply obj_set_Forall; [done|]. simpl.
    apply toggled_NoDup.
    apply obj_get_elem in Hget.
    rewrite Forall_forall in Hnodup. apply (Hnodup _ Hget).
Qed.

Lemma filters_inv_init : filters_inv initFilters.
Proof. split; [reflexivity|]. repeat constructor. Qed.

Lemma toggled_twice_elem (val : string) (l : list string) (x : string) :
  x ∈ toggled val (toggled val l) ↔ x ∈ l.
Proof.
  unfold toggled at 2. destruct (decide (val ∈ l)) as [Hin|Hout].
  - unfold toggled. rewrite decide_False by apply without_not_elem.
    unfold without. rewrite elem_of_app, list_elem_of_filter, list_elem_of_singleton.
    split.
    + intros [[_ ?] | ->]; done.
    + intros Hx. destruct (decide (x = val)); [by right | by left].
  - unfold toggled. rewrite decide_True by (apply elem_of_app; right; constructor).
    unfold without. rewrite list_elem_of_filter, elem_of_app, list_elem_of_singleton.
    split.
    + intros [Hne [?|?]]; done.
    + intros Hx. split; [congruence | by left].
Qed.

Lemma without_absent (val : string) (l : list string) :
  val ∉ l → without val (l ++ [val]) = l.
Proof.
  intros Hout. unfold without. rewrite filter_app.
  rewrite (filter_cons_False _ val) by (intros Hne; by apply Hne).
  rewrite filter_nil, app_nil_r.
  induction l as [|x l IH]; [done|].
  rewrite not_elem_of_cons in Hout. destruct Hout as [Hx Hl].
  rewrite filter_cons_True by congruence. by rewrite IH.
Qed.

Lemma toggled_back (val : string) (current : list string) :
  val ∉ current → toggled val (toggled val current) = current.
Proof.
  intros Hout. unfold toggled at 2. rewrite decide_False by done.
  unfold toggled. rewrite decide_True by (apply elem_of_app; right; constructor).
  by apply without_absent.
Qed.

Lemma finish_frame (c : Completion (list Doc)) (w : Env) (k : string) :
  k ≠ "results" → k ≠ "activePage" →
  db_value (finish c w).2 !! k = db_value w !! k.
Proof. intros. destruct c; cbn [finish snd]; [by apply shown_other | done]. Qed.

Lemma finish_storage (c : Completion (list Doc)) (w : Env) :
  localStorage (finish c w).2 = localStorage w.
Proof. by destruct c. Qed.

Lemma finish_page (c : Completion (list Doc)) (w : Env) :
  (finish c w).1 = Normal tt → db_value (finish c w).2 !! "activePage" = Some (VNum 0).
Proof. destruct c; [intros _; apply shown_page | discriminate]. Qed.

Lemma finish_throw (c : Completion (list Doc)) (w : Env) :
  (finish c w).1 = Throw TypeError → (finish c w).2 = w.
Proof. by destruct c. Qed.

Lemma fillResults_finish (w w' : Env) (c : Completion unit) :
  fillResults w = Some (c, w') → ∃ c0, c = (finish c0 w).1 ∧ w' = (finish c0 w).2.
Proof.
  rewrite fillResults_run. destruct (index_read _) as [index|]; [|discriminate].
  cbn. intros [= Hr]. exists (fill_outcome index). by rewrite Hr.
Qed.

Lemma search_typed (w : Env) (r : Completion unit * Env) :
  search w = Some r →
  ∃ q sel, db_value w !! "query" = Some (VStr q) ∧
           db_value w !! "selectedFilters" = Some (VSelected sel).
Proof.
  unfold search, mbind, M_bind, bind, get_db.
  destruct (db_value w !! "query") as [[]|]; try discriminate;
    destruct (db_value w !! "selectedFilters") as [[]|]; try discriminate.
  eauto.
Qed.

Lemma search_finish (w w' : Env) (c : Completion unit) :
  search w = Some (c, w') → ∃ c0, c = (finish c0 w).1 ∧ w' = (finish c0 w).2.
Proof.
  intros Hr. destruct (search_typed w _ Hr) as (q & sel & Hq & Hsel).
  rewrite (search_run w q sel Hq Hsel) in Hr.
  destruct (index_read _) as [index|]; [|discriminate]. cbn in Hr.
  destruct (search_outcome q sel index) as [c0|]; [|discriminate].
  cbn in Hr. injection Hr as Hr. exists c0. by rewrite Hr.
Qed.

Lemma handleFilterSelect_spec (key val : string) (w : Env) (sel : Obj (list string)) :
  db_value w !! "selectedFilters" = Some (VSelected sel) →
  handleFilterSelect key val w =
  match obj_get sel key with
  | None => Some (Throw TypeError, w)
  | Some current =>
      search (reselect (obj_set sel key (toggled val current)) w)
  end.
Proof.
  intros Hsel. unfold handleFilterSelect, mbind, M_bind, bind, db_update.
  rewrite Hsel. destruct (obj_get sel key) as [current|]; [|reflexivity].
  rewrite indexOf_found. unfold toggled, mret, M_ret, ret, reselect.
  destruct (decide (val ∈ current)) as [Hin|Hout].
  - by rewrite (bool_decide_eq_true_2 _ Hin).
  - by rewrite (bool_decide_eq_false_2 _ Hout).
Qed.

Lemma handleFilterSelect_typed (key val : string) (w : Env) (r : Completion unit * Env) :
  handleFilterSelect key val w = Some r →
  ∃ sel, db_value w !! "selectedFilters" = Some (VSelected sel).
Proof.
  unfold handleFilterSelect, mbind, M_bind, bind, db_update.
  destruct (db_value w !! "selectedFilters") as [[]|]; try discriminate. eauto.
Qed.

Lemma reselect_selectedFilters (sel : Obj (list string)) (w : Env) :
  db_value (reselect sel w) !! "selectedFilters" = Some (VSelected sel).
Proof. cbn. unfold Db.with_selectedFilters. by simplify_map_eq. Qed.

Lemma reselect_other (sel : Obj (list string)) (w : Env) (k : string) :
  k ≠ "selectedFilters" → db_value (reselect sel w) !! k = db_value w !! k.
Proof. intros. cbn. unfold Db.with_selectedFilters. by simplify_map_eq. Qed.

Lemma resetFilters_spec (w : Env) :
  resetFilters w = fillResults (cleared w).
Proof. reflexivity. Qed.

Lemma cleared_selectedFilters (w : Env) :
  db_value (cleared w) !! "selectedFilters" = Some (VSelected initFilters).
Proof.
  cbn. unfold Db.with_selectedFilters, Db.with_sort, Db.with_query. by simplify_map_eq.
Qed.

Lemma cleared_query (w : Env) :
  db_value (cleared w) !! "query" = Some (VStr "").
Proof.
  cbn. unfold Db.with_selectedFilters, Db.with_sort, Db.with_query. by simplify_map_eq.
Qed.

Lemma cleared_sort (w : Env) :
  db_value (cleared w) !! "sort" = Some (VSort {| sort_key := ""; sort_order := "asc" |}).
Proof.
  cbn. unfold Db.with_selectedFilters, Db.with_sort, Db.with_query. by simplify_map_eq.
Qed.

Lemma cleared_other (w : Env) (k : string) :
  k ≠ "query" → k ≠ "sort" → k ≠ "selectedFilters" →
  db_value (cleared w) !! k = db_value w !! k.
Proof.
  intros. cbn. unfold Db.with_selectedFilters, Db.with_sort, Db.with_query.
  by simplify_map_eq.
Qed.

(** C10: the selection map starts with the configured keys and empty
    lists; [handleFilterSelect] and [resetFilters] keep the keys and keep
    every list free of duplicates, whether or not the search that follows
    completes.  On a configured key, [handleFilterSelect key val] leaves
    the list without any [val] when it held one and with [val] added once
    at the end when it held none, and leaves the other keys alone. *)
Theorem selectedFilters_invariant :
  filters_inv initFilters ∧
  db !! "selectedFilters" = Some (VSelected initFilters) ∧
  ∀ (w : Env) (sel : Obj (list string)),
    db_value w !! "selectedFilters" = Some (VSelected sel) →
    filters_inv sel →
    (∀ index, db_value w !! "index" = Some (VIndex index) →
              ∃ c w', resetFilters w = Some (c, w')) ∧
    (∀ c w', resetFilters w = Some (c, w') →
             db_value w' !! "selectedFilters" = Some (VSelected initFilters)) ∧
    ∀ key val : string,
      handleFilterSelect key val w =
        match obj_get sel key with
        | None => Some (Throw TypeError, w)
        | Some current =>
            search (reselect (obj_set sel key (toggled val current)) w)
        end ∧
      ∀ c w',
        handleFilterSelect key val w = Some (c, w') →
        ∃ sel',
          db_value w' !! "selectedFilters" = Some (VSelected sel') ∧
          filters_inv sel' ∧
          ∀ current,
            obj_get sel key = Some current →
            obj_get sel' key =
              Some (if decide (val ∈ current)
                    then filter (λ e, e ≠ val) current
                    else (current ++ [val])%list) ∧
            (val ∉ filter (λ e, e ≠ val) current) ∧
            (∀ key', key' ≠ key → obj_get sel' key' = obj_get sel key').
Proof.
  split; [apply filters_inv_init|]. split; [reflexivity|].
  intros w sel Hsel Hinv. split; [|split].
  - intros index Hix. rewrite resetFilters_spec.
    assert (db_value (cleared w) !! "index" = Some (VIndex index)) as Hix'
      by by rewrite cleared_other.
    rewrite (fillResults_spec (cleared w) index Hix').
    destruct (finish _ _) as [c w']. eauto.
  - intros c w' Hrun. rewrite resetFilters_spec in Hrun.
    apply fillResults_finish in Hrun as (c0 & -> & ->).
    rewrite finish_frame by done. apply cleared_selectedFilters.
  - intros key val. split; [by apply handleFilterSelect_spec|].
    intros c w'. rewrite (handleFilterSelect_spec key val w sel Hsel).
    destruct (obj_get sel key) as [current|] eqn:Hget.
    + intros Hrun. apply search_finish in Hrun as (c0 & -> & ->).
      exists (obj_set sel key (toggled val current)).
      rewrite finish_frame by done. split; [apply reselect_selectedFilters|].
      split; [by apply filters_inv_set|].
      intros ? [= <-]. split; [|split].
      * apply obj_get_set.
      * apply without_not_elem.
      * intros key' Hne. by apply obj_get_set_ne.
    + intros [= <- <-]. exists sel. split; [done|]. split; [done|]. intros ? [=].
Qed.

Lemma selectedFilters_invariant_witness :
  handleFilterSelect "about" "X" (env_of indexed) =
    Some (Normal tt,
          shown [] (reselect [("about", ["X"]); ("educationalLevel", []); ("P126", [])]
                             (env_of indexed))) ∧
  ∃ sel',
    db_value (shown [] (reselect [("about", ["X"]); ("educationalLevel", []); ("P126", [])]
                                 (env_of indexed))) !! "selectedFilters"
      = Some (VSelected sel') ∧
    filters_inv sel' ∧
    obj_get sel' "about" = Some ["X"].
Proof.
  destruct selectedFilters_invariant as (_ & _ & Hstep).
  destruct (Hstep (env_of indexed) initFilters eq_refl filters_inv_init) as (_ & _ & Hsel).
  destruct (Hsel "about" "X") as [Hrun Hafter].
  assert (handleFilterSelect "about" "X" (env_of indexed) =
            Some (Normal tt,
                  shown [] (reselect [("about", ["X"]); ("educationalLevel", []); ("P126", [])]
                                     (env_of indexed)))) as Hone
    by (rewrite Hrun; reflexivity).
  split; [exact Hone|].
  destruct (Hafter _ _ Hone) as (sel' & Hsel' & Hinv & Hget).
  exists sel'. split; [exact Hsel'|]. split; [exact Hinv|].
  by destruct (Hget [] eq_refl) as (-> & _).
Defined.

(** ** The text [JSON.stringify] writes *)

Lemma append_cons (a : ascii) (s t : string) : String a s +:+ t = String a (s +:+ t).
Proof. reflexivity. Qed.

Lemma append_nil_l (s : string) : EmptyString +:+ s = s.
Proof. reflexivity. Qed.

Lemma append_nil_r (s : string) : s +:+ EmptyString = s.
Proof. induction s as [|a s IH]; [done|]. by rewrite append_cons, IH. Qed.

Lemma append_assoc (s t u : string) : (s +:+ t) +:+ u = s +:+ (t +:+ u).
Proof. induction s as [|a s IH]; [done|]. by rewrite !append_cons, IH. Qed.

Lemma append_inv_head (s a b : string) : s +:+ a = s +:+ b → a = b.
Proof.
  induction s as [|c s IH]; [done|]. rewrite !append_cons. intros [= H]. by apply IH.
Qed.

Ltac str_norm :=
  repeat (rewrite append_assoc || rewrite append_cons || rewrite append_nil_l).

Ltac str_norm_in H :=
  repeat (rewrite append_assoc in H || rewrite append_cons in H || rewrite append_nil_l in H).

Lemma part_ways_append (u u' r r' : string) :
  part_ways u u' = true → u +:+ r ≠ u' +:+ r'.
Proof.
  revert u'. induction u as [|a v IH]; intros [|a' v']; cbn; try discriminate.
  intros Hp [= Ha Hv]. apply orb_true_iff in Hp as [Hne|Hp].
  - subst a'. by rewrite Ascii.eqb_refl in Hne.
  - by apply (IH v').
Qed.

Lemma all_ascii_complete (c : ascii) : In c all_ascii.
Proof.
  unfold all_ascii. apply in_map_iff. exists (nat_of_ascii c).
  split; [apply ascii_nat_embedding|].
  apply in_seq. pose proof (nat_ascii_bounded c). lia.
Qed.

Lemma escape_part_ways (c c' : ascii) :
  c ≠ c' → part_ways (JSON.escape c) (JSON.escape c') = true.
Proof.
  assert (forallb (fun a => forallb (fun a' =>
            Ascii.eqb a a' || part_ways (JSON.escape a) (JSON.escape a')) all_ascii)
          all_ascii = true) as Hall by (vm_compute; reflexivity).
  intros Hne. rewrite forallb_forall in Hall.
  specialize (Hall c (all_ascii_complete c)). rewrite forallb_forall in Hall.
  specialize (Hall c' (all_ascii_complete c')).
  apply orb_true_iff in Hall as [Heq|Hp]; [|done].
  by apply Ascii.eqb_eq in Heq.
Qed.

Lemma escape_no_quotation_mark (c : ascii) :
  part_ways (JSON.escape c) (String quotation_mark EmptyString) = true.
Proof.
  assert (forallb (fun a =>
            part_ways (JSON.escape a) (String quotation_mark EmptyString)) all_ascii
          = true) as Hall by (vm_compute; reflexivity).
  rewrite forallb_forall in Hall. apply Hall, all_ascii_complete.
Qed.

Lemma escape_all_inj (s s' r r' : string) :
  JSON.escape_all s +:+ String quotation_mark r =
  JSON.escape_all s' +:+ String quotation_mark r' →
  s = s' ∧ r = r'.
Proof.
  revert s'. induction s as [|c s IH]; intros [|c' s']; cbn [JSON.escape_all].
  - rewrite !append_nil_l. by intros [= ->].
  - rewrite append_assoc, append_nil_l. intros Heq. exfalso. symmetry in Heq. revert Heq.
    change (String quotation_mark r) with (String quotation_mark EmptyString +:+ r).
    apply part_ways_append, escape_no_quotation_mark.
  - rewrite append_assoc, append_nil_l. intros Heq. exfalso. revert Heq.
    change (String quotation_mark r') with (String quotation_mark EmptyString +:+ r').
    apply part_ways_append, escape_no_quotation_mark.
  - rewrite !append_assoc. intros Heq.
    destruct (ascii_dec c c') as [->|Hne].
    + apply append_inv_head, IH in Heq as [-> ->]. done.
    + exfalso. revert Heq. by apply part_ways_append, escape_part_ways.
Qed.

Lemma quote_inj (s s' r r' : string) :
  JSON.quote s +:+ r = JSON.quote s' +:+ r' → s = s' ∧ r = r'.
Proof.
  unfold JSON.quote. str_norm. intros [= Heq].
  by apply escape_all_inj.
Qed.

Lemma join_cons (x : string) (l : list string) :
  join (x :: l) = x +:+ match l with [] => EmptyString | _ => "," +:+ join l end.
Proof. destruct l; cbn [join]; [by rewrite append_nil_r | done]. Qed.

Lemma join_quote_inj (l l' : list string) (r r' : string) :
  join (map JSON.quote l) +:+ String "]" r = join (map JSON.quote l') +:+ String "]" r' →
  l = l' ∧ r = r'.
Proof.
  revert l'. induction l as [|x l IH]; intros [|x' l'].
  - cbn [map join]. rewrite !append_nil_l. by intros [= ->].
  - cbn [map]. rewrite join_cons. unfold JSON.quote. str_norm. discriminate.
  - cbn [map]. rewrite join_cons. unfold JSON.quote. str_norm. discriminate.
  - cbn [map]. rewrite !join_cons, !append_assoc.
    intros Heq. apply quote_inj in Heq as [-> Heq].
    destruct l as [|y l], l' as [|y' l']; cbn [map] in Heq.
    + rewrite !append_nil_l in Heq. by injection Heq as ->.
    + str_norm_in Heq. discriminate Heq.
    + str_norm_in Heq. discriminate Heq.
    + str_norm_in Heq. injection Heq as Heq.
      apply (IH (y' :: l')) in Heq as [[= -> ->] ->]. done.
Qed.

Lemma stringify_updated_shape (dbKey : string) (ids : list string) :
  stringify_updated dbKey ids =
  "{" +:+ JSON.quote dbKey +:+ ":[" +:+ join (map JSON.quote ids) +:+ "]}".
Proof.
  unfold stringify_updated, JSON.strings. cbn [JSON.stringify map join fst snd].
  rewrite map_map. cbn [JSON.stringify]. by str_norm.
Qed.

(** The text written for a key tells the list it was written from. *)
Lemma stringify_updated_inj (dbKey : string) (ids ids' : list string) :
  stringify_updated dbKey ids = stringify_updated dbKey ids' → ids = ids'.
Proof.
  rewrite !stringify_updated_shape. str_norm. intros [= Heq].
  apply append_inv_head in Heq. injection Heq as Heq.
  by apply join_quote_inj in Heq as [-> _].
Qed.

(** ** The persisted selection *)

Lemma toggleSelected_spec (dbKey val : string) (w : Env) (current : list string) :
  db_value w !! dbKey = Some (VArr (EStr <$> current)) →
  toggleSelected dbKey val w = Some (Normal tt, persisted dbKey (toggled val current) w).
Proof.
  intros Hcur. unfold toggleSelected, db_update. rewrite Hcur, strings_of_fmap.
  unfold includes, toggled.
  destruct (decide (val ∈ current)) as [Hin|Hout].
  - by rewrite (bool_decide_eq_true_2 _ Hin).
  - by rewrite (bool_decide_eq_false_2 _ Hout).
Qed.

Lemma toggleSelected_no_includes (dbKey val : string) (w : Env) :
  no_includes (db_value w !! dbKey) →
  toggleSelected dbKey val w = Some (Throw TypeError, w).
Proof.
  unfold toggleSelected, db_update, no_includes.
  by destruct (db_value w !! dbKey) as [[]|].
Qed.

Lemma strings_of_Some (l : list Elem) (ids : list string) :
  strings_of l = Some ids → l = EStr <$> ids.
Proof.
  unfold strings_of. revert ids. induction l as [|[d|s] l IH]; intros ids; cbn.
  - by intros [= <-].
  - discriminate.
  - destruct (mapM _ l) as [ids'|]; [|discriminate]. cbn.
    intros [= <-]. cbn. f_equal. by apply IH.
Qed.

(** What a call of [toggleSelected] comes to, when the model follows
    it: it throws and leaves everything, or it completes with one array
    written and persisted. *)
Lemma toggleSelected_cases (dbKey val : string) (w w' : Env) (c : Completion unit) :
  toggleSelected dbKey val w = Some (c, w') →
  (c = Throw TypeError ∧ w' = w) ∨
  (c = Normal tt ∧
   ((∃ current, db_value w !! dbKey = Some (VArr (EStr <$> current)) ∧
                w' = persisted dbKey (toggled val current) w) ∨
    (∃ s, db_value w !! dbKey = Some (VStr s) ∧
          w' = persisted dbKey (chars s ++ [val]) w))).
Proof.
  destruct (db_value w !! dbKey) as [[n|s|b|l|st|fs|sl|index]|] eqn:Hcur.
  4: { destruct (strings_of l) as [current|] eqn:Hl.
       - apply strings_of_Some in Hl as ->.
         rewrite (toggleSelected_spec dbKey val w current Hcur).
         intros [= <- <-]. right. split; [done|]. left. eauto.
       - unfold toggleSelected, db_update. rewrite Hcur, Hl. discriminate. }
  2: { unfold toggleSelected, db_update. rewrite Hcur.
       destruct (str_includes val s).
       - intros [= <- <-]. by left.
       - intros [= <- <-]. right. split; [done|]. right. eauto. }
  all: rewrite toggleSelected_no_includes by (by rewrite Hcur);
    intros [= <- <-]; by left.
Qed.

Lemma resetSelected_spec (dbKey : string) (w : Env) :
  resetSelected dbKey w = Some (Normal tt, persisted dbKey [] w).
Proof. reflexivity. Qed.

Lemma persisted_selection (dbKey : string) (updated : list string) (w : Env) :
  db_value (persisted dbKey updated w) !! dbKey = Some (VArr (EStr <$> updated)).
Proof. apply lookup_insert_eq. Qed.

Lemma persisted_other (dbKey k : string) (updated : list string) (w : Env) :
  k ≠ dbKey → db_value (persisted dbKey updated w) !! k = db_value w !! k.
Proof. intros Hne. cbn. by rewrite lookup_insert_ne. Qed.

Lemma persisted_storage (dbKey : string) (updated : list string) (w : Env) :
  localStorage (persisted dbKey updated w) !! storageKey dbKey =
  Some (stringify_updated dbKey updated).
Proof. apply lookup_insert_eq. Qed.

Lemma storageKey_inj (a b : string) : storageKey a = storageKey b → a = b.
Proof. unfold storageKey. str_norm. by intros [= ->]. Qed.

Lemma persisted_storage_other (dbKey k : string) (updated : list string) (w : Env) :
  k ≠ dbKey →
  localStorage (persisted dbKey updated w) !! storageKey k = localStorage w !! storageKey k.
Proof.
  intros Hne. cbn. rewrite lookup_insert_ne; [done|].
  intros Heq. by apply storageKey_inj in Heq.
Qed.

(** C7, as stated, fails: at start the store has no array under
    [favorites], the key of the specification's scenario.  The toggle
    that should append [42] throws a [TypeError]; the store holds no
    [favorites] after it and nothing is persisted. *)
Lemma toggleSelected_favorites_throws :
  db_value start !! "favorites" = None ∧
  toggleSelected "favorites" "42" start = Some (Throw TypeError, start) ∧
  localStorage start !! "eduvocs:favorites" = None.
Proof. split; [reflexivity|]. split; reflexivity. Qed.

(** C7 (amended): on a key under which the store holds an array of
    strings, [toggleSelected] completes normally; it leaves the array
    without any [val] when it held one and with [val] added at the end
    otherwise; a second toggle of the same value brings the array back
    to the members it had (to the very array when [val] was not in it),
    and the storage entry of the key then holds the JSON text of the
    object with that array under the key, a text that no other list
    gives. *)
Theorem toggleSelected_twice (w : Env) (dbKey val : string) (current : list string) :
  db_value w !! dbKey = Some (VArr (EStr <$> current)) →
  ∃ w1 w2 back,
    toggleSelected dbKey val w = Some (Normal tt, w1) ∧
    db_value w1 !! dbKey =
      Some (VArr (EStr <$> (if decide (val ∈ current)
                            then filter (λ e, e ≠ val) current
                            else (current ++ [val])%list))) ∧
    toggleSelected dbKey val w1 = Some (Normal tt, w2) ∧
    db_value w2 !! dbKey = Some (VArr (EStr <$> back)) ∧
    (∀ x, x ∈ back ↔ x ∈ current) ∧
    (val ∉ current → back = current) ∧
    (∀ k, k ≠ dbKey → db_value w2 !! k = db_value w !! k) ∧
    localStorage w2 !! ("eduvocs:" +:+ dbKey) =
      Some ("{" +:+ JSON.quote dbKey +:+ ":[" +:+ join (map JSON.quote back) +:+ "]}") ∧
    (∀ ids, localStorage w2 !! ("eduvocs:" +:+ dbKey) = Some (stringify_updated dbKey ids) →
            ids = back).
Proof.
  intros Hcur.
  exists (persisted dbKey (toggled val current) w),
         (persisted dbKey (toggled val (toggled val current))
                    (persisted dbKey (toggled val current) w)),
         (toggled val (toggled val current)).
  split; [by apply toggleSelected_spec|].
  split; [apply persisted_selection|].
  split; [apply toggleSelected_spec, persisted_selection|].
  split; [apply persisted_selection|].
  split; [apply toggled_twice_elem|].
  split; [apply toggled_back|].
  split; [intros k Hk; by rewrite !persisted_other|].
  change ("eduvocs:" +:+ dbKey) with (storageKey dbKey).
  rewrite persisted_storage. split.
  - by rewrite stringify_updated_shape.
  - intros ids Heq. apply (inj Some) in Heq. symmetry.
    by apply (stringify_updated_inj dbKey).
Qed.

Lemma toggleSelected_twice_witness :
  ∃ w1 w2 back,
    toggleSelected "selectedVocabs" "42" start = Some (Normal tt, w1) ∧
    db_value w1 !! "selectedVocabs" = Some (VArr [EStr "42"]) ∧
    localStorage w1 !! "eduvocs:selectedVocabs" =
      Some ("{" +:+ quoted "selectedVocabs" +:+ ":[" +:+ quoted "42" +:+ "]}") ∧
    toggleSelected "selectedVocabs" "42" w1 = Some (Normal tt, w2) ∧
    db_value w2 !! "selectedVocabs" = Some (VArr (EStr <$> back)) ∧
    back = [] ∧
    localStorage w2 !! "eduvocs:selectedVocabs" =
      Some ("{" +:+ quoted "selectedVocabs" +:+ ":[]}").
Proof.
  destruct (toggleSelected_twice start "selectedVocabs" "42" [] eq_refl)
    as (w1 & w2 & back & Hone & Hw1 & Htwo & Hw2 & _ & Hsame & _ & Htext & _).
  assert (back = []) as Hback by (apply Hsame, not_elem_of_nil).
  exists w1, w2, back.
  split; [exact Hone|]. split; [exact Hw1|].
  split; [by injection Hone as <-|].
  split; [exact Htwo|]. split; [exact Hw2|]. split; [exact Hback|].
  refine (eq_trans Htext _). rewrite Hback. reflexivity.
Defined.

(** C8, as stated, fails: after the first toggle the entry is written
    under the namespaced key, but its value is the JSON text of an object
    with one property, not of an array. *)
Lemma toggleSelected_persists_object :
  toggleSelected "selectedVocabs" "42" start =
    Some (Normal tt, persisted "selectedVocabs" ["42"] start) ∧
  localStorage (persisted "selectedVocabs" ["42"] start) !! "eduvocs:selectedVocabs"
    = Some (JSON.stringify (JSON.Obj [("selectedVocabs", JSON.Arr [JSON.Str "42"])])) ∧
  localStorage (persisted "selectedVocabs" ["42"] start) !! "eduvocs:selectedVocabs"
    ≠ Some (JSON.stringify (JSON.Arr [JSON.Str "42"])) ∧
  JSON.stringify (JSON.Arr [JSON.Str "42"])
    = String "[" (String "034" (String "4" (String "2" (String "034" (String "]" EmptyString))))) ∧
  JSON.stringify (JSON.Obj [("selectedVocabs", JSON.Arr [JSON.Str "42"])])
    = String "{" (String "034" ("selectedVocabs" +:+
        String "034" (String ":" (JSON.stringify (JSON.Arr [JSON.Str "42"]) +:+ "}")))).
Proof.
  split; [reflexivity|]. split; [reflexivity|]. split; [|split; reflexivity].
  vm_compute. discriminate.
Qed.

(** C8 (amended): a toggle on a key under which the store holds an
    array of strings, and a reset of any key, write one storage entry,
    under [eduvocs:] followed by the key; every other entry is left as it
    was.  A toggle that throws writes nothing, and no toggle the model
    follows writes anything else.  The value written is the JSON text of
    an object with a single property, named by the key, whose value is
    the array of the whole updated list. *)
Theorem selection_persisted (w : Env) (dbKey val : string) :
  (∀ current, db_value w !! dbKey = Some (VArr (EStr <$> current)) →
     ∃ updated w',
       toggleSelected dbKey val w = Some (Normal tt, w') ∧
       db_value w' !! dbKey = Some (VArr (EStr <$> updated)) ∧
       localStorage w' =
         <[("eduvocs:" +:+ dbKey) := stringify_updated dbKey updated]> (localStorage w)) ∧
  (∃ w',
     resetSelected dbKey w = Some (Normal tt, w') ∧
     db_value w' !! dbKey = Some (VArr []) ∧
     localStorage w' =
       <[("eduvocs:" +:+ dbKey) := stringify_updated dbKey []]> (localStorage w)) ∧
  (∀ c w', toggleSelected dbKey val w = Some (c, w') →
     (c = Throw TypeError ∧ w' = w) ∨
     (c = Normal tt ∧
      ∃ updated,
        db_value w' !! dbKey = Some (VArr (EStr <$> updated)) ∧
        localStorage w' =
          <[("eduvocs:" +:+ dbKey) := stringify_updated dbKey updated]> (localStorage w))) ∧
  (∀ ids, stringify_updated dbKey ids =
          "{" +:+ (JSON.quote dbKey +:+ ":" +:+ JSON.stringify (JSON.Arr (map JSON.Str ids)))
              +:+ "}").
Proof.
  split; [|split; [|split]].
  - intros current Hcur. exists (toggled val current), (persisted dbKey (toggled val current) w).
    split; [by apply toggleSelected_spec|]. split; [apply persisted_selection | done].
  - exists (persisted dbKey [] w).
    split; [apply resetSelected_spec|]. split; [apply (persisted_selection dbKey []) | done].
  - intros c w' Hrun.
    destruct (toggleSelected_cases dbKey val w w' c Hrun)
      as [?|[-> [(current & _ & ->)|(s & _ & ->)]]]; [by left| |].
    + right. split; [done|]. exists (toggled val current).
      split; [apply persisted_selection | done].
    + right. split; [done|]. exists (chars s ++ [val])%list.
      split; [apply persisted_selection | done].
  - reflexivity.
Qed.

Lemma selection_persisted_witness :
  ∃ updated w',
    toggleSelected "selectedVocabs" "42" start = Some (Normal tt, w') ∧
    db_value w' !! "selectedVocabs" = Some (VArr (EStr <$> updated)) ∧
    localStorage w' =
      <[("eduvocs:" +:+ "selectedVocabs") := stringify_updated "selectedVocabs" updated]> ∅.
Proof.
  destruct (selection_persisted start "selectedVocabs" "42") as (Htoggle & _ & _).
  exact (Htoggle [] eq_refl).
Defined.

(** On a key under which the store has nothing with [includes] (no
    property, a number, a boolean or an object) [toggleSelected] throws
    a [TypeError] and writes nothing; [resetSelected] never throws and
    puts the empty array there, after which a toggle selects the value
    and persists the one-element array. *)
Theorem toggleSelected_needs_list (dbKey val : string) (w : Env) :
  no_includes (db_value w !! dbKey) →
  toggleSelected dbKey val w = Some (Throw TypeError, w) ∧
  resetSelected dbKey w = Some (Normal tt, persisted dbKey [] w) ∧
  db_value (persisted dbKey [] w) !! dbKey = Some (VArr []) ∧
  toggleSelected dbKey val (persisted dbKey [] w) =
    Some (Normal tt, persisted dbKey [val] (persisted dbKey [] w)) ∧
  db_value (persisted dbKey [val] (persisted dbKey [] w)) !! dbKey = Some (VArr [EStr val]) ∧
  localStorage (persisted dbKey [val] (persisted dbKey [] w)) !! ("eduvocs:" +:+ dbKey)
    = Some ("{" +:+ JSON.quote dbKey +:+ ":[" +:+ JSON.quote val +:+ "]}").
Proof.
  intros Hnone.
  split; [by apply toggleSelected_no_includes|].
  split; [apply resetSelected_spec|].
  split; [apply (persisted_selection dbKey [])|].
  split; [apply (toggleSelected_spec dbKey val _ []), (persisted_selection dbKey [])|].
  split; [apply (persisted_selection dbKey [val])|].
  change ("eduvocs:" +:+ dbKey) with (storageKey dbKey).
  by rewrite persisted_storage, stringify_updated_shape.
Qed.

Lemma toggleSelected_needs_list_witness :
  toggleSelected "favorites" "42" start = Some (Throw TypeError, start) ∧
  toggleSelected "resultsPerPage" "42" start = Some (Throw TypeError, start) ∧
  toggleSelected "favorites" "42" (persisted "favorites" [] start) =
    Some (Normal tt, persisted "favorites" ["42"] (persisted "favorites" [] start)) ∧
  localStorage (persisted "favorites" ["42"] (persisted "favorites" [] start))
    !! "eduvocs:favorites"
    = Some ("{" +:+ quoted "favorites" +:+ ":[" +:+ quoted "42" +:+ "]}").
Proof.
  destruct (toggleSelected_needs_list "favorites" "42" start I)
    as (Hthrow & _ & _ & Hthen & _ & Htext).
  destruct (toggleSelected_needs_list "resultsPerPage" "42" start I) as (Hnumber & _).
  split; [exact Hthrow|]. split; [exact Hnumber|]. split; [exact Hthen|].
  refine (eq_trans Htext _). reflexivity.
Defined.

(** The store is one object: [toggleSelected] and [resetSelected]
    reach every property of it.  A toggle on [filterKeys] takes a key
    off the list the store shows; a reset of [resultsPerPage] puts an
    array where the page size was, and the window of the page is no
    longer a slice the model computes. *)
Example toggleSelected_any_property :
  toggleSelected "filterKeys" "about" start =
    Some (Normal tt, persisted "filterKeys" ["educationalLevel"; "P126"] start) ∧
  db_value (persisted "filterKeys" ["educationalLevel"; "P126"] start) !! "filterKeys"
    = Some (VArr [EStr "educationalLevel"; EStr "P126"]) ∧
  resetSelected "resultsPerPage" start =
    Some (Normal tt, persisted "resultsPerPage" [] start) ∧
  db_value (persisted "resultsPerPage" [] start) !! "resultsPerPage" = Some (VArr []) ∧
  paginatedResults (db_value (persisted "resultsPerPage" [] start)) = None.
Proof. repeat split. Qed.

(** What the storage holds can fall behind the store: after a reset of
    [results] the next result list replaces the array, and the entry
    still holds the text of the empty one. *)
Example storage_falls_behind :
  (resetSelected "results";; updateResults eleven) start =
    Some (Normal tt, shown eleven (persisted "results" [] start)) ∧
  db_value (shown eleven (persisted "results" [] start)) !! "results"
    = Some (VArr (EDoc <$> eleven)) ∧
  localStorage (shown eleven (persisted "results" [] start)) !! "eduvocs:results"
    = Some (stringify_updated "results" []).
Proof. repeat split. Qed.

Lemma persisted_commute (k1 k2 : string) (u1 u2 : list string) (w : Env) :
  k1 ≠ k2 →
  persisted k2 u2 (persisted k1 u1 w) = persisted k1 u1 (persisted k2 u2 w).
Proof.
  intros Hne. unfold persisted. cbn. f_equal.
  - by apply insert_insert_ne.
  - apply insert_insert_ne. intros Heq. by apply storageKey_inj in Heq.
Qed.

(** What [toggleSelected] does, read off the value under the key. *)
Lemma toggleSelected_run (dbKey val : string) (w : Env) :
  toggleSelected dbKey val w =
  match db_value w !! dbKey with
  | Some (VArr l) =>
      match strings_of l with
      | Some current => Some (Normal tt, persisted dbKey (toggled val current) w)
      | None => None
      end
  | Some (VStr s) =>
      if str_includes val s then Some (Throw TypeError, w)
      else Some (Normal tt, persisted dbKey (chars s ++ [val]) w)
  | _ => Some (Throw TypeError, w)
  end.
Proof.
  unfold toggleSelected, db_update.
  destruct (db_value w !! dbKey) as [[n|s|b|l|st|fs|sl|index]|]; try reflexivity.
  - by destruct (str_includes val s).
  - destruct (strings_of l) as [current|]; [|reflexivity].
    unfold includes, toggled.
    destruct (decide (val ∈ current)) as [Hin|Hout].
    + by rewrite (bool_decide_eq_true_2 _ Hin).
    + by rewrite (bool_decide_eq_false_2 _ Hout).
Qed.

(** Toggles under two different keys can be made in either order: the
    store and the storage end up the same. *)
Theorem toggleSelected_commute (k1 k2 v1 v2 : string) (w : Env) :
  k1 ≠ k2 →
  (w1 ← after (toggleSelected k1 v1) w; after (toggleSelected k2 v2) w1) =
  (w2 ← after (toggleSelected k2 v2) w; after (toggleSelected k1 v1) w2).
Proof.
  intros Hne. unfold after.
  rewrite (toggleSelected_run k1 v1 w), (toggleSelected_run k2 v2 w).
  destruct (db_value w !! k1) as [[n1|s1|b1|l1|st1|fs1|sl1|index1]|] eqn:H1;
    destruct (db_value w !! k2) as [[n2|s2|b2|l2|st2|fs2|sl2|index2]|] eqn:H2;
    repeat match goal with
           | |- context [strings_of ?l] => destruct (strings_of l) eqn:?
           | |- context [str_includes ?a ?b] => destruct (str_includes a b) eqn:?
           end;
    cbn [fmap option_fmap option_map mbind option_bind snd];
    rewrite ?toggleSelected_run, ?persisted_other by done;
    rewrite ?H1, ?H2;
    repeat match goal with
           | H : strings_of ?l = _ |- context [strings_of ?l] => rewrite H
           | H : str_includes ?a ?b = _ |- context [str_includes ?a ?b] => rewrite H
           end;
    cbn [fmap option_fmap option_map mbind option_bind snd];
    try done; by rewrite persisted_commute.
Qed.

Lemma toggleSelected_commute_witness :
  (w1 ← after (toggleSelected "filterKeys" "about") start;
   after (toggleSelected "selectedVocabs" "42") w1) =
  (w2 ← after (toggleSelected "selectedVocabs" "42") start;
   after (toggleSelected "filterKeys" "about") w2).
Proof. by apply toggleSelected_commute. Defined.

(** ** Every result list starts at page 0 *)

Lemma docs_of_Some (l : list Elem) (rs : list Doc) :
  docs_of l = Some rs → l = EDoc <$> rs.
Proof.
  unfold docs_of. revert rs. induction l as [|[d|s] l IH]; intros rs; cbn.
  - by intros [= <-].
  - destruct (mapM _ l) as [rs'|]; [|discriminate]. cbn.
    intros [= <-]. cbn. f_equal. by apply IH.
  - discriminate.
Qed.

Lemma sort_spec `{Runtime} (key : string) (order : option string) (w : Env) (rs : list Doc) :
  db_value w !! "results" = Some (VArr (EDoc <$> rs)) →
  sort key order w =
  Some (Normal tt,
        shown (array_sort (compare key (toLowerCase (default "asc" order))) rs)
              {| db_value :=
                   Db.with_sort {| sort_key := key;
                                   sort_order := toLowerCase (default "asc" order) |}
                                (db_value w);
                 localStorage := localStorage w |}).
Proof.
  intros Hrs. unfold sort, mbind, M_bind, bind, get_db. by rewrite Hrs, docs_of_fmap.
Qed.

Lemma sort_typed `{Runtime} (key : string) (order : option string) (w : Env)
    (r : Completion unit * Env) :
  sort key order w = Some r → ∃ rs, db_value w !! "results" = Some (VArr (EDoc <$> rs)).
Proof.
  unfold sort, mbind, M_bind, bind, get_db.
  destruct (db_value w !! "results") as [[n|s|b|l|st|fs|sl|index]|]; try discriminate.
  destruct (docs_of l) as [rs|] eqn:Hl; [|discriminate].
  apply docs_of_Some in Hl as ->. eauto.
Qed.

Lemma fetches_finish (op : M unit) (w w' : Env) (c : Completion unit) :
  op ∈ fetches → op w = Some (c, w') →
  ∃ c0 w0, c = (finish c0 w0).1 ∧ w' = (finish c0 w0).2.
Proof.
  unfold fetches. rewrite !elem_of_cons, elem_of_nil.
  intros [->|[->|[->|[]]]] Hrun.
  - apply search_finish in Hrun as (c0 & -> & ->). eauto.
  - apply fillResults_finish in Hrun as (c0 & -> & ->). eauto.
  - rewrite resetFilters_spec in Hrun.
    apply fillResults_finish in Hrun as (c0 & -> & ->). eauto.
Qed.

(** C9: [updateResults rs] completes normally, stores [rs], sets the
    page to 0 and changes nothing else, in the store or in the storage.
    [sort] leaves page 0, and completes whenever the results are an
    array of records; [search], [fillResults] and [resetFilters] leave
    page 0 whenever they complete, and they do complete once the index is
    in place, resolves the hits it finds and every stored record has a
    [type] array. *)
Theorem updateResults_resets_page `{Runtime} (rs : list Doc) (w : Env) :
  (∃ w',
     updateResults rs w = Some (Normal tt, w') ∧
     db_value w' !! "results" = Some (VArr (EDoc <$> rs)) ∧
     db_value w' !! "activePage" = Some (VNum 0) ∧
     (∀ k, k ≠ "results" → k ≠ "activePage" → db_value w' !! k = db_value w !! k) ∧
     localStorage w' = localStorage w) ∧
  (∀ key order c w',
     sort key order w = Some (c, w') →
     c = Normal tt ∧ db_value w' !! "activePage" = Some (VNum 0)) ∧
  (∀ key order docs,
     db_value w !! "results" = Some (VArr (EDoc <$> docs)) →
     ∃ w', sort key order w = Some (Normal tt, w')) ∧
  (∀ op w', op ∈ fetches →
     op w = Some (Normal tt, w') → db_value w' !! "activePage" = Some (VNum 0)) ∧
  (∀ ix q sel,
     db_value w !! "index" = Some (VIndex (Some ix)) →
     db_value w !! "query" = Some (VStr q) →
     db_value w !! "selectedFilters" = Some (VSelected sel) →
     Forall has_type_set (values (Document.store ix)) →
     (¬ unfiltered q sel → is_Some (Document.search ix q (options sel))) →
     ∀ op, op ∈ fetches →
           ∃ w', op w = Some (Normal tt, w') ∧
                 db_value w' !! "activePage" = Some (VNum 0)).
Proof.
  split; [|split; [|split; [|split]]].
  - exists (shown rs w). split; [apply updateResults_run|].
    split; [apply shown_results|]. split; [apply shown_page|].
    split; [intros k ? ?; by apply shown_other | done].
  - intros key order c w' Hrun.
    destruct (sort_typed key order w _ Hrun) as [docs Hdocs].
    rewrite (sort_spec key order w docs Hdocs) in Hrun.
    injection Hrun as <- <-. split; [done | apply shown_page].
  - intros key order docs Hdocs. rewrite (sort_spec key order w docs Hdocs). eauto.
  - intros op w' Hop Hrun.
    destruct (fetches_finish op w w' _ Hop Hrun) as (c0 & w0 & Hc & ->).
    by apply finish_page.
  - intros ix q sel Hix Hq Hsel Hty Hfound op Hop.
    assert (fill_outcome (Some ix) = Normal (filter marked (values (Document.store ix))))
      as Hfill by by apply fill_outcome_indexed.
    unfold fetches in Hop. rewrite !elem_of_cons, elem_of_nil in Hop.
    destruct Hop as [->|[->|[->|[]]]].
    + rewrite (search_spec w q sel (Some ix) Hq Hsel Hix). unfold search_outcome.
      destruct (decide (unfiltered q sel)) as [|n].
      * rewrite Hfill. eexists. split; [reflexivity | apply shown_page].
      * destruct (Hfound n) as [groupedResults ->].
        eexists. split; [reflexivity | apply shown_page].
    + rewrite (fillResults_spec w (Some ix) Hix), Hfill.
      eexists. split; [reflexivity | apply shown_page].
    + rewrite resetFilters_spec.
      rewrite (fillResults_spec (cleared w) (Some ix)) by by rewrite cleared_other.
      rewrite Hfill. eexists. split; [reflexivity | apply shown_page].
Qed.

Lemma updateResults_resets_page_witness :
  (∃ w', @sort example_runtime "title" (Some "DESC")
           (env_of (Db.with_activePage 3 indexed)) = Some (Normal tt, w') ∧
         db_value w' !! "activePage" = Some (VNum 0)) ∧
  (∃ w', search (env_of (Db.with_activePage 3 indexed)) = Some (Normal tt, w') ∧
         db_value w' !! "activePage" = Some (VNum 0)) ∧
  (∃ w', resetFilters (env_of (Db.with_activePage 3 about_x)) = Some (Normal tt, w') ∧
         db_value w' !! "activePage" = Some (VNum 0)).
Proof.
  destruct (@updateResults_resets_page example_runtime []
              (env_of (Db.with_activePage 3 indexed)))
    as (_ & Hpage & Hsort & _ & Hfetch).
  destruct (@updateResults_resets_page example_runtime []
              (env_of (Db.with_activePage 3 about_x)))
    as (_ & _ & _ & _ & Hfetch').
  assert (search ∈ fetches) as Hs by (apply elem_of_cons; by left).
  assert (resetFilters ∈ fetches) as Hr by (do 2 (apply elem_of_cons; right); constructor).
  split; [|split].
  - destruct (Hsort "title" (Some "DESC") [] eq_refl) as [w' Hrun].
    exists w'. split; [exact Hrun|]. by apply (Hpage _ _ _ _ Hrun).
  - apply (Hfetch toy_index "" initFilters eq_refl eq_refl eq_refl toy_index_typed
             (λ _, mk_is_Some _ _ eq_refl) search Hs).
  - apply (Hfetch' toy_index "" (obj_set initFilters "about" ["X"])
             eq_refl eq_refl eq_refl toy_index_typed (λ _, mk_is_Some _ _ eq_refl)
             resetFilters Hr).
Defined.

(** ** Merging the grouped hits *)

Lemma JsMap_set_obj_set {V} (k : string) (v : V) (m : list (string * V)) :
  JsMap.set k v m = obj_set m k v.
Proof.
  induction m as [|[k' v'] m IH]; simpl; [done|].
  destruct (decide (k' = k)); [done|]. by rewrite IH.
Qed.

Lemma merged_snoc (items : list Item.t) (x : Item.t) :
  merged (items ++ [x]) = obj_set (merged items) (Item.id x) x.
Proof.
  unfold merged, JsMap.of_entries.
  rewrite map_app, fold_left_app. simpl. apply JsMap_set_obj_set.
Qed.

Lemma resultSet_merged (groupedResults : list Group.t) :
  resultSet groupedResults = map snd (merged (flat (map Group.result groupedResults))).
Proof. reflexivity. Qed.

Lemma map_id_filter (k : string) (l : list Item.t) :
  map Item.id (filter (λ y, Item.id y ≠ k) l) = filter (λ s, s ≠ k) (map Item.id l).
Proof.
  induction l as [|x l IH]; [done|]. simpl.
  rewrite !filter_cons. destruct (decide (Item.id x ≠ k)); simpl; by rewrite IH.
Qed.

Lemma keep_first_ids (l : list Item.t) (k : string) :
  k ∈ map Item.id (keep_first l) ↔ k ∈ map Item.id l.
Proof.
  induction l as [|x l IH]; [done|]. simpl.
  rewrite map_id_filter, !elem_of_cons, list_elem_of_filter, IH.
  destruct (decide (k = Item.id x)); tauto.
Qed.

Lemma keep_first_NoDup (l : list Item.t) : NoDup (map Item.id (keep_first l)).
Proof.
  induction l as [|x l IH]; simpl; [constructor|].
  rewrite map_id_filter. apply NoDup_cons. split.
  - rewrite list_elem_of_filter. tauto.
  - by apply NoDup_filter.
Qed.

Lemma keep_first_snoc (l : list Item.t) (x : Item.t) :
  keep_first (l ++ [x]) =
  if decide (Item.id x ∈ map Item.id l) then keep_first l else (keep_first l ++ [x])%list.
Proof.
  induction l as [|a l IH]; cbn [app keep_first].
  - destruct (decide (Item.id x ∈ map Item.id [])) as [Hin|_]; [|reflexivity].
    by apply elem_of_nil in Hin.
  - rewrite IH. cbn [map].
    destruct (decide (Item.id x ∈ map Item.id l)) as [Hin|Hout],
             (decide (Item.id x ∈ Item.id a :: map Item.id l)) as [Hin'|Hout'].
    + reflexivity.
    + destruct Hout'. apply elem_of_cons. by right.
    + rewrite filter_app, filter_cons, filter_nil.
      destruct (decide (Item.id x ≠ Item.id a)) as [Hne|Heq].
      * apply elem_of_cons in Hin' as [?|?]; done.
      * by rewrite app_nil_r.
    + rewrite filter_app, filter_cons, filter_nil.
      destruct (decide (Item.id x ≠ Item.id a)) as [Hne|Heq]; [done|].
      destruct Hout'. apply elem_of_cons. left.
      by destruct (decide (Item.id x = Item.id a)).
Qed.

(** What holds of the [Map] built from [items]: every entry is keyed by
    the id of its hit, the keys are the ids in the order of their first
    occurrence, and the hit under a key is the last one with that id. *)
Lemma merged_inv (items : list Item.t) :
  Forall (λ e, Item.id e.2 = e.1) (merged items) ∧
  map fst (merged items) = map Item.id (keep_first items) ∧
  ∀ k, obj_get (merged items) k = last (filter (λ y, Item.id y = k) items).
Proof.
  induction items as [|x items (Hkeyed & Hkeys & Hlast)] using rev_ind.
  - split; [constructor|]. split; [done|]. done.
  - rewrite merged_snoc. split; [|split].
    + by apply obj_set_Forall.
    + rewrite keep_first_snoc.
      destruct (decide (Item.id x ∈ map Item.id items)) as [Hin|Hout].
      * apply keep_first_ids in Hin. rewrite <- Hkeys in Hin.
        destruct (obj_get (merged items) (Item.id x)) as [v|] eqn:Hget.
        -- by rewrite (obj_set_keys _ _ _ _ Hget).
        -- by apply obj_get_None in Hget.
      * rewrite obj_set_absent.
        -- by rewrite !map_app, Hkeys.
        -- apply obj_get_None. rewrite Hkeys. by rewrite keep_first_ids.
    + intros k. rewrite filter_app, filter_cons, filter_nil.
      destruct (decide (Item.id x = k)) as [<-|Hne].
      * rewrite obj_get_set. by rewrite last_snoc.
      * rewrite obj_get_set_ne by done. by rewrite app_nil_r.
Qed.

Lemma merged_ids (items : list Item.t) :
  map Item.id (map snd (merged items)) = map fst (merged items).
Proof.
  destruct (merged_inv items) as (Hkeyed & _ & _).
  induction Hkeyed as [|[k v] m Hk _ IH]; [done|].
  simpl in *. by rewrite Hk, IH.
Qed.

Lemma merged_keeps_first (items : list Item.t) :
  (∀ x y, x ∈ items → y ∈ items → Item.id x = Item.id y → Item.doc x = Item.doc y) →
  map snd (merged items) = keep_first items.
Proof.
  induction items as [|x items IH] using rev_ind; [done|].
  intros Hsame. rewrite merged_snoc, keep_first_snoc.
  assert (map snd (merged items) = keep_first items) as Hrec.
  { apply IH. intros a b Ha Hb. apply Hsame; apply elem_of_app; by left. }
  destruct (merged_inv items) as (_ & Hkeys & Hlast).
  destruct (decide (Item.id x ∈ map Item.id items)) as [Hin|Hout].
  - apply keep_first_ids in Hin. rewrite <- Hkeys in Hin.
    destruct (obj_get (merged items) (Item.id x)) as [v|] eqn:Hget;
      [|by apply obj_get_None in Hget].
    assert (v = x) as ->.
    { rewrite Hlast in Hget. apply last_Some_elem_of in Hget.
      apply list_elem_of_filter in Hget as [Hid Hv].
      assert (Item.doc v = Item.doc x) as Hdoc.
      { apply Hsame; [apply elem_of_app; by left | | done].
        apply elem_of_app. right. constructor. }
      destruct v, x. simpl in *. by subst. }
    by rewrite (obj_set_same _ _ _ Hget).
  - rewrite obj_set_absent.
    + by rewrite map_app, Hrec.
    + apply obj_get_None. rewrite Hkeys. by rewrite keep_first_ids.
Qed.

Lemma enrich_stored (index : Document.t) (id : string) (it : Item.t) :
  Document.enrich index id = Some it →
  Item.id it = id ∧ obj_get (Document.store index) id = Some (Item.doc it).
Proof.
  unfold Document.enrich. destruct (obj_get _ id) as [doc|]; [|discriminate].
  by intros [= <-].
Qed.

Lemma search_enriched (index : Document.t) (term : string) (o : SearchOptions)
    (groupedResults : list Group.t) :
  Document.search index term o = Some groupedResults →
  ∀ it, it ∈ flat (map Group.result groupedResults) →
        obj_get (Document.store index) (Item.id it) = Some (Item.doc it).
Proof.
  unfold Document.search. destruct (opt_enrich o); [|discriminate].
  generalize (Document.hits index term o). intros hits. revert groupedResults.
  induction hits as [|[field ids] hits IH]; intros groupedResults; cbn.
  - intros [= <-] it Hit. by apply elem_of_nil in Hit.
  - destruct (mapM (Document.enrich index) ids) as [result|] eqn:Hres; [|discriminate].
    cbn. destruct (mapM _ hits) as [rest|]; [|discriminate]. cbn.
    intros [= <-] it. cbn. rewrite elem_of_app. intros [Hit|Hit].
    + apply mapM_Some in Hres.
      apply list_elem_of_lookup in Hit as [i Hi].
      destruct (Forall2_lookup_r _ _ _ _ _ Hres Hi) as (id & _ & Hen).
      apply enrich_stored in Hen as [<- ?]. done.
    + by apply (IH rest).
Qed.

(** C2: the hits [search] merges are those the index returns with
    [enrich], every one resolved against the store, so that hits with
    one id carry one record.  In the merged list every id of the
    flattened hits stands exactly once, at the place of its first
    occurrence, and the hit kept is equal to that first occurrence; the
    records [search] stores are those of the first occurrences, in their
    order. *)
Theorem resultSet_merge (w : Env) (index : Document.t) (q : string)
    (sel : Obj (list string)) (groupedResults : list Group.t) :
  db_value w !! "index" = Some (VIndex (Some index)) →
  db_value w !! "query" = Some (VStr q) →
  db_value w !! "selectedFilters" = Some (VSelected sel) →
  ¬ unfiltered q sel →
  Document.search index q (options sel) = Some groupedResults →
  resultSet groupedResults = keep_first (flat (map Group.result groupedResults)) ∧
  NoDup (map Item.id (resultSet groupedResults)) ∧
  (∀ k, k ∈ map Item.id (resultSet groupedResults) ↔
        k ∈ map Item.id (flat (map Group.result groupedResults))) ∧
  (∀ it, it ∈ flat (map Group.result groupedResults) →
         obj_get (Document.store index) (Item.id it) = Some (Item.doc it)) ∧
  search w =
    Some (Normal tt,
          shown (map Item.doc (keep_first (flat (map Group.result groupedResults)))) w).
Proof.
  intros Hix Hq Hsel Hslow Hfound.
  pose proof (search_enriched index q (options sel) groupedResults Hfound) as Hstored.
  assert (resultSet groupedResults = keep_first (flat (map Group.result groupedResults)))
    as Hfirst.
  { rewrite resultSet_merged. apply merged_keeps_first.
    intros x y Hx Hy Hid. apply Hstored in Hx, Hy. rewrite Hid in Hx. congruence. }
  split; [exact Hfirst|]. rewrite Hfirst.
  split; [apply keep_first_NoDup|]. split; [apply keep_first_ids|].
  split; [exact Hstored|].
  rewrite (search_spec w q sel (Some index) Hq Hsel Hix). unfold search_outcome.
  destruct (decide (unfiltered q sel)); [done|].
  rewrite Hfound. cbn. by rewrite Hfirst.
Qed.

Lemma resultSet_merge_witness :
  search (env_of (Db.with_query "x" (Db.with_index twice_found db))) =
    Some (Normal tt,
          shown [bildung; schule] (env_of (Db.with_query "x" (Db.with_index twice_found db)))) ∧
  map Item.id (flat (map Group.result
    [ {| Group.field := "id";
         Group.result := [ {| Item.id := "1"; Item.doc := bildung |} ] |};
      {| Group.field := "title";
         Group.result := [ {| Item.id := "2"; Item.doc := schule |};
                           {| Item.id := "1"; Item.doc := bildung |} ] |} ]))
    = ["1"; "2"; "1"].
Proof.
  split; [|reflexivity].
  destruct (resultSet_merge (env_of (Db.with_query "x" (Db.with_index twice_found db)))
              twice_found "x" initFilters
              [ {| Group.field := "id";
                   Group.result := [ {| Item.id := "1"; Item.doc := bildung |} ] |};
                {| Group.field := "title";
                   Group.result := [ {| Item.id := "2"; Item.doc := schule |};
                                     {| Item.id := "1"; Item.doc := bildung |} ] |} ])
    as (_ & _ & _ & _ & Hrun);
    [reflexivity | reflexivity | reflexivity | | reflexivity |].
  - intros [Hq _]. discriminate Hq.
  - rewrite Hrun. reflexivity.
Defined.

(** ** The engine's sort *)

Lemma sublist_filter_mono {A} (P : A → Prop) `{∀ x, Decision (P x)} (l1 l2 : list A) :
  l1 `sublist_of` l2 → filter P l1 `sublist_of` filter P l2.
Proof.
  induction 1 as [|x l1 l2 _ IH|x l1 l2 _ IH].
  - constructor.
  - rewrite !filter_cons. destruct (decide (P x)); [by constructor | done].
  - rewrite filter_cons. destruct (decide (P x)); [by constructor | done].
Qed.

Lemma before_filter {A} (P : A → Prop) `{∀ x, Decision (P x)} (a b : A) (l l' : list A) :
  P a → P b → filter P l' = filter P l → before a b l → before a b l'.
Proof.
  unfold before. intros Ha Hb Hsame Hl.
  apply (sublist_filter_mono P) in Hl.
  rewrite !filter_cons, decide_True, decide_True, filter_nil in Hl by done.
  rewrite <- Hsame in Hl.
  etransitivity; [exact Hl | apply sublist_filter].
Qed.

Lemma mid_bounds (left right fuel : nat) :
  (left < right)%nat → (right - left ≤ S fuel)%nat →
  (left ≤ left + (right - left) / 2)%nat ∧
  (left + (right - left) / 2 < right)%nat ∧
  (left + (right - left) / 2 - left ≤ fuel)%nat ∧
  (right - (left + (right - left) / 2 + 1) ≤ fuel)%nat.
Proof.
  intros. pose proof (Nat.div_mod_eq (right - left) 2).
  pose proof (Nat.mod_upper_bound (right - left) 2). lia.
Qed.

Section array_sort_facts.
Context {A : Type} (comparefn : A → A → Z).
Local Close Scope string_scope.
Implicit Types (a l run others : list A) (pivot x y c : A).

(** *** The result is a rearrangement, whatever the comparator *)

Lemma run_rest_app (descending : bool) (prev : A) l :
  (run_rest comparefn descending prev l).1 ++
  (run_rest comparefn descending prev l).2 = l.
Proof.
  revert prev. induction l as [|cur l IH]; intros prev; simpl; [done|].
  destruct (if descending then _ else _); [done|].
  specialize (IH cur). destruct (run_rest comparefn descending cur l). simpl in *.
  by rewrite IH.
Qed.

Lemma count_and_make_run_perm l :
  (count_and_make_run comparefn l).1 ++ (count_and_make_run comparefn l).2 ≡ₚ l.
Proof.
  destruct l as [|x0 [|x1 rest]]; simpl; [done | done |].
  pose proof (run_rest_app (comparefn x1 x0 <? 0) x1 rest) as Happ.
  destruct (run_rest comparefn _ x1 rest) as [run others]. simpl in *.
  destruct (comparefn x1 x0 <? 0); simpl.
  - rewrite reverse_Permutation. simpl. by rewrite Happ.
  - by rewrite Happ.
Qed.

Lemma binary_insert_perm a pivot : binary_insert comparefn a pivot ≡ₚ pivot :: a.
Proof.
  unfold binary_insert. by rewrite <- Permutation_middle, take_drop.
Qed.

Lemma fold_binary_insert_perm others run :
  fold_left (binary_insert comparefn) others run ≡ₚ run ++ others.
Proof.
  revert run. induction others as [|x others IH]; intros run; simpl.
  - by rewrite app_nil_r.
  - rewrite IH, binary_insert_perm. by rewrite <- Permutation_middle.
Qed.

Lemma array_sort_perm l : array_sort comparefn l ≡ₚ l.
Proof.
  unfold array_sort. pose proof (count_and_make_run_perm l) as Hrun.
  destruct (count_and_make_run comparefn l) as [run others]. simpl in *.
  by rewrite fold_binary_insert_perm.
Qed.

(** *** Consistent comparators *)

Section consistent.
Context (S : A → Prop) (HS : consistent_on comparefn S).

Lemma cons_lt_gt x y : S x → S y → comparefn x y < 0 → 0 < comparefn y x.
Proof.
  intros Hx Hy Hlt.
  destruct (Z.lt_trichotomy (comparefn y x) 0) as [Hyx|[Hyx|Hyx]]; [| |done].
  - pose proof (cons_trans_lt comparefn S HS x y x Hx Hy Hx Hlt Hyx).
    pose proof (cons_refl comparefn S HS x Hx). lia.
  - pose proof (cons_sym comparefn S HS y x Hy Hx Hyx). lia.
Qed.

Lemma cons_gt_lt x y : S x → S y → 0 < comparefn x y → comparefn y x < 0.
Proof.
  intros Hx Hy Hgt.
  destruct (Z.lt_trichotomy (comparefn y x) 0) as [Hyx|[Hyx|Hyx]]; [done| |].
  - pose proof (cons_sym comparefn S HS y x Hy Hx Hyx). lia.
  - pose proof (cons_trans_gt comparefn S HS x y x Hx Hy Hx Hgt Hyx).
    pose proof (cons_refl comparefn S HS x Hx). lia.
Qed.

Lemma cons_ge_le x y : S x → S y → 0 ≤ comparefn x y → comparefn y x ≤ 0.
Proof.
  intros Hx Hy Hge. destruct (Z.eq_dec (comparefn x y) 0) as [Heq|Hne].
  - rewrite (cons_sym comparefn S HS x y Hx Hy Heq). lia.
  - pose proof (cons_gt_lt x y Hx Hy). lia.
Qed.

Lemma cons_lt_eq_lt x y z :
  S x → S y → S z → comparefn x y < 0 → comparefn y z = 0 → comparefn x z < 0.
Proof.
  intros Hx Hy Hz Hlt Heq.
  destruct (Z.lt_trichotomy (comparefn x z) 0) as [Hxz|[Hxz|Hxz]]; [done| |].
  - pose proof (cons_sym comparefn S HS y z Hy Hz Heq) as Hzy.
    pose proof (cons_trans_eq comparefn S HS x z y Hx Hz Hy Hxz Hzy). lia.
  - pose proof (cons_gt_lt x z Hx Hz Hxz) as Hzx.
    pose proof (cons_trans_lt comparefn S HS z x y Hz Hx Hy Hzx Hlt) as Hzy.
    pose proof (cons_sym comparefn S HS y z Hy Hz Heq). lia.
Qed.

Lemma cons_eq_lt_lt x y z :
  S x → S y → S z → comparefn x y = 0 → comparefn y z < 0 → comparefn x z < 0.
Proof.
  intros Hx Hy Hz Heq Hlt.
  destruct (Z.lt_trichotomy (comparefn x z) 0) as [Hxz|[Hxz|Hxz]]; [done| |].
  - pose proof (cons_sym comparefn S HS x y Hx Hy Heq) as Hyx.
    pose proof (cons_trans_eq comparefn S HS y x z Hy Hx Hz Hyx Hxz). lia.
  - pose proof (cons_gt_lt x z Hx Hz Hxz) as Hzx.
    pose proof (cons_trans_lt comparefn S HS y z x Hy Hz Hx Hlt Hzx) as Hyx.
    pose proof (cons_sym comparefn S HS x y Hx Hy Heq). lia.
Qed.

Lemma cons_le_trans x y z :
  S x → S y → S z → comparefn x y ≤ 0 → comparefn y z ≤ 0 → comparefn x z ≤ 0.
Proof.
  intros Hx Hy Hz Hxy Hyz.
  destruct (Z.eq_dec (comparefn x y) 0) as [Hxy0|Hxy0],
           (Z.eq_dec (comparefn y z) 0) as [Hyz0|Hyz0].
  - rewrite (cons_trans_eq comparefn S HS x y z); done.
  - pose proof (cons_eq_lt_lt x y z Hx Hy Hz Hxy0). lia.
  - pose proof (cons_lt_eq_lt x y z Hx Hy Hz). lia.
  - pose proof (cons_trans_lt comparefn S HS x y z Hx Hy Hz). lia.
Qed.

Lemma cons_lt_le_lt x y z :
  S x → S y → S z → comparefn x y < 0 → comparefn y z ≤ 0 → comparefn x z < 0.
Proof.
  intros Hx Hy Hz Hxy Hyz.
  destruct (Z.eq_dec (comparefn y z) 0) as [Hyz0|Hyz0].
  - by apply (cons_lt_eq_lt x y z).
  - apply (cons_trans_lt comparefn S HS x y z); [done..|lia].
Qed.

(** *** Binary insertion under a consistent comparator *)

Lemma filter_none (P : A → Prop) `{∀ x, Decision (P x)} l :
  (∀ y, y ∈ l → ¬ P y) → filter P l = [].
Proof.
  induction l as [|x l IH]; intros Hno; [done|].
  rewrite filter_cons_False by (apply Hno; by left).
  apply IH. intros y Hy. apply Hno. by right.
Qed.

Lemma elem_of_take_list y n l : y ∈ take n l → y ∈ l.
Proof. intros Hy. rewrite <- (take_drop n l). apply elem_of_app. by left. Qed.

Lemma elem_of_drop_list y n l : y ∈ drop n l → y ∈ l.
Proof. intros Hy. rewrite <- (take_drop n l). apply elem_of_app. by right. Qed.

Lemma sorted_around a i x :
  a !! i = Some x → StronglySorted (ordered comparefn) a →
  (∀ y, y ∈ take i a → ordered comparefn y x) ∧ (∀ y, y ∈ drop (Datatypes.S i) a → ordered comparefn x y).
Proof.
  intros Hx Hsorted. rewrite <- (take_drop_middle a i x Hx) in Hsorted.
  apply StronglySorted_app in Hsorted as (Hcross & _ & Hright).
  apply StronglySorted_cons in Hright as [Hafter _]. split.
  - intros y Hy. apply Hcross; [done | by left].
  - intros y Hy. rewrite Forall_forall in Hafter. by apply Hafter.
Qed.

Lemma pivot_slot_spec pivot a :
  S pivot → Forall S a → StronglySorted (ordered comparefn) a →
  ∀ fuel left right,
    (right - left ≤ fuel)%nat → (left ≤ right)%nat → (right ≤ length a)%nat →
    (∀ y, y ∈ take left a → ordered comparefn y pivot) →
    (∀ y, y ∈ drop right a → comparefn pivot y < 0) →
    (∀ y, y ∈ take (pivot_slot comparefn pivot a fuel left right) a → ordered comparefn y pivot) ∧
    (∀ y, y ∈ drop (pivot_slot comparefn pivot a fuel left right) a → comparefn pivot y < 0).
Proof.
  intros Hpivot Ha Hsorted. rewrite Forall_forall in Ha.
  induction fuel as [|fuel IH]; intros left right Hfuel Hlr Hlen Hleft Hright.
  - cbn [pivot_slot]. assert (left = right) as -> by lia. done.
  - cbn [pivot_slot]. destruct (Nat.ltb_spec left right) as [Hlt|Hge].
    + destruct (mid_bounds left right fuel Hlt Hfuel) as (Hm1 & Hm2 & Hm3 & Hm4).
      set (mid := (left + (right - left) / 2)%nat) in *.
      destruct (lookup_lt_is_Some_2 a mid) as [x Hx]; [lia|]. rewrite Hx.
      assert (S x) as HSx by (apply Ha; by eapply list_elem_of_lookup_2).
      destruct (sorted_around a mid x Hx Hsorted) as [Hbelow Habove].
      destruct (Z.ltb_spec (comparefn pivot x) 0) as [Hneg|Hpos].
      * apply IH; [lia | lia | lia | done |].
        intros y Hy. rewrite (drop_S a x mid Hx) in Hy.
        apply elem_of_cons in Hy as [->|Hy]; [done|].
        apply (cons_lt_le_lt pivot x y); [done | done | | done | by apply Habove].
        apply Ha. by eapply elem_of_drop_list.
      * apply IH; [lia | lia | lia | | done].
        intros y Hy. rewrite Nat.add_1_r, (take_S_r a mid x Hx) in Hy.
        assert (ordered comparefn x pivot) as Hxp by by apply cons_ge_le.
        apply elem_of_app in Hy as [Hy|Hy].
        -- apply (cons_le_trans y x pivot); [ | done | done | by apply Hbelow | done].
           apply Ha. by eapply elem_of_take_list.
        -- apply list_elem_of_singleton in Hy as ->. done.
    + assert (left = right) as -> by lia. done.
Qed.

Lemma binary_insert_spec pivot a :
  S pivot → Forall S a → StronglySorted (ordered comparefn) a →
  StronglySorted (ordered comparefn) (binary_insert comparefn a pivot) ∧
  ∀ c, S c →
    filter (equal_to comparefn c) (binary_insert comparefn a pivot) =
    filter (equal_to comparefn c) (a ++ [pivot]).
Proof.
  intros Hpivot Ha Hsorted. unfold binary_insert.
  destruct (pivot_slot_spec pivot a Hpivot Ha Hsorted (length a) 0 (length a))
    as [Hbelow Habove]; [lia | lia | lia | | |].
  { intros y Hy. by apply elem_of_nil in Hy. }
  { intros y Hy. rewrite drop_all in Hy. by apply elem_of_nil in Hy. }
  set (p := pivot_slot comparefn pivot a (length a) 0 (length a)) in *.
  pose proof Hsorted as Hsplit. rewrite <- (take_drop p a) in Hsplit.
  apply StronglySorted_app in Hsplit as (Hcross & Hl & Hr).
  rewrite Forall_forall in Ha. split.
  - apply StronglySorted_app. split; [|split; [done|]].
    + intros x1 x2 H1 H2. apply elem_of_cons in H2 as [->|H2]; [by apply Hbelow|].
      by apply Hcross.
    + apply StronglySorted_cons. split; [|done].
      apply Forall_forall. intros y Hy. specialize (Habove y Hy). unfold ordered. lia.
  - intros c Hc.
    assert (filter (equal_to comparefn c) a =
            filter (equal_to comparefn c) (take p a) ++ filter (equal_to comparefn c) (drop p a)) as Hparts.
    { by rewrite <- filter_app, take_drop. }
    rewrite !filter_app, Hparts.
    destruct (decide (equal_to comparefn c pivot)) as [Heq|Hne].
    + rewrite !(filter_cons_True _ pivot) by done. rewrite filter_nil.
      rewrite (filter_none (equal_to comparefn c) (drop p a)).
      * by rewrite app_nil_r.
      * intros y Hy Hcy. specialize (Habove y Hy).
        assert (S y) as HSy by (apply Ha; by eapply elem_of_drop_list).
        pose proof (cons_eq_lt_lt c pivot y Hc Hpivot HSy Heq Habove).
        unfold equal_to in Hcy. lia.
    + rewrite !(filter_cons_False _ pivot) by done.
      by rewrite filter_nil, app_nil_r.
Qed.

Lemma fold_binary_insert_spec others :
  ∀ run, Forall S run → Forall S others → StronglySorted (ordered comparefn) run →
    StronglySorted (ordered comparefn) (fold_left (binary_insert comparefn) others run) ∧
    ∀ c, S c →
      filter (equal_to comparefn c) (fold_left (binary_insert comparefn) others run) =
      filter (equal_to comparefn c) (run ++ others).
Proof.
  induction others as [|x others IH]; intros run Hrun Hothers Hsorted; simpl.
  - split; [done|]. intros c _. by rewrite app_nil_r.
  - apply Forall_cons in Hothers as [Hx Hothers].
    destruct (binary_insert_spec x run Hx Hrun Hsorted) as [Hsorted' Hstable].
    destruct (IH (binary_insert comparefn run x)) as [Hfinal Hsame]; [|done|done|].
    { rewrite binary_insert_perm. by constructor. }
    split; [done|]. intros c Hc.
    rewrite Hsame, filter_app, Hstable by done.
    by rewrite <- filter_app, <- app_assoc.
Qed.

(** *** The run that starts the array *)

Lemma run_rest_chain (descending : bool) l :
  ∀ prev, Sorted (step comparefn descending) (prev :: (run_rest comparefn descending prev l).1).
Proof.
  induction l as [|cur l IH]; intros prev; simpl.
  - repeat constructor.
  - destruct (if descending then 0 <=? comparefn cur prev else comparefn cur prev <? 0)
      eqn:Hstop.
    + repeat constructor.
    + specialize (IH cur). destruct (run_rest comparefn descending cur l) as [run others].
      simpl in *. constructor; [done|]. constructor. unfold step.
      destruct descending; [apply Z.leb_gt in Hstop | apply Z.ltb_ge in Hstop]; done.
Qed.

Lemma chain_strongly (R R' : A → A → Prop) l :
  (∀ x y, S x → S y → R x y → R' x y) →
  (∀ x y z, S x → S y → S z → R' x y → R' y z → R' x z) →
  Forall S l → Sorted R l → StronglySorted R' l.
Proof.
  intros Himpl Htrans HSl Hchain.
  induction Hchain as [|x l Hl IH Hhd]; [constructor|].
  apply Forall_cons in HSl as [HSx HSl]. specialize (IH HSl).
  constructor; [done|].
  destruct Hhd as [|y t Hxy]; [constructor|].
  apply Forall_cons in HSl as [HSy HSt].
  apply StronglySorted_cons in IH as [Hy _].
  constructor; [by apply Himpl|].
  rewrite Forall_forall in Hy, HSt |- *. intros z Hz.
  apply (Htrans x y z); [done | done | by apply HSt | by apply Himpl | by apply Hy].
Qed.

Lemma StronglySorted_reverse (R R' : A → A → Prop) l :
  (∀ x y, R x y → R' y x) → StronglySorted R l → StronglySorted R' (reverse l).
Proof.
  intros Hflip. induction 1 as [|x l _ IH Hx]; [constructor|].
  rewrite reverse_cons. apply StronglySorted_app.
  split; [|split; [done | repeat constructor]].
  intros x1 x2 H1 ->%list_elem_of_singleton.
  apply Hflip. rewrite Forall_forall in Hx. apply Hx. by apply elem_of_reverse.
Qed.

Lemma descending_filter_short l c :
  Forall S l → S c →
  StronglySorted (λ x y, comparefn y x < 0) l →
  (length (filter (equal_to comparefn c) l) ≤ 1)%nat.
Proof.
  intros HSl Hc Hdesc. induction Hdesc as [|x l _ IH Hx]; [simpl; lia|].
  apply Forall_cons in HSl as [HSx HSl]. rewrite filter_cons.
  destruct (decide (equal_to comparefn c x)) as [Heq|Hne]; [|by apply IH].
  rewrite (filter_none (equal_to comparefn c) l); [simpl; lia|].
  intros y Hy Hcy. rewrite Forall_forall in Hx, HSl.
  specialize (Hx y Hy). specialize (HSl y Hy). unfold equal_to in *.
  pose proof (cons_sym comparefn S HS c y Hc HSl Hcy) as Hyc.
  pose proof (cons_trans_eq comparefn S HS y c x HSl Hc HSx Hyc Heq). lia.
Qed.

Lemma reverse_short l : (length l ≤ 1)%nat → reverse l = l.
Proof. destruct l as [|x [|y l]]; simpl; [done | done | lia]. Qed.

Lemma count_and_make_run_spec l :
  Forall S l →
  StronglySorted (ordered comparefn) (count_and_make_run comparefn l).1 ∧
  Forall S (count_and_make_run comparefn l).1 ∧
  Forall S (count_and_make_run comparefn l).2 ∧
  ∀ c, S c →
    filter (equal_to comparefn c)
      ((count_and_make_run comparefn l).1 ++ (count_and_make_run comparefn l).2) =
    filter (equal_to comparefn c) l.
Proof.
  intros HSl.
  assert (Forall S ((count_and_make_run comparefn l).1 ++
                    (count_and_make_run comparefn l).2)) as HSparts.
  { by rewrite count_and_make_run_perm. }
  apply Forall_app in HSparts as [HSrun HSothers].
  split; [|split; [done|split; [done|]]].
  - destruct l as [|x0 [|x1 rest]]; simpl in *; [repeat constructor.. |].
    pose proof (run_rest_chain (comparefn x1 x0 <? 0) rest x1) as Hchain.
    pose proof (run_rest_app (comparefn x1 x0 <? 0) x1 rest) as Happ.
    destruct (run_rest comparefn (comparefn x1 x0 <? 0) x1 rest) as [run others].
    simpl in *.
    assert (Forall S (x0 :: x1 :: run)) as HSraw.
    { rewrite <- Happ in HSl. rewrite !app_comm_cons in HSl.
      by apply Forall_app in HSl as [? _]. }
    destruct (Z.ltb_spec (comparefn x1 x0) 0) as [Hdesc|Hasc]; simpl.
    + apply (StronglySorted_reverse (λ x y, comparefn y x < 0)).
      { intros x y Hyx. unfold ordered. lia. }
      apply (chain_strongly (step comparefn true)); [done | | done |].
      * intros x y z Hx Hy Hz Hyx Hzy. by apply (cons_trans_lt comparefn S HS z y x).
      * constructor; [done|]. constructor. done.
    + apply (chain_strongly (step comparefn false)); [ | | done |].
      * intros x y Hx Hy Hstep. by apply cons_ge_le.
      * apply cons_le_trans.
      * constructor; [done|]. constructor. done.
  - intros c Hc. destruct l as [|x0 [|x1 rest]]; simpl in *;
      [done | done |].
    pose proof (run_rest_chain (comparefn x1 x0 <? 0) rest x1) as Hchain.
    pose proof (run_rest_app (comparefn x1 x0 <? 0) x1 rest) as Happ.
    destruct (run_rest comparefn (comparefn x1 x0 <? 0) x1 rest) as [run others].
    simpl in *.
    assert (Forall S (x0 :: x1 :: run)) as HSraw.
    { rewrite <- Happ in HSl. rewrite !app_comm_cons in HSl.
      by apply Forall_app in HSl as [? _]. }
    rewrite <- Happ.
    change (x0 :: x1 :: run ++ others) with ((x0 :: x1 :: run) ++ others).
    destruct (Z.ltb_spec (comparefn x1 x0) 0) as [Hdesc|Hasc]; cbn [fst snd]; [|done].
    rewrite !filter_app. f_equal.
    rewrite filter_reverse. apply reverse_short.
    apply descending_filter_short; [done | done |].
    apply (chain_strongly (step comparefn true)); [done | | done |].
    * intros x y z Hx Hy Hz Hyx Hzy. by apply (cons_trans_lt comparefn S HS z y x).
    * constructor; [done|]. constructor. done.
Qed.

(** *** Under a consistent comparator the sort is ordered and stable *)

Lemma array_sort_spec l :
  Forall S l →
  StronglySorted (ordered comparefn) (array_sort comparefn l) ∧
  ∀ c, S c → filter (equal_to comparefn c) (array_sort comparefn l) = filter (equal_to comparefn c) l.
Proof.
  intros HSl. unfold array_sort.
  destruct (count_and_make_run_spec l HSl) as (Hsorted & HSrun & HSothers & Hrun).
  destruct (count_and_make_run comparefn l) as [run others]. simpl in *.
  destruct (fold_binary_insert_spec others run HSrun HSothers Hsorted) as [Hfinal Hsame].
  split; [done|]. intros c Hc. by rewrite Hsame, Hrun.
Qed.

End consistent.

Lemma array_sort_keeps_order l x y :
  consistent comparefn l → before x y l → comparefn x y = 0 →
  before x y (array_sort comparefn l).
Proof.
  intros Hcons Hbefore Hxy.
  assert (x ∈ l) as Hx.
  { eapply elem_of_sublist; [|exact Hbefore]. by left. }
  destruct (array_sort_spec (λ z, z ∈ l) Hcons l) as [_ Hstable].
  { by apply Forall_forall. }
  apply (before_filter (equal_to comparefn x) x y l); [ | done | by apply Hstable | done].
  apply (cons_refl _ _ Hcons x Hx).
Qed.

End array_sort_facts.

Lemma before_cons {A} (a b x : A) (l : list A) :
  before a b (x :: l) ↔ (x = a ∧ b ∈ l) ∨ before a b l.
Proof.
  unfold before. rewrite sublist_cons_r. split.
  - intros [?|(l' & [= -> <-] & Hb)]; [by right|].
    left. split; [done|]. by apply singleton_sublist_l.
  - intros [[-> Hb]|?]; [|by left].
    right. exists [b]. split; [done|]. by apply singleton_sublist_l.
Qed.

Lemma before_nil {A} (a b : A) : ¬ before a b [].
Proof. unfold before. by rewrite sublist_nil_r. Qed.

Lemma before_fmap {A B} (f : A → B) (a b : A) (l : list A) :
  before a b l → before (f a) (f b) (f <$> l).
Proof. unfold before. intros Hl. by apply (fmap_sublist f) in Hl. Qed.

(** ** Sorting the results *)

Section sort_facts.
Context `{Runtime}.

Lemma compare_null (key order : string) (a b : Doc) :
  is_nullish (prop a key) = true ∨ is_nullish (prop b key) = true →
  compare key order a b = 0.
Proof.
  unfold compare. intros [-> | ->]; [done|]. by rewrite orb_true_r.
Qed.

Lemma compare_numbers (key order : string) (a b : Doc) (x y : Z) :
  prop a key = JNum x → prop b key = JNum y →
  compare key order a b = if decide (order = "desc") then y - x else x - y.
Proof.
  unfold compare. intros -> ->. simpl.
  destruct (decide (order = "desc")) as [Hd|Hd].
  - by rewrite (bool_decide_eq_true_2 _ Hd).
  - by rewrite (bool_decide_eq_false_2 _ Hd).
Qed.

Lemma compare_strings (key order : string) (a b : Doc) :
  is_nullish (prop a key) = false → is_nullish (prop b key) = false →
  (¬ ∃ x y, prop a key = JNum x ∧ prop b key = JNum y) →
  compare key order a b =
    if decide (order = "desc")
    then localeCompare (ToString (prop b key)) (ToString (prop a key))
    else localeCompare (ToString (prop a key)) (ToString (prop b key)).
Proof.
  unfold compare. intros -> -> Hmixed. simpl.
  assert (bool_decide (order = "desc") = if decide (order = "desc") then true else false)
    as ->.
  { destruct (decide (order = "desc")) as [Hd|Hd];
      [by rewrite (bool_decide_eq_true_2 _ Hd) | by rewrite (bool_decide_eq_false_2 _ Hd)]. }
  destruct (prop a key) as [| |ba|x|sa|la], (prop b key) as [| |bb|y|sb|lb];
    destruct (decide (order = "desc")); try reflexivity;
    destruct Hmixed; eauto.
Qed.

Lemma compare_desc (key : string) (a b : Doc) :
  compare key "desc" a b = compare key "asc" b a.
Proof.
  unfold compare. rewrite orb_comm.
  destruct (is_nullish (prop b key) || is_nullish (prop a key)); [done|].
  rewrite bool_decide_eq_true_2 by done.
  rewrite bool_decide_eq_false_2 by done.
  destruct (prop a key) as [| |ba|x|sa|la], (prop b key) as [| |bb|y|sb|lb]; reflexivity.
Qed.

Lemma compare_numbers_consistent (key order : string) (l : list Doc) :
  Forall (λ a, ∃ n, prop a key = JNum n) l → consistent (compare key order) l.
Proof.
  intros Hl. rewrite Forall_forall in Hl.
  split.
  - intros x Hx. destruct (Hl x Hx) as [n Hn].
    rewrite (compare_numbers _ _ _ _ n n) by done. destruct (decide _); lia.
  - intros x y Hx Hy. destruct (Hl x Hx) as [n Hn], (Hl y Hy) as [m Hm].
    rewrite (compare_numbers _ _ x y n m), (compare_numbers _ _ y x m n) by done.
    destruct (decide _); lia.
  - intros x y z Hx Hy Hz.
    destruct (Hl x Hx) as [n Hn], (Hl y Hy) as [m Hm], (Hl z Hz) as [k Hk].
    rewrite (compare_numbers _ _ x y n m), (compare_numbers _ _ y z m k),
      (compare_numbers _ _ x z n k) by done.
    destruct (decide _); lia.
  - intros x y z Hx Hy Hz.
    destruct (Hl x Hx) as [n Hn], (Hl y Hy) as [m Hm], (Hl z Hz) as [k Hk].
    rewrite (compare_numbers _ _ x y n m), (compare_numbers _ _ y z m k),
      (compare_numbers _ _ x z n k) by done.
    destruct (decide _); lia.
  - intros x y z Hx Hy Hz.
    destruct (Hl x Hx) as [n Hn], (Hl y Hy) as [m Hm], (Hl z Hz) as [k Hk].
    rewrite (compare_numbers _ _ x y n m), (compare_numbers _ _ y z m k),
      (compare_numbers _ _ x z n k) by done.
    destruct (decide _); lia.
Qed.

End sort_facts.

(** C6, as stated, fails: with a record that has no year among the
    others, the record of 2002 moves from behind the undated record to
    the front, although the comparator calls the two equal; and of the
    two records of 2003 the later one comes out first. *)
Lemma sort_moves_past_missing :
  names <$> by_year shelf =
    Some [JStr "f"; JStr "a"; JStr "b"; JStr "c"; JStr "d"; JStr "e"] ∧
  before (dated "d" None) (dated "f" (Some 2002)) shelf ∧
  @compare example_runtime "issued" "asc" (dated "d" None) (dated "f" (Some 2002)) = 0 ∧
  (∀ sorted, by_year shelf = Some sorted →
             ¬ before (dated "d" None) (dated "f" (Some 2002)) sorted) ∧
  names <$> by_year shelf' =
    Some [JStr "f"; JStr "g"; JStr "a"; JStr "b"; JStr "c"; JStr "d"; JStr "e"] ∧
  before (dated "e" (Some 2003)) (dated "g" (Some 2003)) shelf' ∧
  @compare example_runtime "issued" "asc" (dated "e" (Some 2003)) (dated "g" (Some 2003)) = 0 ∧
  (∀ sorted, by_year shelf' = Some sorted →
             ¬ before (dated "e" (Some 2003)) (dated "g" (Some 2003)) sorted).
Proof.
  assert (names <$> by_year shelf =
            Some [JStr "f"; JStr "a"; JStr "b"; JStr "c"; JStr "d"; JStr "e"]) as Hone
    by (vm_compute; reflexivity).
  assert (names <$> by_year shelf' =
            Some [JStr "f"; JStr "g"; JStr "a"; JStr "b"; JStr "c"; JStr "d"; JStr "e"]) as Htwo
    by (vm_compute; reflexivity).
  split; [exact Hone|]. split.
  { unfold shelf. rewrite !before_cons, !elem_of_cons. do 3 right. left.
    split; [done|]. right. by left. }
  split; [reflexivity|]. split.
  { intros sorted Hsorted Hb%(before_fmap name_of).
    rewrite Hsorted in Hone. injection Hone as Hone. unfold names in Hone.
    rewrite Hone in Hb.
    change (name_of (dated "d" None)) with (JStr "d") in Hb.
    change (name_of (dated "f" (Some 2002))) with (JStr "f") in Hb.
    rewrite !before_cons, !elem_of_cons, elem_of_nil in Hb.
    pose proof (@before_nil JSVal (JStr "d") (JStr "f")) as Hnil.
    intuition congruence. }
  split; [exact Htwo|]. split.
  { unfold shelf', shelf. cbn [app]. rewrite !before_cons, !elem_of_cons.
    do 4 right. left. split; [done|]. right. by left. }
  split; [reflexivity|].
  intros sorted Hsorted Hb%(before_fmap name_of).
  rewrite Hsorted in Htwo. injection Htwo as Htwo. unfold names in Htwo.
  rewrite Htwo in Hb.
  change (name_of (dated "e" (Some 2003))) with (JStr "e") in Hb.
  change (name_of (dated "g" (Some 2003))) with (JStr "g") in Hb.
  rewrite !before_cons, !elem_of_cons, elem_of_nil in Hb.
  pose proof (@before_nil JSVal (JStr "e") (JStr "g")) as Hnil.
  intuition congruence.
Qed.

(** C6 (amended): on results that are an array of records, [sort]
    completes normally and stores a rearrangement of the results.  Its
    comparator calls a pair equal when either value under the key is
    null or missing, takes the difference of two numbers, and otherwise
    collates the two values as strings; the order [desc], in any letter
    case, swaps the two sides, and every other order is ascending.  When
    this comparator is a consistent comparison on the records being
    sorted, the stored list is in order and every pair of records that
    compare equal keeps the order it had in the input. *)
Theorem sort_orders_consistently `{Runtime} (key : string) (order : option string)
    (w : Env) (rs : list Doc) :
  db_value w !! "results" = Some (VArr (EDoc <$> rs)) →
  ∃ sorted w',
    sort key order w = Some (Normal tt, w') ∧
    db_value w' !! "results" = Some (VArr (EDoc <$> sorted)) ∧
    sorted ≡ₚ rs ∧
    (∀ o a b,
       is_nullish (prop a key) = true ∨ is_nullish (prop b key) = true →
       compare key o a b = 0) ∧
    (∀ o a b x y,
       prop a key = JNum x → prop b key = JNum y →
       compare key o a b = if decide (o = "desc") then y - x else x - y) ∧
    (∀ o a b,
       is_nullish (prop a key) = false → is_nullish (prop b key) = false →
       (¬ ∃ x y, prop a key = JNum x ∧ prop b key = JNum y) →
       compare key o a b =
         if decide (o = "desc")
         then localeCompare (ToString (prop b key)) (ToString (prop a key))
         else localeCompare (ToString (prop a key)) (ToString (prop b key))) ∧
    (∀ a b, compare key "desc" a b = compare key "asc" b a) ∧
    (consistent (compare key (toLowerCase (default "asc" order))) rs →
     StronglySorted (ordered (compare key (toLowerCase (default "asc" order)))) sorted ∧
     ∀ a b,
       before a b rs →
       compare key (toLowerCase (default "asc" order)) a b = 0 →
       before a b sorted).
Proof.
  intros Hrs.
  eexists _, _. split; [by apply sort_spec|].
  split; [apply shown_results|]. split; [apply array_sort_perm|].
  split; [intros o a b; apply compare_null|].
  split; [intros o a b x y; apply compare_numbers|].
  split; [intros o a b; apply compare_strings|].
  split; [apply compare_desc|].
  intros Hcons. split.
  - apply (array_sort_spec _ (λ z, z ∈ rs) Hcons).
    by apply Forall_forall.
  - intros a b Hbefore Hequal. by apply array_sort_keeps_order.
Qed.

Lemma sort_orders_consistently_witness :
  ∃ sorted w',
    @sort example_runtime "issued" (Some "DESC") (env_of (Db.with_results years db))
      = Some (Normal tt, w') ∧
    db_value w' !! "results" = Some (VArr (EDoc <$> sorted)) ∧
    name_of <$> sorted = [JStr "a"; JStr "e"; JStr "g"; JStr "f"] ∧
    before (dated "e" (Some 2003)) (dated "g" (Some 2003)) sorted.
Proof.
  destruct (@sort_orders_consistently example_runtime "issued" (Some "DESC")
              (env_of (Db.with_results years db)) years eq_refl)
    as (sorted & w' & Hrun & Hres & _ & _ & _ & _ & _ & Hstable).
  exists sorted, w'. split; [exact Hrun|]. split; [exact Hres|].
  split.
  - injection Hrun as <-. apply (inj Some) in Hres.
    injection Hres as Hres. apply EDoc_fmap_inj in Hres. by subst sorted.
  - destruct Hstable as [_ Hkeep].
    + apply compare_numbers_consistent.
      repeat constructor; eexists; reflexivity.
    + apply Hkeep; [|reflexivity].
      unfold years.
      rewrite !before_cons, !elem_of_cons. right. left. split; [done|]. by left.
Defined.

(** * Further properties *)

(** ** Paging through a result list *)

Lemma steps_forward (k : nat) (w : Env) (page : Z) :
  db_value w !! "activePage" = Some (VNum page) →
  after_steps k w =
  Some {| db_value := Db.with_activePage (page + Z.of_nat k) (db_value w);
          localStorage := localStorage w |}.
Proof.
  revert w page. induction k as [|k IH]; intros w page Hpage.
  - cbn [after_steps]. f_equal. destruct w as [d s]. cbn in *. f_equal.
    unfold Db.with_activePage. rewrite Z.add_0_r. symmetry. by apply insert_id.
  - cbn [after_steps]. unfold after.
    rewrite (updatePagination_run 1 page w Hpage). cbn.
    rewrite (IH _ (page + 1)).
    + cbn. do 2 f_equal. unfold Db.with_activePage. rewrite insert_insert_eq.
      f_equal. f_equal. lia.
    + cbn. unfold Db.with_activePage. by simplify_map_eq.
Qed.

(** After a result list arrives and the next-page step is taken [k]
    times, the window holds the records from [k] pages in, a page
    long. *)
Theorem paginatedResults_after_steps (rs : list Doc) (k : nat) (w : Env) (size : Z) :
  db_value w !! "resultsPerPage" = Some (VNum size) →
  0 ≤ size →
  ∃ w1 w2,
    updateResults rs w = Some (Normal tt, w1) ∧
    after_steps k w1 = Some w2 ∧
    paginatedResults (db_value w2) =
      Some (take (Z.to_nat size) (drop (k * Z.to_nat size) (EDoc <$> rs))).
Proof.
  intros Hsize Hnonneg.
  eexists _, _. split; [apply updateResults_run|].
  split; [apply (steps_forward k _ 0), shown_page|].
  rewrite (paginatedResults_run _ (0 + Z.of_nat k) size (EDoc <$> rs)).
  - f_equal. rewrite slice_nonneg by nia. f_equal; [nia|]. f_equal. nia.
  - cbn. unfold Db.with_activePage. by simplify_map_eq.
  - cbn. unfold Db.with_activePage, Db.with_results. by simplify_map_eq.
  - cbn. unfold Db.with_activePage, Db.with_results. by simplify_map_eq.
Qed.

Lemma paginatedResults_after_steps_witness :
  ∃ w1 w2,
    updateResults eleven start = Some (Normal tt, w1) ∧
    after_steps 1 w1 = Some w2 ∧
    paginatedResults (db_value w2) = Some [ EDoc {[ "id" := JNum 11 ]} ].
Proof.
  destruct (paginatedResults_after_steps eleven 1 start 10 eq_refl) as (w1 & w2 & H1 & H2 & Hw);
    [lia|].
  exists w1, w2. split; [exact H1|]. split; [exact H2|]. rewrite Hw. reflexivity.
Defined.

Lemma chunks_take {A} (l : list A) (s n : nat) :
  concat (map (fun p => take s (drop (p * s) l)) (seq 0 n)) = take (n * s) l.
Proof.
  induction n as [|n IH]; [done|].
  rewrite seq_S, map_app, concat_app, IH. simpl. rewrite app_nil_r.
  rewrite take_take_drop. f_equal. lia.
Qed.

(** With a positive page size, the windows of the pages 0, 1, ... laid
    end to end give back the result list, once the pages reach its
    length: every record is on exactly one page, in order. *)
Theorem pages_partition (d : Db.t) (size : Z) (results : list Elem) (n : nat) :
  d !! "resultsPerPage" = Some (VNum size) →
  d !! "results" = Some (VArr results) →
  0 < size →
  Z.of_nat (length results) ≤ Z.of_nat n * size →
  ∃ pages,
    mapM (fun p => paginatedResults (Db.with_activePage (Z.of_nat p) d)) (seq 0 n)
      = Some pages ∧
    concat pages = results.
Proof.
  intros Hsize Hres Hpos Hn.
  exists (map (fun p => take (Z.to_nat size) (drop (p * Z.to_nat size) results)) (seq 0 n)).
  split.
  - apply mapM_total. intros p _.
    rewrite (paginatedResults_run _ (Z.of_nat p) size results).
    + f_equal. rewrite slice_nonneg by nia. f_equal; [nia|]. f_equal. nia.
    + unfold Db.with_activePage. by simplify_map_eq.
    + unfold Db.with_activePage. by simplify_map_eq.
    + unfold Db.with_activePage. by simplify_map_eq.
  - rewrite chunks_take. apply take_ge. nia.
Qed.

Lemma pages_partition_witness :
  ∃ pages,
    mapM (fun p => paginatedResults
                     (Db.with_activePage (Z.of_nat p) (Db.with_results eleven db)))
         (seq 0 2) = Some pages ∧
    concat pages = EDoc <$> eleven.
Proof.
  apply (pages_partition (Db.with_results eleven db) 10 (EDoc <$> eleven) 2);
    [reflexivity | reflexivity | lia | simpl; lia].
Defined.

Lemma slice_end_zero {A} (l : list A) (s : Z) : slice l s 0 = [].
Proof.
  unfold slice. change (0 <? 0) with false. cbv iota.
  destruct (Z.ltb_spec s 0).
  - replace (Z.to_nat _) with O by lia. done.
  - replace (Z.to_nat _) with O by lia. done.
Qed.

(** One step back from the first page shows an empty window, whatever
    the results and the page size. *)
Theorem page_before_first_is_empty (rs : list Doc) (w : Env) (size : Z) :
  db_value w !! "resultsPerPage" = Some (VNum size) →
  ∃ w1 w2,
    updateResults rs w = Some (Normal tt, w1) ∧
    updatePagination (-1) w1 = Some (Normal tt, w2) ∧
    db_value w2 !! "activePage" = Some (VNum (-1)) ∧
    paginatedResults (db_value w2) = Some [].
Proof.
  intros Hsize.
  eexists _, _. split; [apply updateResults_run|].
  split; [apply (updatePagination_run (-1) 0), shown_page|].
  split; [cbn; unfold Db.with_activePage; by simplify_map_eq|].
  rewrite (paginatedResults_run _ (-1) size (EDoc <$> rs)).
  - f_equal. replace (-1 * size + size) with 0 by lia. apply slice_end_zero.
  - cbn. unfold Db.with_activePage. by simplify_map_eq.
  - cbn. unfold Db.with_activePage, Db.with_results. by simplify_map_eq.
  - cbn. unfold Db.with_activePage, Db.with_results. by simplify_map_eq.
Qed.

Lemma page_before_first_is_empty_witness :
  ∃ w1 w2,
    updateResults eleven start = Some (Normal tt, w1) ∧
    updatePagination (-1) w1 = Some (Normal tt, w2) ∧
    db_value w2 !! "activePage" = Some (VNum (-1)) ∧
    paginatedResults (db_value w2) = Some [].
Proof. apply (page_before_first_is_empty eleven start 10). reflexivity. Defined.

(** ** When the fetches throw *)

(** With the placeholder or an index under [index], [fillResults]
    returns, and it throws exactly when the index is not in place or
    some stored record has a [type] that is missing, null, a number or a
    boolean; it throws as well when an array was put under [index].
    [search] and [fillResults] are all or nothing: when either throws,
    the store and the storage are as they were. *)
Theorem fillResults_throws_iff (w : Env) :
  (∀ index, db_value w !! "index" = Some (VIndex index) →
     (∃ r, fillResults w = Some r) ∧
     ((∃ w', fillResults w = Some (Throw TypeError, w')) ↔
      index = None ∨
      ∃ ix e, index = Some ix ∧ e ∈ values (Document.store ix) ∧ type_unreadable e)) ∧
  (∀ l, db_value w !! "index" = Some (VArr l) →
     fillResults w = Some (Throw TypeError, w)) ∧
  (∀ w', fillResults w = Some (Throw TypeError, w') → w' = w) ∧
  (∀ w', search w = Some (Throw TypeError, w') → w' = w).
Proof.
  split; [|split; [|split]].
  - intros index Hix. rewrite (fillResults_spec w index Hix).
    split; [by eexists|].
    destruct index as [ix|]; cbn [fill_outcome finish].
    + destruct (filter_c _ _) as [rs|[]] eqn:Hf; cbn [finish].
      * split; [by intros [? [=]]|].
        intros [?|(ix' & e & [= <-] & He & Hbad)]; [done|].
        assert (fill_outcome (Some ix) = Throw TypeError) as Hthrow.
        { apply fill_outcome_unreadable. eauto. }
        unfold fill_outcome in Hthrow. congruence.
      * split; [|eauto]. intros _. right.
        apply (fill_outcome_unreadable ix) in Hf as (e & He & Hbad). eauto.
    + split; [auto | eauto].
  - intros l Hix. by apply (fillResults_overwritten w l).
  - intros w' Hrun. apply fillResults_finish in Hrun as (c0 & Hc & ->).
    symmetry in Hc. by apply finish_throw.
  - intros w' Hrun. apply search_finish in Hrun as (c0 & Hc & ->).
    symmetry in Hc. by apply finish_throw.
Qed.

(** A record without [type] among the stored ones. *)
Example fillResults_throws_on_untyped :
  fillResults (env_of (Db.with_results eleven with_untyped)) =
    Some (Throw TypeError, env_of (Db.with_results eleven with_untyped)).
Proof. reflexivity. Qed.

(** With a term or a selected value, [search] completes exactly when
    the index is in place and resolves the hits it finds: the test on
    [type] is not made on this path, so records without a [type] do not
    make it throw. *)
Theorem search_query_completes_iff (w : Env) (q : string) (sel : Obj (list string)) :
  db_value w !! "query" = Some (VStr q) →
  db_value w !! "selectedFilters" = Some (VSelected sel) →
  ¬ unfiltered q sel →
  ((∃ w', search w = Some (Normal tt, w')) ↔
   ∃ ix, db_value w !! "index" = Some (VIndex (Some ix)) ∧
         is_Some (Document.search ix q (options sel))).
Proof.
  intros Hq Hsel Hslow. rewrite (search_run w q sel Hq Hsel). unfold search_outcome.
  destruct (decide (unfiltered q sel)); [done|].
  destruct (db_value w !! "index") as [[n'|s|b|l|st|fs|sl|[ix|]]|] eqn:Hix;
    cbn [index_read mbind option_bind].
  8: { destruct (Document.search ix q (options sel)) as [groupedResults|] eqn:Hfound;
         cbn [mbind option_bind finish].
       - split; [intros _; exists ix; split; [done | by rewrite Hfound] | eauto].
       - split; [by intros [? [=]]|].
         intros (ix' & [= <-] & [? Hsome]). congruence. }
  all: split; [by intros [? [=]] | by intros (? & [=] & _)].
Qed.

Lemma search_query_completes_iff_witness :
  (∃ w', search (env_of about_x) = Some (Normal tt, w')) ∧
  search (env_of (Db.with_query "bild" db)) =
    Some (Throw TypeError, env_of (Db.with_query "bild" db)) ∧
  search (env_of (Db.with_query "bild" with_untyped)) =
    Some (Normal tt, shown [bildung] (env_of (Db.with_query "bild" with_untyped))).
Proof.
  split; [|split; reflexivity].
  apply (search_query_completes_iff (env_of about_x) "" (obj_set initFilters "about" ["X"]));
    [reflexivity | reflexivity | |].
  - intros [_ Htags]. discriminate Htags.
  - exists toy_index. split; [reflexivity|]. by eexists.
Defined.

Lemma shown_twice (rs rs' : list Doc) (w : Env) :
  shown rs (shown rs' w) = shown rs w.
Proof.
  unfold shown. cbn. f_equal. unfold Db.with_activePage, Db.with_results.
  rewrite (insert_insert_ne _ "results" "activePage") by done.
  by rewrite !insert_insert_eq.
Qed.

Lemma finish_twice (c : Completion (list Doc)) (w : Env) :
  finish c (finish c w).2 = finish c w.
Proof. destruct c; cbn; [by rewrite shown_twice | done]. Qed.

(** [search] and [fillResults] done twice are as done once. *)
Theorem fetch_twice (w : Env) :
  (r ← search w; search r.2) = search w ∧
  (r ← fillResults w; fillResults r.2) = fillResults w.
Proof.
  split.
  - destruct (search w) as [[c w']|] eqn:Hrun; [|done]. cbn.
    destruct (search_typed w _ Hrun) as (q & sel & Hq & Hsel).
    rewrite (search_run w q sel Hq Hsel) in Hrun.
    destruct (index_read (db_value w !! "index")) as [index|] eqn:Hix; [|discriminate].
    cbn in Hrun. destruct (search_outcome q sel index) as [c0|] eqn:Hout; [|discriminate].
    cbn in Hrun. injection Hrun as Hrun.
    assert (w' = (finish c0 w).2) as -> by by rewrite Hrun.
    rewrite (search_run _ q sel) by by rewrite finish_frame.
    rewrite finish_frame, Hix by done. cbn. rewrite Hout. cbn.
    by rewrite finish_twice, Hrun.
  - destruct (fillResults w) as [[c w']|] eqn:Hrun; [|done]. cbn.
    rewrite fillResults_run in Hrun.
    destruct (index_read (db_value w !! "index")) as [index|] eqn:Hix; [|discriminate].
    cbn in Hrun. injection Hrun as Hrun.
    assert (w' = (finish (fill_outcome index) w).2) as -> by by rewrite Hrun.
    rewrite fillResults_run, finish_frame, Hix by done. cbn.
    by rewrite finish_twice, Hrun.
Qed.

(** ** Records whose [type] is a string *)

(** When [fillResults] completes, the records it stores are the stored
    records whose [type] array holds the marker or whose [type] string
    contains the marker as a substring: a record typed with a longer URI
    that merely starts with the marker is kept too. *)
Theorem fillResults_keeps (w w' : Env) :
  fillResults w = Some (Normal tt, w') →
  ∃ ix rs,
    db_value w !! "index" = Some (VIndex (Some ix)) ∧
    db_value w' !! "results" = Some (VArr (EDoc <$> rs)) ∧
    rs = filter kept (values (Document.store ix)) ∧
    ∀ e, e ∈ rs ↔ e ∈ values (Document.store ix) ∧ kept e.
Proof.
  rewrite fillResults_run.
  destruct (db_value w !! "index") as [[n|s|b|l|st|fs|sl|[ix|]]|] eqn:Hix;
    try discriminate.
  cbn [index_read fmap option_fmap option_map].
  destruct (fill_outcome (Some ix)) as [rs|] eqn:Hf; [|discriminate].
  cbn [finish]. intros [= <-]. exists ix, rs. split; [done|].
  split; [apply shown_results|].
  assert (Forall (λ e, ¬ type_unreadable e) (values (Document.store ix))) as Hread.
  { apply Forall_forall. intros e He Hbad.
    assert (fill_outcome (Some ix) = Throw TypeError) as Hthrow; [|congruence].
    apply fill_outcome_unreadable. eauto. }
  rewrite (fill_outcome_readable ix Hread) in Hf. injection Hf as <-.
  split; [done|]. intros e. by rewrite list_elem_of_filter, (comm and).
Qed.

Lemma fillResults_keeps_witness :
  ∃ rs,
    fillResults (env_of with_lookalike) = Some (Normal tt, shown rs (env_of with_lookalike)) ∧
    lookalike ∈ rs ∧ (person ∉ rs) ∧ rs = [bildung; lookalike].
Proof.
  assert (fillResults (env_of with_lookalike) =
          Some (Normal tt, shown [bildung; lookalike] (env_of with_lookalike))) as Hrun
    by (vm_compute; reflexivity).
  destruct (fillResults_keeps _ _ Hrun) as (ix & rs & Hix & Hres & Hrs & Hkept).
  rewrite shown_results in Hres. injection Hres as Hres.
  apply (EDoc_fmap_inj [bildung; lookalike] rs) in Hres. subst rs. clear Hrs.
  exists [bildung; lookalike]. split; [exact Hrun|]. split; [|split; [|reflexivity]].
  - apply elem_of_cons. right. apply elem_of_cons. by left.
  - intros Hin. apply Hkept in Hin as [_ Hperson].
    exact (bool_decide_eq_false_1 (kept person) eq_refl Hperson).
Defined.

(** ** Resetting and selecting *)

Lemma Exists_unreadable (l : list Doc) :
  ¬ Forall (λ e, ¬ type_unreadable e) l → ∃ e, e ∈ l ∧ type_unreadable e.
Proof.
  intros Hnot. apply not_Forall_Exists in Hnot; [|intros e; apply _].
  apply Exists_exists in Hnot as (e & He & Hbad).
  exists e. split; [done|]. by apply dec_stable.
Qed.

(** [resetFilters] clears the term, the sort setting and the selection
    first, and only then fetches.  With an index in place whose stored
    records all have an array or a string as [type], it completes and
    shows the records that pass the test on [type]; without an index, or
    with a record whose [type] is neither, it throws with the term, the
    sort setting and the selection cleared and the results and the page
    as they were. *)
Theorem resetFilters_outcome (w : Env) :
  (∀ w', resetFilters w = Some (Throw TypeError, w') →
     w' = cleared w ∧
     db_value w' !! "results" = db_value w !! "results" ∧
     db_value w' !! "activePage" = db_value w !! "activePage" ∧
     db_value w' !! "query" = Some (VStr "") ∧
     db_value w' !! "sort" = Some (VSort {| sort_key := ""; sort_order := "asc" |}) ∧
     db_value w' !! "selectedFilters" = Some (VSelected initFilters)) ∧
  (db_value w !! "index" = Some (VIndex None) →
   resetFilters w = Some (Throw TypeError, cleared w)) ∧
  (∀ ix, db_value w !! "index" = Some (VIndex (Some ix)) →
     (Forall (λ e, ¬ type_unreadable e) (values (Document.store ix)) →
      resetFilters w =
        Some (Normal tt, shown (filter kept (values (Document.store ix))) (cleared w))) ∧
     (¬ Forall (λ e, ¬ type_unreadable e) (values (Document.store ix)) →
      resetFilters w = Some (Throw TypeError, cleared w))).
Proof.
  rewrite resetFilters_spec. split; [|split].
  - intros w' Hrun. apply fillResults_finish in Hrun as (c0 & Hc & ->).
    symmetry in Hc. rewrite (finish_throw _ _ Hc).
    split; [done|]. rewrite !cleared_other by done.
    by rewrite cleared_query, cleared_sort, cleared_selectedFilters.
  - intros Hix. apply (fillResults_spec _ None). by rewrite cleared_other.
  - intros ix Hix. split; intros Hty.
    + rewrite (fillResults_spec _ (Some ix)) by by rewrite cleared_other.
      by rewrite (fill_outcome_readable ix Hty).
    + rewrite (fillResults_spec _ (Some ix)) by by rewrite cleared_other.
      apply Exists_unreadable in Hty.
      apply fill_outcome_unreadable in Hty. by rewrite Hty.
Qed.

Lemma resetFilters_outcome_witness :
  resetFilters (env_of (Db.with_query "bild" db)) =
    Some (Throw TypeError, cleared (env_of (Db.with_query "bild" db))) ∧
  db_value (cleared (env_of (Db.with_query "bild" db))) !! "query" = Some (VStr "") ∧
  resetFilters (env_of with_lookalike) =
    Some (Normal tt, shown [bildung; lookalike] (cleared (env_of with_lookalike))) ∧
  resetFilters (env_of with_untyped) = Some (Throw TypeError, cleared (env_of with_untyped)).
Proof.
  destruct (resetFilters_outcome (env_of (Db.with_query "bild" db))) as (Hthrow & Hnone & _).
  specialize (Hnone eq_refl).
  destruct (Hthrow _ Hnone) as (_ & _ & _ & Hquery & _).
  split; [exact Hnone|]. split; [exact Hquery|].
  destruct (resetFilters_outcome (env_of with_lookalike)) as (_ & _ & Hdone).
  destruct (Hdone _ eq_refl) as [Hdone' _].
  destruct (resetFilters_outcome (env_of with_untyped)) as (_ & _ & Hbad).
  destruct (Hbad _ eq_refl) as [_ Hbad'].
  split.
  - rewrite Hdone'; [reflexivity|]. apply (bool_decide_unpack _). by vm_compute.
  - apply Hbad'. apply (bool_decide_eq_false_1 _). by vm_compute.
Defined.

(** [handleFilterSelect] throws in two ways.  On a key the selection map
    lacks, it throws before anything is written.  On a key it holds, the
    selection is written first, so when the search that follows throws,
    the selection has changed all the same. *)
Theorem handleFilterSelect_throws (key val : string) (w : Env) (sel : Obj (list string)) :
  db_value w !! "selectedFilters" = Some (VSelected sel) →
  (obj_get sel key = None →
   handleFilterSelect key val w = Some (Throw TypeError, w)) ∧
  (∀ current w',
     obj_get sel key = Some current →
     handleFilterSelect key val w = Some (Throw TypeError, w') →
     w' = reselect (obj_set sel key (toggled val current)) w ∧
     db_value w' !! "selectedFilters" =
       Some (VSelected (obj_set sel key (toggled val current)))).
Proof.
  intros Hsel. rewrite (handleFilterSelect_spec key val w sel Hsel). split.
  - by intros ->.
  - intros current w' -> Hrun.
    apply search_finish in Hrun as (c0 & Hc & ->).
    symmetry in Hc. rewrite (finish_throw _ _ Hc).
    split; [done | apply reselect_selectedFilters].
Qed.

Lemma handleFilterSelect_throws_witness :
  handleFilterSelect "keywords" "X" (env_of indexed) = Some (Throw TypeError, env_of indexed) ∧
  ∃ w', handleFilterSelect "about" "X" start = Some (Throw TypeError, w') ∧
        db_value w' !! "selectedFilters" =
          Some (VSelected [("about", ["X"]); ("educationalLevel", []); ("P126", [])]).
Proof.
  destruct (handleFilterSelect_throws "keywords" "X" (env_of indexed) initFilters eq_refl)
    as [Hmissing _].
  destruct (handleFilterSelect_throws "about" "X" start initFilters eq_refl) as [_ Hheld].
  split; [by apply Hmissing|].
  assert (handleFilterSelect "about" "X" start =
          Some (Throw TypeError, reselect (obj_set initFilters "about" ["X"]) start)) as Hrun
    by (vm_compute; reflexivity).
  eexists. split; [exact Hrun|].
  by destruct (Hheld [] _ eq_refl Hrun) as [_ ->].
Defined.

Lemma reselect_back (sel sel' : Obj (list string)) (w : Env) :
  db_value w !! "selectedFilters" = Some (VSelected sel) →
  reselect sel (reselect sel' w) = w.
Proof.
  intros Hsel. destruct w as [d s]. unfold reselect. cbn in *. f_equal.
  unfold Db.with_selectedFilters. rewrite insert_insert_eq. by apply insert_id.
Qed.

Lemma shown_reselect_back (sel sel' : Obj (list string)) (rs rs' : list Doc) (w : Env) :
  db_value w !! "selectedFilters" = Some (VSelected sel) →
  shown rs (reselect sel (shown rs' (reselect sel' w))) = shown rs w.
Proof.
  intros Hsel. by rewrite reselect_shown, shown_twice, (reselect_back sel sel' w Hsel).
Qed.

(** Selecting a value that is not selected and selecting it again gives
    back the selection map; when the search from the first state
    completes, the two steps together are that search. *)
Theorem handleFilterSelect_twice (key val : string) (current : list string)
    (w : Env) (sel : Obj (list string)) :
  db_value w !! "selectedFilters" = Some (VSelected sel) →
  obj_get sel key = Some current →
  val ∉ current →
  handleFilterSelect key val w =
    search (reselect (obj_set sel key (current ++ [val])%list) w) ∧
  ∀ r1, handleFilterSelect key val w = Some r1 →
    (∀ r2, handleFilterSelect key val r1.2 = Some r2 →
           db_value r2.2 !! "selectedFilters" = Some (VSelected sel)) ∧
    (∀ w', search w = Some (Normal tt, w') →
           handleFilterSelect key val r1.2 = search w).
Proof.
  intros Hsel Hget Hout.
  pose proof (toggled_back val current Hout) as Hback.
  assert (toggled val current = (current ++ [val])%list) as Hfirst.
  { unfold toggled. by rewrite decide_False. }
  rewrite (handleFilterSelect_spec key val w sel Hsel), Hget, Hfirst.
  split; [done|]. intros [c1 w1] Hrun1. cbn [snd].
  set (sel1 := obj_set sel key (current ++ [val])%list) in *.
  apply search_finish in Hrun1 as (c0 & -> & ->).
  assert (db_value (finish c0 (reselect sel1 w)).2 !! "selectedFilters"
          = Some (VSelected sel1)) as Hsel1.
  { rewrite finish_frame by done. apply reselect_selectedFilters. }
  assert (handleFilterSelect key val (finish c0 (reselect sel1 w)).2 =
          search (reselect sel (finish c0 (reselect sel1 w)).2)) as ->.
  { rewrite (handleFilterSelect_spec key val _ sel1 Hsel1).
    unfold sel1 at 1 2. rewrite obj_get_set, <- Hfirst, Hback, obj_set_twice.
    by rewrite (obj_set_same _ _ _ Hget). }
  split.
  - intros [c2 w2] Hrun2. apply search_finish in Hrun2 as (c3 & -> & ->).
    cbn [snd]. rewrite finish_frame by done. apply reselect_selectedFilters.
  - intros w' Hrun.
    destruct (search_typed w _ Hrun) as (q & sel0 & Hq & Hsel0).
    assert (sel0 = sel) as -> by congruence.
    rewrite (search_run w q sel Hq Hsel) in Hrun |- *.
    rewrite (search_run _ q sel).
    2: { rewrite reselect_other, finish_frame, reselect_other by done. exact Hq. }
    2: { apply reselect_selectedFilters. }
    rewrite reselect_other, finish_frame, reselect_other by done.
    destruct (index_read (db_value w !! "index")) as [index|]; [|done].
    cbn [mbind option_bind] in *.
    destruct (search_outcome q sel index) as [c|]; [|done].
    cbn [mbind option_bind] in *. f_equal.
    destruct c as [rs|e]; [|discriminate]. cbn [finish].
    destruct c0 as [rs0|e0]; cbn [finish snd].
    + f_equal. by apply shown_reselect_back.
    + by rewrite (reselect_back sel sel1 w Hsel).
Qed.

Lemma handleFilterSelect_twice_witness :
  ∃ r1, handleFilterSelect "about" "X" (env_of indexed) = Some r1 ∧
        db_value r1.2 !! "selectedFilters" =
          Some (VSelected [("about", ["X"]); ("educationalLevel", []); ("P126", [])]) ∧
        handleFilterSelect "about" "X" r1.2 = search (env_of indexed) ∧
        search (env_of indexed) = Some (Normal tt, shown [bildung; schule] (env_of indexed)).
Proof.
  destruct (handleFilterSelect_twice "about" "X" [] (env_of indexed) initFilters)
    as [Hfirst Hsame]; [reflexivity | reflexivity | apply not_elem_of_nil |].
  assert (handleFilterSelect "about" "X" (env_of indexed) =
          Some (Normal tt, shown [] (reselect (obj_set initFilters "about" ["X"])
                                              (env_of indexed)))) as Hrun
    by (vm_compute; reflexivity).
  assert (search (env_of indexed) =
          Some (Normal tt, shown [bildung; schule] (env_of indexed))) as Hsearch
    by (vm_compute; reflexivity).
  eexists. split; [exact Hrun|]. split; [by vm_compute|].
  split; [|exact Hsearch].
  destruct (Hsame _ Hrun) as [_ Htwice]. exact (Htwice _ Hsearch).
Defined.

(** ** Sequences of calls *)

Lemma createIndex_spec (index : Document.t) (w : Env) :
  createIndex index w = fillResults (loaded index w).
Proof. reflexivity. Qed.

Lemma loaded_other (index : Document.t) (w : Env) (k : string) :
  k ≠ "filters" → k ≠ "index" → k ≠ "initialized" →
  db_value (loaded index w) !! k = db_value w !! k.
Proof.
  intros. cbn. unfold Db.with_index, Db.with_filters. by simplify_map_eq.
Qed.

Lemma loaded_index (index : Document.t) (w : Env) :
  db_value (loaded index w) !! "index" = Some (VIndex (Some index)).
Proof. cbn. unfold Db.with_index, Db.with_filters. by simplify_map_eq. Qed.

Ltac names := first [done | tauto | (intros <-; tauto) | (intros ->; tauto)].

Section calls.
Context `{Runtime}.

(** A call leaves the properties it does not write. *)
Lemma call_frame (c : Call) (w : Env) (r : Completion unit * Env) (k : string) :
  call c w = Some r → k ∉ writes c → db_value r.2 !! k = db_value w !! k.
Proof.
  destruct r as [c' w']. cbn [snd].
  destruct c as [direction| | | |key order|key val|results|dbKey val|dbKey|index];
    cbn [call writes]; rewrite ?not_elem_of_cons; intros Hrun Hk.
  - unfold updatePagination, db_update in Hrun.
    destruct (db_value w !! "activePage") as [[]|]; try discriminate.
    injection Hrun as <- <-. cbn. unfold Db.with_activePage.
    rewrite lookup_insert_ne; [done | names].
  - rewrite resetFilters_spec in Hrun.
    apply fillResults_finish in Hrun as (c0 & -> & ->).
    rewrite finish_frame, cleared_other; names.
  - apply fillResults_finish in Hrun as (c0 & -> & ->).
    rewrite finish_frame; names.
  - apply search_finish in Hrun as (c0 & -> & ->).
    rewrite finish_frame; names.
  - destruct (sort_typed key order w _ Hrun) as [rs Hrs].
    rewrite (sort_spec key order w rs Hrs) in Hrun. injection Hrun as <- <-.
    rewrite shown_other by names. cbn. unfold Db.with_sort.
    rewrite lookup_insert_ne; [done | names].
  - destruct (handleFilterSelect_typed key val w _ Hrun) as [sel Hsel].
    rewrite (handleFilterSelect_spec key val w sel Hsel) in Hrun.
    destruct (obj_get sel key) as [current|].
    + apply search_finish in Hrun as (c0 & -> & ->).
      rewrite finish_frame, reselect_other; names.
    + by injection Hrun as <- <-.
  - rewrite updateResults_run in Hrun. injection Hrun as <- <-.
    rewrite shown_other; names.
  - apply toggleSelected_cases in Hrun
      as [[_ ->]|[_ [(current & _ & ->)|(s & _ & ->)]]]; [done|..];
      rewrite persisted_other; names.
  - rewrite resetSelected_spec in Hrun. injection Hrun as <- <-.
    rewrite persisted_other; names.
  - rewrite createIndex_spec in Hrun.
    apply fillResults_finish in Hrun as (c0 & -> & ->).
    rewrite finish_frame, loaded_other; names.
Qed.

(** Only [toggleSelected] and [resetSelected] write the storage, and
    only the entry of the key they name. *)
Lemma call_storage (c : Call) (w : Env) (r : Completion unit * Env) (k : string) :
  call c w = Some r → addresses c ≠ Some k →
  localStorage r.2 !! storageKey k = localStorage w !! storageKey k.
Proof.
  destruct r as [c' w']. cbn [snd].
  destruct c as [direction| | | |key order|key val|results|dbKey val|dbKey|index];
    cbn [call addresses]; intros Hrun Hk.
  - unfold updatePagination, db_update in Hrun.
    destruct (db_value w !! "activePage") as [[]|]; try discriminate.
    by injection Hrun as <- <-.
  - rewrite resetFilters_spec in Hrun.
    apply fillResults_finish in Hrun as (c0 & -> & ->). by rewrite finish_storage.
  - apply fillResults_finish in Hrun as (c0 & -> & ->). by rewrite finish_storage.
  - apply search_finish in Hrun as (c0 & -> & ->). by rewrite finish_storage.
  - destruct (sort_typed key order w _ Hrun) as [rs Hrs].
    rewrite (sort_spec key order w rs Hrs) in Hrun. by injection Hrun as <- <-.
  - destruct (handleFilterSelect_typed key val w _ Hrun) as [sel Hsel].
    rewrite (handleFilterSelect_spec key val w sel Hsel) in Hrun.
    destruct (obj_get sel key) as [current|].
    + apply search_finish in Hrun as (c0 & -> & ->). by rewrite finish_storage.
    + by injection Hrun as <- <-.
  - rewrite updateResults_run in Hrun. by injection Hrun as <- <-.
  - assert (k ≠ dbKey) as Hne by congruence.
    apply toggleSelected_cases in Hrun
      as [[_ ->]|[_ [(current & _ & ->)|(s & _ & ->)]]]; [done|..];
      by rewrite persisted_storage_other.
  - assert (k ≠ dbKey) as Hne by congruence.
    rewrite resetSelected_spec in Hrun. injection Hrun as <- <-.
    by rewrite persisted_storage_other.
  - rewrite createIndex_spec in Hrun.
    apply fillResults_finish in Hrun as (c0 & -> & ->). by rewrite finish_storage.
Qed.

Lemma leaves_to_selection_cases (k : string) (c : Call) :
  leaves_to_selection k c →
  ((k ∉ writes c) ∧ addresses c ≠ Some k) ∨ addresses c = Some k.
Proof.
  unfold leaves_to_selection. intros Hc.
  destruct (decide (k ∈ writes c)) as [Hin|Hout]; [by right; apply Hc|].
  left. split; [done|]. intros Heq. apply Hout.
  destruct c; try discriminate; cbn in *; injection Heq as ->; by left.
Qed.

(** A name that no operation writes by itself is left to
    [toggleSelected] and [resetSelected] in every call. *)
Lemma leaves_to_selection_free (k : string) (c : Call) :
  k ∉ ["query"; "sort"; "selectedFilters"; "results"; "activePage";
       "filters"; "index"; "initialized"] →
  leaves_to_selection k c.
Proof.
  rewrite !not_elem_of_cons. intros Hk. unfold leaves_to_selection.
  destruct c; cbn [writes addresses]; rewrite ?elem_of_cons, ?elem_of_nil;
    intuition congruence.
Qed.

Lemma persisted_in_step (k : string) (updated : list string) (w : Env) :
  in_step_at k (persisted k updated w).
Proof.
  intros text. rewrite persisted_storage, persisted_selection.
  intros [= <-]. eauto.
Qed.

Lemma call_in_step (c : Call) (w : Env) (r : Completion unit * Env) (k : string) :
  call c w = Some r → leaves_to_selection k c → in_step_at k w → in_step_at k r.2.
Proof.
  intros Hrun Hc Hw.
  destruct (leaves_to_selection_cases k c Hc) as [[Hout Hother]|Hk].
  - intros text. rewrite (call_storage c w r k Hrun Hother), (call_frame c w r k Hrun Hout).
    apply Hw.
  - destruct r as [c' w']. cbn [snd].
    destruct c; try discriminate; cbn [addresses call] in *; injection Hk as ->.
    + apply toggleSelected_cases in Hrun
        as [[_ ->]|[_ [(current & _ & ->)|(s & _ & ->)]]]; [done|..];
        apply persisted_in_step.
    + rewrite resetSelected_spec in Hrun. injection Hrun as <- <-.
      apply persisted_in_step.
Qed.

Lemma call_dup_free (c : Call) (w : Env) (r : Completion unit * Env) (k : string) :
  call c w = Some r → leaves_to_selection k c → dup_free_at k w → dup_free_at k r.2.
Proof.
  intros Hrun Hc (ids & Hids & Hnodup).
  destruct (leaves_to_selection_cases k c Hc) as [[Hout Hother]|Hk].
  - exists ids. by rewrite (call_frame c w r k Hrun Hout).
  - destruct r as [c' w']. cbn [snd].
    destruct c; try discriminate; cbn [addresses call] in *; injection Hk as ->.
    + rewrite (toggleSelected_spec k val w ids Hids) in Hrun. injection Hrun as <- <-.
      exists (toggled val ids). split; [apply persisted_selection|].
      by apply toggled_NoDup.
    + rewrite resetSelected_spec in Hrun. injection Hrun as <- <-.
      exists []. split; [apply persisted_selection | constructor].
Qed.

Lemma after_calls_ind (P : Env → Prop) (Q : Call → Prop) (cs : list Call) (w w' : Env) :
  (∀ c w r, Q c → call c w = Some r → P w → P r.2) →
  after_calls cs w = Some w' → Forall Q cs → P w → P w'.
Proof.
  intros Hstep. revert w. induction cs as [|c cs IH]; intros w Hrun Hcs Hw.
  - cbn in Hrun. by injection Hrun as <-.
  - apply Forall_cons in Hcs as [Hc Hcs]. cbn [after_calls] in Hrun. unfold after in Hrun.
    destruct (call c w) as [r|] eqn:Hcall; [|discriminate]. cbn in Hrun.
    apply (IH r.2 Hrun Hcs). by apply (Hstep c w r).
Qed.

(** A sequence of calls leaves every property of the store value
    that none of its calls writes, whether the calls complete or throw;
    [toggleSelected] and [resetSelected] write the property they are
    given, whatever its name. *)
Theorem calls_keep_configuration (cs : list Call) (w w' : Env) (k : string) :
  after_calls cs w = Some w' →
  Forall (λ c, k ∉ writes c) cs →
  db_value w' !! k = db_value w !! k.
Proof.
  intros Hrun Hcs.
  apply (after_calls_ind (λ v, db_value v !! k = db_value w !! k)
           (λ c, k ∉ writes c) cs w w'); [|done..].
  intros c v r Hc Hcall <-. by apply (call_frame c v r k).
Qed.

(** When only [toggleSelected] and [resetSelected] write the
    property [k] in a sequence of calls, the storage entry of [k] stays
    the text of the array the store holds under [k]. *)
Theorem calls_keep_storage_in_step (cs : list Call) (w w' : Env) (k : string) :
  after_calls cs w = Some w' →
  Forall (leaves_to_selection k) cs →
  in_step_at k w → in_step_at k w'.
Proof.
  intros Hrun Hcs.
  apply (after_calls_ind (in_step_at k) (leaves_to_selection k) cs w w'); [|done..].
  intros c v r Hc Hcall. by apply (call_in_step c v r k).
Qed.

(** When only [toggleSelected] and [resetSelected] write the
    property [k] in a sequence of calls, an array of strings without
    duplicates under [k] stays one. *)
Theorem calls_keep_selection_nodup (cs : list Call) (w w' : Env) (k : string) :
  after_calls cs w = Some w' →
  Forall (leaves_to_selection k) cs →
  dup_free_at k w → dup_free_at k w'.
Proof.
  intros Hrun Hcs.
  apply (after_calls_ind (dup_free_at k) (leaves_to_selection k) cs w w'); [|done..].
  intros c v r Hc Hcall. by apply (call_dup_free c v r k).
Qed.

End calls.

Lemma visit_leaves_to_selection : Forall (leaves_to_selection "selectedVocabs") visit.
Proof.
  apply Forall_forall. intros c _. apply leaves_to_selection_free.
  by apply (bool_decide_unpack _).
Qed.

Lemma calls_keep_configuration_witness :
  ∃ w', @after_calls example_runtime visit start = Some w' ∧
        db_value w' !! "resultsPerPage" = Some (VNum 10) ∧
        db_value w' !! "initizialized" = Some (VBool false).
Proof.
  destruct (@after_calls example_runtime visit start) as [w'|] eqn:Hrun;
    [|vm_compute in Hrun; discriminate Hrun].
  exists w'. split; [reflexivity|]. split.
  - rewrite (@calls_keep_configuration example_runtime visit start w' "resultsPerPage" Hrun);
      [reflexivity|]. apply (bool_decide_unpack _). by vm_compute.
  - rewrite (@calls_keep_configuration example_runtime visit start w' "initizialized" Hrun);
      [reflexivity|]. apply (bool_decide_unpack _). by vm_compute.
Defined.

Lemma calls_keep_storage_in_step_witness :
  ∃ w', @after_calls example_runtime visit start = Some w' ∧
        in_step_at "selectedVocabs" w' ∧
        localStorage w' !! storageKey "selectedVocabs" =
          Some (stringify_updated "selectedVocabs" ["7"]).
Proof.
  destruct (@after_calls example_runtime visit start) as [w'|] eqn:Hrun;
    [|vm_compute in Hrun; discriminate Hrun].
  exists w'. split; [reflexivity|]. split.
  - apply (@calls_keep_storage_in_step example_runtime visit start w' "selectedVocabs" Hrun);
      [apply visit_leaves_to_selection|].
    intros text Hentry. vm_compute in Hentry. discriminate Hentry.
  - vm_compute in Hrun. injection Hrun as <-. by vm_compute.
Defined.

Lemma calls_keep_selection_nodup_witness :
  ∃ w', @after_calls example_runtime visit start = Some w' ∧
        dup_free_at "selectedVocabs" w'.
Proof.
  destruct (@after_calls example_runtime visit start) as [w'|] eqn:Hrun;
    [|vm_compute in Hrun; discriminate Hrun].
  exists w'. split; [reflexivity|].
  apply (@calls_keep_selection_nodup example_runtime visit start w' "selectedVocabs" Hrun);
    [apply visit_leaves_to_selection|].
  exists []. split; [reflexivity | constructor].
Defined.

(** Toggling the results away: a call that is given a property the
    module itself writes falls outside the last two properties, and the
    page then reads strings where it had records. *)
Example toggleSelected_results :
  toggleSelected "results" "42" start =
    Some (Normal tt, persisted "results" ["42"] start) ∧
  ¬ leaves_to_selection "results" CallFillResults.
Proof.
  split; [reflexivity|]. intros Hc. discriminate Hc. by left.
Qed.

(** ** The calls return *)

Ltac kind := unfold kind_ok; repeat (case_decide; try done); eauto.

Lemma kind_ok_other (k : string) (v : Value) :
  k ∉ read_names → (∀ l, v = VArr l → is_Some (strings_of l)) → kind_ok k v.
Proof.
  unfold read_names. rewrite !not_elem_of_cons. intros Hk Hv.
  unfold kind_ok. repeat (case_decide; [tauto|]). done.
Qed.

Lemma kind_ok_strings (k : string) (l : list Elem) :
  k ∉ read_names → kind_ok k (VArr l) → is_Some (strings_of l).
Proof.
  unfold read_names. rewrite !not_elem_of_cons. intros Hk.
  unfold kind_ok. repeat (case_decide; [tauto|]). eauto.
Qed.

Lemma typed_write (k : string) (v : Value) (d : Db.t) :
  typed d → kind_ok k v → typed (<[k := v]> d).
Proof.
  intros [Hsome Hall] Hv. split.
  - intros n Hn. destruct (decide (n = k)) as [->|Hne].
    + rewrite lookup_insert_eq. eauto.
    + rewrite lookup_insert_ne by done. by apply Hsome.
  - by apply map_Forall_insert_2.
Qed.

Lemma typed_read (k : string) (d : Db.t) :
  typed d → k ∈ read_names → ∃ v, d !! k = Some v ∧ kind_ok k v.
Proof.
  intros [Hsome Hall] Hk. destruct (Hsome k Hk) as [v Hv].
  exists v. split; [done|]. by apply (Hall k v).
Qed.

Lemma typed_page (d : Db.t) :
  typed d → ∃ page, d !! "activePage" = Some (VNum page).
Proof.
  intros Hd. destruct (typed_read "activePage" d Hd) as (v & Hv & Hkind);
    [by apply (bool_decide_unpack _)|].
  revert Hkind. unfold kind_ok. rewrite decide_True by done. intros [page ->]; eauto.
Qed.

Lemma typed_query (d : Db.t) :
  typed d → ∃ q, d !! "query" = Some (VStr q).
Proof.
  intros Hd. destruct (typed_read "query" d Hd) as (v & Hv & Hkind);
    [by apply (bool_decide_unpack _)|].
  revert Hkind. unfold kind_ok. rewrite decide_False, decide_True by done.
  intros [q ->]; eauto.
Qed.

Lemma typed_selectedFilters (d : Db.t) :
  typed d → ∃ sel, d !! "selectedFilters" = Some (VSelected sel).
Proof.
  intros Hd. destruct (typed_read "selectedFilters" d Hd) as (v & Hv & Hkind);
    [by apply (bool_decide_unpack _)|].
  revert Hkind. unfold kind_ok. rewrite !decide_False, decide_True by done.
  intros [sel ->]; eauto.
Qed.

Lemma typed_results (d : Db.t) :
  typed d → ∃ rs, d !! "results" = Some (VArr (EDoc <$> rs)).
Proof.
  intros Hd. destruct (typed_read "results" d Hd) as (v & Hv & Hkind);
    [by apply (bool_decide_unpack _)|].
  revert Hkind. unfold kind_ok. rewrite !decide_False, decide_True by done.
  intros [rs ->]; eauto.
Qed.

Lemma typed_index (d : Db.t) :
  typed d → ∃ index, d !! "index" = Some (VIndex index) ∧ resolves index.
Proof.
  intros Hd. destruct (typed_read "index" d Hd) as (v & Hv & Hkind);
    [by apply (bool_decide_unpack _)|].
  revert Hkind. unfold kind_ok. rewrite !decide_False, decide_True by done.
  intros (index & -> & Hres); eauto.
Qed.

Lemma typed_shown (rs : list Doc) (w : Env) :
  typed (db_value w) → typed (db_value (shown rs w)).
Proof.
  intros Hw. cbn. unfold Db.with_activePage, Db.with_results.
  repeat (apply typed_write; [|kind]). done.
Qed.

Lemma typed_finish (c : Completion (list Doc)) (w : Env) :
  typed (db_value w) → typed (db_value (finish c w).2).
Proof. intros Hw. destruct c; [by apply typed_shown | done]. Qed.

Lemma typed_reselect (sel : Obj (list string)) (w : Env) :
  typed (db_value w) → typed (db_value (reselect sel w)).
Proof. intros Hw. apply typed_write; [done | kind]. Qed.

Lemma typed_cleared (w : Env) : typed (db_value w) → typed (db_value (cleared w)).
Proof.
  intros Hw. cbn. unfold Db.with_selectedFilters, Db.with_sort, Db.with_query.
  repeat (apply typed_write; [|kind]). done.
Qed.

Lemma typed_loaded (index : Document.t) (w : Env) :
  typed (db_value w) → resolves (Some index) → typed (db_value (loaded index w)).
Proof.
  intros Hw Hres. cbn. unfold Db.with_index, Db.with_filters.
  repeat (apply typed_write; [|kind]). done.
Qed.

Lemma typed_persisted (dbKey : string) (updated : list string) (w : Env) :
  typed (db_value w) → dbKey ∉ read_names →
  typed (db_value (persisted dbKey updated w)).
Proof.
  intros Hw Hk. apply typed_write; [done|].
  apply kind_ok_other; [done|]. intros l [= <-]. by rewrite strings_of_fmap.
Qed.

Lemma db_typed : typed db.
Proof.
  split.
  - intros k Hk. unfold read_names in Hk.
    rewrite !elem_of_cons, elem_of_nil in Hk.
    destruct Hk as [->|[->|[->|[->|[->|[]]]]]]; by eexists.
  - unfold db. apply map_Forall_to_list.
    rewrite map_to_list_to_map by (by apply (bool_decide_unpack _)).
    repeat first [apply Forall_nil_2 | apply Forall_cons_2]; cbn; kind.
    all: try (intros l [= <-]; by eexists).
    + by exists [].
    + exists None. split; [done|]. by intros ix.
Qed.

Lemma search_outcome_resolves (q : string) (sel : Obj (list string))
    (index : option Document.t) :
  resolves index → is_Some (search_outcome q sel index).
Proof.
  intros Hres. unfold search_outcome. destruct (decide (unfiltered q sel)); [by eexists|].
  destruct index as [ix|]; [|by eexists].
  destruct (Hres ix eq_refl q sel) as [groupedResults ->]. by eexists.
Qed.

Lemma fillResults_returns (w : Env) :
  typed (db_value w) → ∃ r, fillResults w = Some r ∧ typed (db_value r.2).
Proof.
  intros Hw. destruct (typed_index _ Hw) as (index & Hix & _).
  rewrite (fillResults_spec w index Hix). eexists. split; [done|].
  by apply typed_finish.
Qed.

Lemma search_returns (w : Env) :
  typed (db_value w) → ∃ r, search w = Some r ∧ typed (db_value r.2).
Proof.
  intros Hw. destruct (typed_index _ Hw) as (index & Hix & Hres).
  destruct (typed_query _ Hw) as [q Hq].
  destruct (typed_selectedFilters _ Hw) as [sel Hsel].
  rewrite (search_spec w q sel index Hq Hsel Hix).
  destruct (search_outcome_resolves q sel index Hres) as [c ->].
  eexists. split; [done|]. by apply typed_finish.
Qed.

Section returns.
Context `{Runtime}.

Lemma call_returns (c : Call) (w : Env) :
  typed (db_value w) → in_kind c → ∃ r, call c w = Some r ∧ typed (db_value r.2).
Proof.
  intros Hw Hc.
  destruct c as [direction| | | |key order|key val|results|dbKey val|dbKey|index];
    cbn [call in_kind] in *.
  - destruct (typed_page _ Hw) as [page Hpage].
    rewrite (updatePagination_run direction page w Hpage).
    eexists. split; [done|]. apply typed_write; [done | kind].
  - rewrite resetFilters_spec. by apply fillResults_returns, typed_cleared.
  - by apply fillResults_returns.
  - by apply search_returns.
  - destruct (typed_results _ Hw) as [rs Hrs].
    rewrite (sort_spec key order w rs Hrs). eexists. split; [done|].
    apply typed_shown. apply typed_write; [done | kind].
  - destruct (typed_selectedFilters _ Hw) as [sel Hsel].
    rewrite (handleFilterSelect_spec key val w sel Hsel).
    destruct (obj_get sel key) as [current|]; [|by eexists].
    by apply search_returns, typed_reselect.
  - rewrite updateResults_run. eexists. split; [done|]. by apply typed_shown.
  - rewrite toggleSelected_run.
    destruct (db_value w !! dbKey) as [[n|s|b|l|st|fs|sl|index]|] eqn:Hcur;
      try by eexists.
    + destruct (str_includes val s); [by eexists|].
      eexists. split; [done|]. by apply typed_persisted.
    + destruct (kind_ok_strings dbKey l Hc) as [current ->].
      { destruct Hw as [_ Hall]. by apply (Hall dbKey). }
      eexists. split; [done|]. by apply typed_persisted.
  - rewrite resetSelected_spec. eexists. split; [done|]. by apply typed_persisted.
  - rewrite createIndex_spec. by apply fillResults_returns, typed_loaded.
Qed.

(** The initial store value has the properties the operations read,
    each of its kind.  From such a store value every exported operation
    returns, normally or with a [TypeError], and leaves such a store
    value; so does every sequence of calls that gives [toggleSelected]
    and [resetSelected] none of the properties the operations read and
    [createIndex] an index that resolves its hits. *)
Theorem calls_return (cs : list Call) (w : Env) :
  typed (db_value w) → Forall in_kind cs →
  typed db ∧ ∃ w', after_calls cs w = Some w' ∧ typed (db_value w').
Proof.
  intros Hw Hcs. split; [apply db_typed|].
  revert w Hw. induction Hcs as [|c cs Hc Hcs IH]; intros w Hw; [by exists w|].
  destruct (call_returns c w Hw Hc) as (r & Hrun & Hr).
  destruct (IH r.2 Hr) as (w' & Hrest & Hw').
  exists w'. split; [|done]. cbn [after_calls]. unfold after. by rewrite Hrun.
Qed.

End returns.

Lemma toy_index_resolves : resolves (Some toy_index).
Proof.
  intros ix [= <-] q sel. unfold Document.search, options.
  cbn [opt_enrich Document.hits toy_index]. unfold toy_hits.
  destruct (_ && _); by eexists.
Qed.

Lemma visit_in_kind : Forall in_kind visit.
Proof.
  unfold visit. repeat first [apply Forall_nil_2 | apply Forall_cons_2];
    cbn [in_kind]; try done; try (by apply (bool_decide_unpack _)).
  apply toy_index_resolves.
Qed.

Lemma calls_return_witness :
  ∃ w', @after_calls example_runtime visit start = Some w' ∧ typed (db_value w').
Proof. exact (proj2 (@calls_return example_runtime visit start db_typed visit_in_kind)). Defined.

(** ** Sorting again, and by other words *)

Section array_sort_more.
Context {A : Type}.
Local Close Scope string_scope.
Implicit Types (l a : list A).

Lemma run_rest_ext (f g : A → A → Z) (descending : bool) l :
  (∀ x y, f x y = g x y) →
  ∀ prev, run_rest f descending prev l = run_rest g descending prev l.
Proof.
  intros Hfg. induction l as [|cur l IH]; intros prev; cbn [run_rest]; [done|].
  by rewrite Hfg, IH.
Qed.

Lemma pivot_slot_ext (f g : A → A → Z) (pivot : A) a :
  (∀ x y, f x y = g x y) →
  ∀ fuel left right,
    pivot_slot f pivot a fuel left right = pivot_slot g pivot a fuel left right.
Proof.
  intros Hfg. induction fuel as [|fuel IH]; intros left right; cbn [pivot_slot]; [done|].
  destruct (left <? right)%nat; [|done].
  destruct (a !! _); [|done]. by rewrite Hfg, !IH.
Qed.

Lemma array_sort_ext (f g : A → A → Z) l :
  (∀ x y, f x y = g x y) → array_sort f l = array_sort g l.
Proof.
  intros Hfg. unfold array_sort, count_and_make_run.
  destruct l as [|x0 [|x1 rest]]; [done | done |].
  rewrite Hfg, (run_rest_ext f g _ rest Hfg).
  destruct (run_rest g _ x1 rest) as [run others].
  generalize (if g x1 x0 <? 0 then reverse (x0 :: x1 :: run) else x0 :: x1 :: run).
  induction others as [|p others IH]; intros sorted; [done|].
  cbn [fold_left]. rewrite <- IH. f_equal.
  unfold binary_insert. by rewrite (pivot_slot_ext f g p sorted Hfg).
Qed.

Context (comparefn : A → A → Z).

Lemma run_rest_whole l :
  ∀ prev, Sorted (step comparefn false) (prev :: l) →
          run_rest comparefn false prev l = (l, []).
Proof.
  induction l as [|cur l IH]; intros prev Hchain; cbn [run_rest]; [done|].
  apply Sorted_inv in Hchain as [Htail Hhd]. apply HdRel_inv in Hhd.
  unfold step in Hhd.
  destruct (Z.ltb_spec (comparefn cur prev) 0) as [?|_]; [lia|].
  by rewrite (IH cur Htail).
Qed.

(** A list in which no element compares below the one before it comes
    back as it is. *)
Lemma array_sort_chain l :
  Sorted (step comparefn false) l → array_sort comparefn l = l.
Proof.
  intros Hchain. unfold array_sort, count_and_make_run.
  destruct l as [|x0 [|x1 rest]]; [done | done |].
  apply Sorted_inv in Hchain as [Htail Hhd]. apply HdRel_inv in Hhd.
  unfold step in Hhd.
  destruct (Z.ltb_spec (comparefn x1 x0) 0) as [?|_]; [lia|].
  by rewrite (run_rest_whole rest x1 Htail).
Qed.

Lemma strongly_sorted_chain (S : A → Prop) l :
  consistent_on comparefn S → Forall S l →
  StronglySorted (ordered comparefn) l → Sorted (step comparefn false) l.
Proof.
  intros HS HSl Hsorted. induction Hsorted as [|x l _ IH Hx]; [constructor|].
  apply Forall_cons in HSl as [HSx HSl]. constructor; [by apply IH|].
  destruct l as [|y l]; constructor.
  apply Forall_cons in Hx as [Hxy _]. apply Forall_cons in HSl as [HSy _].
  unfold step, ordered in *.
  destruct (Z.eq_dec (comparefn x y) 0) as [Heq|Hne].
  - rewrite (cons_sym comparefn S HS x y); done.
  - pose proof (cons_lt_gt comparefn S HS x y HSx HSy). lia.
Qed.

Lemma array_sort_twice l :
  consistent comparefn l →
  array_sort comparefn (array_sort comparefn l) = array_sort comparefn l.
Proof.
  intros Hcons. apply array_sort_chain.
  destruct (array_sort_spec comparefn (λ z, z ∈ l) Hcons l) as [Hsorted _].
  { by apply Forall_forall. }
  apply (strongly_sorted_chain (λ z, z ∈ l)); [done | | done].
  apply Forall_forall. intros z Hz. by rewrite <- (array_sort_perm comparefn l).
Qed.

Lemma all_equal_chain l :
  (∀ x y, x ∈ l → y ∈ l → comparefn x y = 0) → Sorted (step comparefn false) l.
Proof.
  induction l as [|x l IH]; intros Hzero; [constructor|].
  constructor.
  - apply IH. intros y z Hy Hz. apply Hzero; by right.
  - destruct l as [|y l]; constructor. unfold step.
    rewrite Hzero; [done | right; by left | by left].
Qed.

End array_sort_more.

Section sort_more.
Context `{Runtime}.

Lemma compare_ascending (key o : string) (a b : Doc) :
  o ≠ "desc" → compare key o a b = compare key "asc" a b.
Proof.
  intros Hne. unfold compare.
  rewrite (bool_decide_eq_false_2 (o = "desc")) by done.
  by rewrite (bool_decide_eq_false_2 ("asc" = "desc")).
Qed.

(** [sort] without an order sorts as with [asc]; the order [desc] is
    taken in any letter case; every other word, [descending] too, leaves
    the results in ascending order, while the word itself, in lower case,
    is stored as the order of the sort state. *)
Theorem sort_order_words (key : string) (w : Env) :
  sort key None w = sort key (Some "asc") w ∧
  (∀ o, toLowerCase o = "desc" → sort key (Some o) w = sort key (Some "desc") w) ∧
  (∀ o rs, toLowerCase o ≠ "desc" →
     db_value w !! "results" = Some (VArr (EDoc <$> rs)) →
     ∃ w1 w2,
       sort key (Some o) w = Some (Normal tt, w1) ∧
       sort key (Some "asc") w = Some (Normal tt, w2) ∧
       db_value w1 !! "results" = db_value w2 !! "results" ∧
       db_value w1 !! "results" =
         Some (VArr (EDoc <$> array_sort (compare key "asc") rs)) ∧
       db_value w1 !! "sort" =
         Some (VSort {| sort_key := key; sort_order := toLowerCase o |})).
Proof.
  split; [reflexivity|]. split.
  - intros o Ho. unfold sort. change (default "asc" (Some o)) with o.
    rewrite Ho. reflexivity.
  - intros o rs Ho Hrs. rewrite !(sort_spec _ _ w rs Hrs). eexists _, _.
    split; [done|]. split; [done|]. rewrite !shown_results.
    change (default "asc" (Some o)) with o.
    change (toLowerCase (default "asc" (Some "asc"))) with "asc".
    assert (array_sort (compare key (toLowerCase o)) rs =
            array_sort (compare key "asc") rs) as ->.
    { apply array_sort_ext. intros a b. by apply compare_ascending. }
    split; [done|]. split; [done|].
    rewrite shown_other by done. cbn. unfold Db.with_sort. by simplify_map_eq.
Qed.

(** Sorting by a key that no record of the results has (or has only as
    null) leaves the results in their order; the page goes to 0 and the
    sort state takes the key. *)
Theorem sort_by_missing_key (key : string) (order : option string) (w : Env)
    (rs : list Doc) :
  db_value w !! "results" = Some (VArr (EDoc <$> rs)) →
  Forall (λ e, is_nullish (prop e key) = true) rs →
  ∃ w',
    sort key order w = Some (Normal tt, w') ∧
    db_value w' !! "results" = Some (VArr (EDoc <$> rs)) ∧
    db_value w' !! "activePage" = Some (VNum 0) ∧
    db_value w' !! "sort" =
      Some (VSort {| sort_key := key; sort_order := toLowerCase (default "asc" order) |}).
Proof.
  intros Hrs Hnull. rewrite (sort_spec key order w rs Hrs). eexists.
  split; [done|]. rewrite shown_results, shown_page. split; [|split; [done|]].
  - do 3 f_equal. apply array_sort_chain, all_equal_chain. intros a b Ha _.
    apply compare_null. left. rewrite Forall_forall in Hnull. by apply Hnull.
  - rewrite shown_other by done. cbn. unfold Db.with_sort. by simplify_map_eq.
Qed.

(** When the comparator is consistent on the results, [sort] completes
    and sorting a second time by the same key and order changes
    nothing. *)
Theorem sort_twice (key : string) (order : option string) (w : Env) (rs : list Doc) :
  db_value w !! "results" = Some (VArr (EDoc <$> rs)) →
  consistent (compare key (toLowerCase (default "asc" order))) rs →
  ∃ w', sort key order w = Some (Normal tt, w') ∧
        sort key order w' = Some (Normal tt, w').
Proof.
  intros Hrs Hcons. rewrite (sort_spec key order w rs Hrs). eexists. split; [done|].
  rewrite (sort_spec key order _ _ (shown_results _ _)).
  rewrite (array_sort_twice _ _ Hcons). do 2 f_equal.
  unfold shown. cbn. f_equal.
  unfold Db.with_activePage, Db.with_results, Db.with_sort.
  rewrite (insert_insert_ne _ "sort" "activePage") by done.
  rewrite (insert_insert_ne _ "sort" "results") by done.
  rewrite !insert_insert_eq.
  rewrite (insert_insert_ne _ "results" "activePage") by done.
  by rewrite !insert_insert_eq.
Qed.

End sort_more.

Lemma sort_by_missing_key_witness :
  ∃ w',
    @sort example_runtime "name" None
      (env_of (Db.with_results [bildung; schule; person] indexed)) = Some (Normal tt, w') ∧
    db_value w' !! "results" = Some (VArr (EDoc <$> [bildung; schule; person])).
Proof.
  destruct (@sort_by_missing_key example_runtime "name" None
              (env_of (Db.with_results [bildung; schule; person] indexed))
              [bildung; schule; person] eq_refl) as (w' & Hrun & Hres & _).
  - repeat constructor.
  - by exists w'.
Defined.

Lemma sort_twice_witness :
  ∃ w',
    @sort example_runtime "issued" None (env_of (Db.with_results years db))
      = Some (Normal tt, w') ∧
    @sort example_runtime "issued" None w' = Some (Normal tt, w').
Proof.
  apply (@sort_twice example_runtime "issued" None _ years); [reflexivity|].
  apply compare_numbers_consistent.
  repeat constructor; eexists; reflexivity.
Defined.

(** The word [descending] is not [desc]: the years come out ascending. *)
Example sort_descending_word :
  names <$> results_after (@sort example_runtime "issued" (Some "descending"))
                          (env_of (Db.with_results years db))
    = Some [JStr "f"; JStr "e"; JStr "g"; JStr "a"].
Proof. vm_compute. reflexivity. Qed.

(** ** The filter catalogue *)

Lemma same_value_eq (a b : JSVal) : same_value a b = true → a = b.
Proof.
  destruct a, b; cbn; try discriminate; intros Heq;
    by apply bool_decide_eq_true in Heq.
Qed.

Lemma same_value_primitive (a b : JSVal) :
  is_array a = false → is_array b = false →
  same_value a b = bool_decide (a = b).
Proof. by destruct a, b. Qed.

Lemma JsSet_of_values_snoc (vs : list JSVal) (v : JSVal) :
  JsSet.of_values (vs ++ [v]) = JsSet.add v (JsSet.of_values vs).
Proof. unfold JsSet.of_values. by rewrite fold_left_app. Qed.

Lemma JsSet_add_elem (v x : JSVal) (s : list JSVal) :
  x ∈ JsSet.add v s ↔ x = v ∨ x ∈ s.
Proof.
  unfold JsSet.add. destruct (existsb (same_value v) s) eqn:Hex.
  - split; [by right|]. intros [->|?]; [|done].
    apply existsb_exists in Hex as (y & Hy & Hsame).
    apply same_value_eq in Hsame as ->. by apply list_elem_of_In.
  - rewrite elem_of_app, list_elem_of_singleton. tauto.
Qed.

Lemma JsSet_of_values_elem (vs : list JSVal) (x : JSVal) :
  x ∈ JsSet.of_values vs ↔ x ∈ vs.
Proof.
  induction vs as [|v vs IH] using rev_ind.
  - done.
  - rewrite JsSet_of_values_snoc, JsSet_add_elem, IH, elem_of_app, list_elem_of_singleton.
    tauto.
Qed.

Lemma JsSet_of_values_distinct (vs : list JSVal) :
  NoDup (List.filter (fun v => negb (is_array v)) (JsSet.of_values vs)).
Proof.
  induction vs as [|v vs IH] using rev_ind; [constructor|].
  rewrite JsSet_of_values_snoc. unfold JsSet.add.
  destruct (existsb (same_value v) (JsSet.of_values vs)) eqn:Hex; [done|].
  rewrite List.filter_app. cbn [List.filter].
  destruct (is_array v) eqn:Harr; cbn [negb]; [by rewrite app_nil_r|].
  apply NoDup_app. split; [done|]. split; [|apply NoDup_singleton].
  intros x Hx ->%list_elem_of_singleton.
  apply list_elem_of_In, filter_In in Hx as [Hx Hprim].
  assert (existsb (same_value v) (JsSet.of_values vs) = true) as Hyes; [|congruence].
  apply existsb_exists. exists v. split; [done|].
  rewrite same_value_primitive by done. by apply bool_decide_eq_true_2.
Qed.

Lemma flat_values_elem (vs : list JSVal) (v : JSVal) :
  v ∈ flat_values vs ↔ ∃ u, u ∈ vs ∧ given_by u v.
Proof.
  unfold flat_values, flat. induction vs as [|u vs IH]; cbn [map concat].
  - split; [by intros ?%elem_of_nil | by intros (? & ?%elem_of_nil & _)].
  - rewrite elem_of_app, IH. split.
    + intros [Hu|(u' & Hu' & Hv)].
      * exists u. split; [by left|]. destruct u; cbn;
          try (by apply list_elem_of_singleton in Hu). done.
      * exists u'. split; [by right | done].
    + intros (u' & [->|Hu']%elem_of_cons & Hv).
      * left. destruct u; cbn in *; try (by apply list_elem_of_singleton). done.
      * right. eauto.
Qed.

Lemma createFilterOptions_entries (index : Document.t) :
  createFilterOptions index =
  map (fun k => (k, JsSet.of_values (facet_values index k))) config.filterKeys.
Proof. reflexivity. Qed.

(** The catalogue has the configured facet keys, in their order.  Under
    a key it lists the values the stored records have there, an array
    giving its elements: a value is listed exactly when it is not
    [undefined] and some stored record gives it. *)
Theorem createFilterOptions_values (index : Document.t) :
  map fst (createFilterOptions index) = config.filterKeys ∧
  ∀ k, k ∈ config.filterKeys →
    ∃ options,
      obj_get (createFilterOptions index) k = Some options ∧
      ∀ v, v ∈ options ↔
           v ≠ JUndefined ∧
           ∃ e, e ∈ values (Document.store index) ∧ given_by (prop e k) v.
Proof.
  split; [reflexivity|]. intros k Hk.
  exists (JsSet.of_values (facet_values index k)). split.
  - rewrite createFilterOptions_entries. unfold config.filterKeys in *.
    rewrite !elem_of_cons, elem_of_nil in Hk.
    destruct Hk as [->|[->|[->|[]]]]; reflexivity.
  - intros v. rewrite JsSet_of_values_elem. unfold facet_values.
    rewrite list_elem_of_In, filter_In, <- list_elem_of_In, flat_values_elem.
    split.
    + intros [(u & Hu & Hgiven) Hdef].
      split; [by destruct v|].
      apply list_elem_of_In, in_map_iff in Hu as (e & <- & He).
      exists e. split; [by apply list_elem_of_In | done].
    + intros [Hdef (e & He & Hgiven)]. split; [|by destruct v].
      exists (prop e k). split; [|done].
      apply list_elem_of_In, in_map_iff. exists e.
      split; [done | by apply list_elem_of_In].
Qed.

(** Under every key of the catalogue no string, number, boolean or null
    is listed twice. *)
Theorem createFilterOptions_distinct (index : Document.t) (k : string) (options : list JSVal) :
  obj_get (createFilterOptions index) k = Some options →
  NoDup (List.filter (fun v => negb (is_array v)) options).
Proof.
  rewrite createFilterOptions_entries. unfold config.filterKeys. cbn [map obj_get].
  repeat (destruct (decide (_ = k)); [intros [= <-]; apply JsSet_of_values_distinct|]).
  discriminate.
Qed.

Lemma createFilterOptions_distinct_witness :
  obj_get (createFilterOptions sciences) "about" = Some [JStr "n0"; JStr "n7"; JStr "n8"] ∧
  NoDup (List.filter (fun v => negb (is_array v)) [JStr "n0"; JStr "n7"; JStr "n8"]).
Proof.
  split; [reflexivity|].
  by apply (createFilterOptions_distinct sciences "about").
Defined.

(** The catalogue of the two sciences: the shared subject once, the
    level that is a plain string as one value, nothing under the key no
    record has. *)
Example createFilterOptions_sciences :
  createFilterOptions sciences =
    [ ("about", [JStr "n0"; JStr "n7"; JStr "n8"]);
      ("educationalLevel", [JStr "level2"]);
      ("P126", []) ].
Proof. reflexivity. Qed.

(** ** Loading the index *)

(** Once the imports are done, [createIndex] stores the filter
    catalogue and the index, sets a new property [initialized] and leaves
    the property [initizialized] of the initial object as it was, writes
    nothing to the storage, and fetches: it completes, showing the
    records that pass the test on [type] from page 0, exactly when every
    stored record has an array or a string as [type], and throws
    otherwise, with the first three writes done. *)
Theorem createIndex_outcome (index : Document.t) (w : Env) :
  ∃ c w',
    createIndex index w = Some (c, w') ∧
    db_value w' !! "filters" = Some (VFilters (createFilterOptions index)) ∧
    db_value w' !! "index" = Some (VIndex (Some index)) ∧
    db_value w' !! "initialized" = Some (VBool true) ∧
    db_value w' !! "initizialized" = db_value w !! "initizialized" ∧
    localStorage w' = localStorage w ∧
    (Forall (λ e, ¬ type_unreadable e) (values (Document.store index)) →
     c = Normal tt ∧
     w' = shown (filter kept (values (Document.store index))) (loaded index w)) ∧
    (¬ Forall (λ e, ¬ type_unreadable e) (values (Document.store index)) →
     c = Throw TypeError ∧ w' = loaded index w).
Proof.
  rewrite createIndex_spec, (fillResults_spec _ (Some index) (loaded_index index w)).
  eexists _, _. split; [by rewrite <- surjective_pairing|].
  rewrite !finish_frame by done. rewrite finish_storage.
  split; [cbn; unfold Db.with_index, Db.with_filters; by simplify_map_eq|].
  split; [apply loaded_index|].
  split; [cbn; unfold Db.with_index, Db.with_filters; by simplify_map_eq|].
  split; [by rewrite loaded_other|].
  split; [done|]. split; intros Hty.
  - by rewrite (fill_outcome_readable index Hty).
  - apply Exists_unreadable in Hty.
    apply fill_outcome_unreadable in Hty. by rewrite Hty.
Qed.

(** At start, with the toy index. *)
Example createIndex_toy :
  createIndex toy_index start =
    Some (Normal tt, shown [bildung; schule] (loaded toy_index start)) ∧
  db_value (loaded toy_index start) !! "initizialized" = Some (VBool false).
Proof. split; [|reflexivity]. vm_compute. reflexivity. Qed.
